(** * Unsupervised deep homography: the training script [main.py]

    A shallow embedding of [main.py] and the properties of its
    specification.

    Conventions of the embedding.
    - Scalars (Python and torch floats) are exact rationals [Qc]; rounding
      is outside the model.  A torch operation that raises, or whose
      result is not a finite number (nan, inf), has no value: [None].
    - A tensor is its shape together with its elements in row-major order.
    - [torch], [kornia] and the data pipeline are libraries, not code of
      [main.py].  What [main.py] needs of them is either written out from
      their documented behaviour (element-wise operations, [mean], shape
      rules of the layers, the four-point transform) or taken as an
      interface ([Kornia] for the warp, [Torch] for the values the
      network, autograd and Adam compute).
    - Effects (module state, optimizer state, what is written to the
      summary writer, the console and the checkpoint files) are threaded
      through a state-and-exception monad [M]; every effect that leaves
      the process is recorded, in order, in the [trace]. *)

From Stdlib Require Import String Ascii Decimal DecimalString DecimalN DecimalNat.
From Stdlib Require Import NArith ZArith QArith Qcanon Qcabs Qround.
From Stdlib Require Import Lia Lqa Bool List FinFun.
Import ListNotations.

Open Scope Qc_scope.
Open Scope list_scope.

(* ------------------------------------------------------------------ *)
(** ** Tensors *)

Definition shape := list N.

Record tensor := mkT { tshape : shape; tdata : list Qc }.

Definition numel (s : shape) : N := fold_right N.mul 1%N s.

(** The data of a tensor fills its shape. *)
Definition tensor_wf (t : tensor) : Prop :=
  N.of_nat (length (tdata t)) = numel (tshape t).

Definition shape_eqb (s1 s2 : shape) : bool :=
  if list_eq_dec N.eq_dec s1 s2 then true else false.

Fixpoint map2 (f : Qc -> Qc -> Qc) (x y : list Qc) : list Qc :=
  match x, y with
  | xi :: x', yi :: y' => f xi yi :: map2 f x' y'
  | _, _ => []
  end.

(** Broadcasting.  The shapes are aligned at their last dimension; two
    sizes go together when they are equal or one of them is 1, and the
    shorter shape counts as padded with 1 in front.  [broadcast_dims] reads
    the shapes last dimension first. *)
Fixpoint broadcast_dims (x y : list N) : option (list N) :=
  match x, y with
  | [], _ => Some y
  | _, [] => Some x
  | a :: x', b :: y' =>
      match broadcast_dims x' y' with
      | None => None
      | Some r =>
          if (a =? b)%N then Some (a :: r)
          else if (a =? 1)%N then Some (b :: r)
          else if (b =? 1)%N then Some (a :: r)
          else None
      end
  end.

Definition broadcast_shape (s1 s2 : shape) : option shape :=
  option_map (@rev N) (broadcast_dims (rev s1) (rev s2)).

(** [k] consecutive pieces of [n] elements each. *)
Fixpoint chunks (k n : nat) (d : list Qc) : list (list Qc) :=
  match k with
  | O => []
  | S k' => firstn n d :: chunks k' n (skipn n d)
  end.

(** The data of a tensor of shape [s] expanded to the shape [t] of as many
    dimensions: along a dimension where [s] has 1 and [t] has more, the
    single slice is repeated. *)
Fixpoint expand (s t : shape) (d : list Qc) : list Qc :=
  match s, t with
  | si :: s', ti :: t' =>
      let slices :=
        map (expand s' t') (chunks (N.to_nat si) (N.to_nat (numel s')) d) in
      if (si =? ti)%N then concat slices
      else concat (repeat (concat slices) (N.to_nat ti))
  | _, _ => d
  end.

(** [t.expand(target)] *)
Definition expand_to (target : shape) (t : tensor) : list Qc :=
  expand (repeat 1%N (length target - length (tshape t)) ++ tshape t) target
         (tdata t).

(** Element-wise binary operation of two tensors: on tensors of one
    shape element by element, on tensors of other shapes after
    broadcasting both to their common shape; shapes that do not broadcast
    are refused. *)
Definition tzip (f : Qc -> Qc -> Qc) (a b : tensor) : option tensor :=
  if shape_eqb (tshape a) (tshape b)
  then Some (mkT (tshape a) (map2 f (tdata a) (tdata b)))
  else
    match broadcast_shape (tshape a) (tshape b) with
    | Some t => Some (mkT t (map2 f (expand_to t a) (expand_to t b)))
    | None => None
    end.

Definition tadd : tensor -> tensor -> option tensor := tzip Qcplus.
Definition tsub : tensor -> tensor -> option tensor := tzip Qcminus.

(** [torch.abs] *)
Definition tabs (t : tensor) : tensor := mkT (tshape t) (map Qcabs (tdata t)).

Definition Qz (z : Z) : Qc := Q2Qc (inject_Z z).
Definition Qc_of_nat (n : nat) : Qc := Q2Qc (inject_Z (Z.of_nat n)).
Definition Qc_of_N (n : N) : Qc := Q2Qc (inject_Z (Z.of_N n)).

Definition sum (l : list Qc) : Qc := fold_right Qcplus 0 l.

(** [torch.mean] over all elements; nan on an empty tensor. *)
Definition tmean (t : tensor) : option Qc :=
  match tdata t with
  | [] => None
  | _ :: _ => Some (sum (tdata t) / Qc_of_nat (length (tdata t)))
  end.

(** [t.size(0)]; an [IndexError] on a tensor without dimensions. *)
Definition size0 (t : tensor) : option N :=
  match tshape t with
  | n :: _ => Some n
  | [] => None
  end.

Definition zeros (s : shape) : tensor :=
  mkT s (repeat 0 (N.to_nat (numel s))).

(* ------------------------------------------------------------------ *)
(** ** The network: shapes

    [Flatten], [Block] and [Net] as the sequences of layers their
    constructors build, and the shape each layer gives its input (or the
    error it raises).  The values the layers compute are the business of
    [Torch] below. *)

Inductive layer :=
| Conv2d (inchannels outchannels kernel_size padding : N)
| ReLU
| BatchNorm2d (num_features : N)
| MaxPool2d (kernel_size stride : N)
| Flatten
| Linear (in_features out_features : N).

Definition layer_shape (training : bool) (l : layer) (s : shape) : option shape :=
  match l, s with
  | Conv2d cin cout k p, [n; c; h; w] =>
      if (c =? cin)%N && (k <=? h + 2 * p)%N && (k <=? w + 2 * p)%N
      then Some [n; cout; h + 2 * p - k + 1; w + 2 * p - k + 1]%N
      else None
  | ReLU, _ => Some s
  | BatchNorm2d f, [n; c; h; w] =>
      (* in training mode one value per channel is refused *)
      if (c =? f)%N && (negb training || negb (n * h * w =? 1)%N)
      then Some s else None
  | MaxPool2d k st, [n; c; h; w] =>
      if (k <=? h)%N && (k <=? w)%N && (0 <? st)%N
      then Some [n; c; (h - k) / st + 1; (w - k) / st + 1]%N
      else None
  | Flatten, n :: rest =>
      (* x.view(x.size(0), -1): -1 cannot be inferred for size(0) = 0 *)
      if (0 <? n)%N then Some [n; numel rest] else None
  | Linear fin fout, _ :: _ =>
      if (last s 0 =? fin)%N then Some (removelast s ++ [fout]) else None
  | _, _ => None
  end.

(** [nn.Sequential] *)
Fixpoint Sequential (training : bool) (ls : list layer) (s : shape) : option shape :=
  match ls with
  | [] => Some s
  | l :: ls' =>
      match layer_shape training l s with
      | Some s' => Sequential training ls' s'
      | None => None
      end
  end.

Definition Block (inchannels outchannels : N) (batch_norm : bool) : list layer :=
  [Conv2d inchannels outchannels 3 1; ReLU]
  ++ (if batch_norm then [BatchNorm2d outchannels] else [])
  ++ [Conv2d outchannels outchannels 3 1; ReLU]
  ++ (if batch_norm then [BatchNorm2d outchannels] else [])
  ++ [MaxPool2d 2 2].

Definition Net_cnn (batch_norm : bool) : list layer :=
  Block 2 64 batch_norm ++ Block 64 128 batch_norm ++ Block 128 256 batch_norm
  ++ Block 256 256 batch_norm ++ Block 256 256 batch_norm ++ [Flatten].

Definition Net_fc : list layer :=
  [Linear (256 * 4 * 4) 4096; ReLU; Linear 4096 (4 * 2)].

(** [torch.cat((a, b), dim=1)] *)
Definition cat_dim1 (a b : shape) : option shape :=
  match a, b with
  | n :: ca :: ra, n' :: cb :: rb =>
      if (n =? n')%N && shape_eqb ra rb
      then Some (n :: (ca + cb)%N :: ra) else None
  | _, _ => None
  end.

(** [x.view(-1, 4, 2)] *)
Definition view_m1_4_2 (s : shape) : option shape :=
  if (numel s mod (4 * 2) =? 0)%N then Some [numel s / (4 * 2); 4; 2]%N else None.

(** The shape of [Net.forward(a, b)]. *)
Definition Net_forward_shape (batch_norm training : bool) (a b : shape)
  : option shape :=
  match cat_dim1 a b with
  | None => None
  | Some x =>
      match Sequential training (Net_cnn batch_norm) x with
      | None => None
      | Some x =>
          match Sequential training Net_fc x with
          | None => None
          | Some x => view_m1_4_2 x
          end
      end
  end.

(* ------------------------------------------------------------------ *)
(** ** Geometry: the four-point perspective transform *)

Definition point := (Qc * Qc)%type.

(** One equation of a linear system: coefficients and right-hand side. *)
Definition row := (list Qc * Qc)%type.

Fixpoint dot (a x : list Qc) : Qc :=
  match a, x with
  | ai :: a', xi :: x' => ai * xi + dot a' x'
  | _, _ => 0
  end.

Definition Qc_is_zero (q : Qc) : bool := if Qc_eq_dec q 0 then true else false.

(** The first equation whose leading coefficient is not zero, split into
    that coefficient, the other coefficients and the right-hand side, and
    the remaining equations. *)
Fixpoint find_pivot (rows : list row) : option (Qc * list Qc * Qc * list row) :=
  match rows with
  | [] => None
  | ([], _) :: _ => None
  | (a0 :: a, b) :: rest =>
      if Qc_is_zero a0 then
        match find_pivot rest with
        | Some (p0, p, pb, others) => Some (p0, p, pb, (a0 :: a, b) :: others)
        | None => None
        end
      else Some (a0, a, b, rest)
  end.

(** [c - k * a], element-wise *)
Fixpoint axpy (k : Qc) (a c : list Qc) : list Qc :=
  match a, c with
  | ai :: a', ci :: c' => (ci - k * ai) :: axpy k a' c'
  | _, _ => []
  end.

(** Remove the leading unknown from [r] with the pivot equation. *)
Definition eliminate (p0 : Qc) (p : list Qc) (pb : Qc) (r : row) : row :=
  match r with
  | (c0 :: c, d) => (axpy (c0 / p0) p c, d - (c0 / p0) * pb)
  | ([], d) => ([], d)
  end.

(** Modelled from the spec: the linear solve behind
    [kornia.get_perspective_transform], "a stable linear-system solver"
    that "fails" on a singular system.  Gaussian elimination with
    back-substitution in exact arithmetic: [n] unknowns, [None] when some
    unknown has no pivot. *)
Fixpoint solve (n : nat) (rows : list row) : option (list Qc) :=
  match n with
  | O => Some []
  | S n' =>
      match find_pivot rows with
      | None => None
      | Some (p0, p, pb, others) =>
          match solve n' (map (eliminate p0 p pb) others) with
          | None => None
          | Some xs => Some ((pb - dot p xs) / p0 :: xs)
          end
      end
  end.

(** The two equations a correspondence [p -> q] puts on the eight unknown
    entries of the transform (the ninth is fixed to 1). *)
Definition build_perspective_param_x (p q : point) : row :=
  let '(x, y) := p in let '(u, v) := q in
  ([x; y; 1; 0; 0; 0; - x * u; - y * u], u).

Definition build_perspective_param_y (p q : point) : row :=
  let '(x, y) := p in let '(u, v) := q in
  ([0; 0; 0; x; y; 1; - x * v; - y * v], v).

Fixpoint perspective_system (src dst : list point) : list row :=
  match src, dst with
  | p :: src', q :: dst' =>
      build_perspective_param_x p q :: build_perspective_param_y p q
        :: perspective_system src' dst'
  | _, _ => []
  end.

(** Modelled from the spec: [kornia.get_perspective_transform] on one
    sample, "the unique projective transform mapping the 4 source points
    to the 4 destination points (a homogeneous linear system)".  The nine
    entries of the 3x3 matrix in row-major order. *)
Definition get_perspective_transform1 (src dst : list point) : option (list Qc) :=
  if (length src =? 4)%nat && (length dst =? 4)%nat then
    match solve 8 (perspective_system src dst) with
    | Some x => Some (x ++ [1])
    | None => None
    end
  else None.

(** The samples of a [B x 4 x 2] tensor. *)
Fixpoint quads (l : list Qc) : list (list point) :=
  match l with
  | x0 :: y0 :: x1 :: y1 :: x2 :: y2 :: x3 :: y3 :: rest =>
      [(x0, y0); (x1, y1); (x2, y2); (x3, y3)] :: quads rest
  | _ => []
  end.

Fixpoint transforms (src dst : list (list point)) : option (list Qc) :=
  match src, dst with
  | [], [] => Some []
  | s :: src', d :: dst' =>
      match get_perspective_transform1 s d, transforms src' dst' with
      | Some h, Some hs => Some (h ++ hs)
      | _, _ => None
      end
  | _, _ => None
  end.

(** Modelled from the spec: [kornia.get_perspective_transform] on a batch,
    [B x 4 x 2] source and destination points to [B x 3 x 3] matrices. *)
Definition get_perspective_transform (src dst : tensor) : option tensor :=
  match tshape src, tshape dst with
  | [b; 4; 2]%N, [b'; 4; 2]%N =>
      if (b =? b')%N
         && (length (tdata src) =? 8 * N.to_nat b)%nat
         && (length (tdata dst) =? 8 * N.to_nat b)%nat
      then option_map (mkT [b; 3; 3]%N)
                      (transforms (quads (tdata src)) (quads (tdata dst)))
      else None
  | _, _ => None
  end.

(** Applying a 3x3 transform to a point: the homogeneous image and the
    division by its third coordinate. *)
Definition homogeneous (h : list Qc) (p : point) : Qc * Qc * Qc :=
  let '(x, y) := p in
  (dot (firstn 3 h) [x; y; 1],
   dot (firstn 3 (skipn 3 h)) [x; y; 1],
   dot (firstn 3 (skipn 6 h)) [x; y; 1]).

Definition transform_point (h : list Qc) (p : point) : option point :=
  let '(u, v, w) := homogeneous h p in
  if Qc_is_zero w then None else Some (u / w, v / w).

Definition eye3 : list Qc := [1; 0; 0; 0; 1; 0; 0; 0; 1].

(** The identity transform for each of [b] samples. *)
Definition identity_transforms (b : N) : tensor :=
  mkT [b; 3; 3]%N (concat (repeat eye3 (N.to_nat b))).

(** The determinant that vanishes on three points of a line. *)
Definition det3 (p q r : point) : Qc :=
  (fst q - fst p) * (snd r - snd p) - (snd q - snd p) * (fst r - fst p).

(** Three points on one line. *)
Definition collinear (p q r : point) : Prop := det3 p q r = 0.

(** Four points, no three of them on one line. *)
Definition general_position (ps : list point) : Prop :=
  match ps with
  | [p1; p2; p3; p4] =>
      ~ collinear p1 p2 p3 /\ ~ collinear p1 p2 p4
      /\ ~ collinear p1 p3 p4 /\ ~ collinear p2 p3 p4
  | _ => False
  end.

Definition padd (p d : point) : point := (fst p + fst d, snd p + snd d).

Fixpoint displace (ps ds : list point) : list point :=
  match ps, ds with
  | p :: ps', d :: ds' => padd p d :: displace ps' ds'
  | _, _ => []
  end.

(* ------------------------------------------------------------------ *)
(** ** Notions for the statements about the geometry *)

(** [x] satisfies every equation of [rows]. *)
Definition satisfies (rows : list row) (x : list Qc) : Prop :=
  Forall (fun r => dot (fst r) x = snd r) rows.

(** [x] satisfies every equation of [rows] with the right-hand sides put
    to zero. *)
Definition annihilates (rows : list row) (x : list Qc) : Prop :=
  Forall (fun r => dot (fst r) x = 0) rows.

Definition rows_of_width (n : nat) (rows : list row) : Prop :=
  Forall (fun r => length (fst r) = n) rows.

(** The claim of the round trip: the transform of [src] and
    [src + delta] is computed and takes every source point onto its
    destination point. *)
Definition maps_onto_destinations (src delta : list point) : Prop :=
  exists h,
    get_perspective_transform1 src (displace src delta) = Some h
    /\ forall i p q,
         nth_error src i = Some p ->
         nth_error (displace src delta) i = Some q ->
         transform_point h p = Some q.

(* ------------------------------------------------------------------ *)
(** ** The photometric loss *)

(** [kornia.warp_perspective(src, M, dsize)]: an interface. *)
Class Kornia := {
  warp_perspective : tensor -> tensor -> N * N -> option tensor
}.

(** What the loss needs of the warp: it takes a batch of images, and
    its output has the batch and the channels of the input and the
    resolution [dsize]. *)
Class KorniaSpec (K : Kornia) : Prop := {
  warp_shape : forall img h dsize out,
    warp_perspective img h dsize = Some out ->
    exists b c hi wi,
      tshape img = [b; c; hi; wi]
      /\ tshape out = [b; c; fst dsize; snd dsize]
      /\ tensor_wf out
}.

Section Loss.
Context {K : Kornia}.

Definition photometric_loss (delta img_a img_b points : tensor) : option Qc :=
  match tadd points delta with
  | None => None
  | Some points_hat =>
      match get_perspective_transform points points_hat with
      | None => None
      | Some h =>
          match warp_perspective img_a h (256, 256)%N with
          | None => None
          | Some img_b_hat =>
              match tsub img_b_hat img_b with
              | None => None
              | Some d => tmean (tabs d)
              end
          end
      end
  end.

(** The loss in the words of the specification, sample by sample and
    pixel by pixel. *)

(** 1. destination points = source points + displacement, element-wise *)
Fixpoint destination_points (points delta : list Qc) : list Qc :=
  match points, delta with
  | p :: points', d :: delta' => (p + d) :: destination_points points' delta'
  | _, _ => []
  end.

(** 4. sum of the absolute pixel-wise differences *)
Fixpoint sum_abs_diff (x y : list Qc) : Qc :=
  match x, y with
  | xi :: x', yi :: y' => Qcabs (xi - yi) + sum_abs_diff x' y'
  | _, _ => 0
  end.

(** 3. the resolution of an image of a batch *)
Definition resolution (img : tensor) : option (N * N) :=
  match tshape img with
  | [_; _; h; w] => Some (h, w)
  | _ => None
  end.

(** The four steps: the destination points, the transforms, the first
    image warped to the resolution of the second, and the mean of the
    absolute differences over the pixels of the second image. *)
Definition photometric_loss_spec (delta img_a img_b points : tensor)
  : option Qc :=
  let points_hat :=
    mkT (tshape points) (destination_points (tdata points) (tdata delta)) in
  match get_perspective_transform points points_hat with
  | None => None
  | Some h =>
      match resolution img_b with
      | None => None
      | Some size =>
          match warp_perspective img_a h size with
          | None => None
          | Some warped =>
              match tdata img_b with
              | [] => None
              | _ :: _ =>
                  Some (sum_abs_diff (tdata warped) (tdata img_b)
                        / Qc_of_nat (length (tdata img_b)))
              end
          end
      end
  end.
End Loss.

(* ------------------------------------------------------------------ *)
(** ** The training loop: state, effects, exceptions *)

(** The batch size both loaders are built with, and the learning rate
    of Adam. *)
Definition BATCH_SIZE : N := 64.
Definition LR : Qc := Q2Qc (1 # 100000).

(** One batch as the data loader yields it. *)
Record batch := mkBatch {
  img_a : tensor; img_b : tensor;
  patch_a : tensor; patch_b : tensor;
  points : tensor
}.

(** What a step sees of a [DataLoader]: [len(dataloader.dataset)] and the
    batches one iteration over it yields. *)
Record DataLoader := mkLoader { dataset_len : nat; batches : list batch }.

(** The values torch computes: the network on a pair of patches (in
    training or in evaluation mode), the running statistics a
    training-mode forward pass leaves in the batch-norm layers, the
    gradient of the loss of a batch with respect to the parameters, and
    one update of Adam. *)
Class Torch := {
  Params : Type;
  Buffers : Type;
  Grad : Type;
  OptState : Type;
  grad_zero : Grad;
  grad_add : Grad -> Grad -> Grad;
  net_forward : bool -> Params -> Buffers -> tensor -> tensor -> option tensor;
  track_running_stats : Params -> Buffers -> tensor -> tensor -> Buffers;
  autograd : Params -> batch -> Grad;
  adam_init : Qc -> OptState;
  adam_step : OptState -> Params -> Grad -> OptState * Params
}.

Inductive exn := ZeroDivisionError | IndexError | RuntimeError | ValueError.

Inductive result (A : Type) :=
| Ok (a : A)
| Raise (e : exn).
Arguments Ok {A} a.
Arguments Raise {A} e.

(** A call that returned, as opposed to one that raised. *)
Definition returns {A} (r : result A) : bool :=
  match r with
  | Ok _ => true
  | Raise _ => false
  end.

Definition tab : string := String (ascii_of_nat 9) EmptyString.

Definition str_of_nat (n : nat) : string :=
  NilEmpty.string_of_uint (Nat.to_uint n).

Definition str_of_N (n : N) : string :=
  NilEmpty.string_of_uint (N.to_uint n).

Fixpoint zfill (k : nat) (s : string) : string :=
  match k with
  | O => s
  | S k' => if (String.length s <? S k')%nat
            then String "0" (zfill k' s) else zfill k' s
  end.

(** Round half to even, the rounding of [format]. *)
Definition round_half_even (q : Qc) : Z :=
  let fl := Qfloor q in
  match (q - Q2Qc (inject_Z fl) ?= Q2Qc (1 # 2))%Qc with
  | Lt => fl
  | Gt => (fl + 1)%Z
  | Eq => if Z.even fl then fl else (fl + 1)%Z
  end.

(** [f"{q:.4f}"] *)
Definition format_4f (q : Qc) : string :=
  let m := Z.to_N (round_half_even (Qcabs q * Q2Qc (inject_Z 10000))) in
  ((match (q ?= 0)%Qc with Lt => "-" | _ => "" end)
   ++ str_of_N (m / 10000) ++ "." ++ zfill 4 (str_of_N (m mod 10000)))%string.

(** [p / d] rounded to the nearest integer, to the even one of two
    equally near. *)
Definition round_half_even_div (p d : Z) : Z :=
  let q := (p / d)%Z in
  match (2 * (p mod d) ?= d)%Z with
  | Lt => q
  | Gt => (q + 1)%Z
  | Eq => if Z.even q then q else (q + 1)%Z
  end.

(** The rounding of binary64 on a non-negative integer: the nearest
    integer of at most 53 significant bits, ties to even.  Scaling by a
    power of two commutes with it, so it also rounds every [p / 2 ^ k]. *)
Definition round53 (p : Z) : Z :=
  if (p <? 2 ^ 53)%Z then p
  else
    let d := (2 ^ (Z.log2 p - 52))%Z in
    (round_half_even_div p d * d)%Z.

(** The float [0.8] is [float_0_8 / 2 ^ 52]. *)
Definition float_0_8 : Z := 3602879701896397.

(** [int(0.8 * n)]: [n] converted to a float, the product of the two
    floats rounded to a float, and that truncated to an integer. *)
Definition int_0_8_Z (n : Z) : Z :=
  (round53 (float_0_8 * round53 n) / 2 ^ 52)%Z.

Definition int_0_8 (n : nat) : nat := Z.to_nat (int_0_8_Z (Z.of_nat n)).

Section Loop.
Context {K : Kornia} {T : Torch}.

(** The [nn.Module]: parameters, batch-norm statistics, the mode flag
    and the gradient buffers. *)
Record module := mkModule {
  params : Params;
  buffers : Buffers;
  training : bool;
  grad : Grad
}.

Inductive event :=
| EvForward (mode tracking : bool)
| EvBackward (before dloss : Grad)
| EvOptimizerStep
| EvAddScalar (tag : string) (scalar_value : Qc) (global_step : option nat)
| EvFlush
| EvPrint (line : string)
| EvSave (path : string) (state_dict : Params * Buffers).

(** The process: the model, the optimizer, whether autograd records
    the operations it sees, and what has left the process so far. *)
Record world := mkWorld {
  model : module;
  optimizer : OptState;
  grad_enabled : bool;
  trace : list event
}.

Definition M (A : Type) : Type := world -> world * result A.

Definition ret {A} (a : A) : M A := fun w => (w, Ok a).

Definition bind {A B} (m : M A) (k : A -> M B) : M B :=
  fun w =>
    match m w with
    | (w', Ok a) => k a w'
    | (w', Raise e) => (w', Raise e)
    end.

Definition raise {A} (e : exn) : M A := fun w => (w, Raise e).

Definition emit (e : event) : M unit :=
  fun w => (mkWorld (model w) (optimizer w) (grad_enabled w) (trace w ++ [e]),
            Ok tt).

Definition set_model (m : module) : M unit :=
  fun w => (mkWorld m (optimizer w) (grad_enabled w) (trace w), Ok tt).

Definition get_model : M module := fun w => (w, Ok (model w)).

(** [torch.is_grad_enabled()] *)
Definition is_grad_enabled : M bool := fun w => (w, Ok (grad_enabled w)).

(** [with torch.no_grad(): body]: recording is off inside and set back
    on the way out, also when the body raises. *)
Definition no_grad {A} (body : M A) : M A :=
  fun w =>
    match body (mkWorld (model w) (optimizer w) false (trace w)) with
    | (w', r) =>
        (mkWorld (model w') (optimizer w') (grad_enabled w) (trace w'), r)
    end.

(** A value of torch, or the [RuntimeError] in its place. *)
Definition torch {A} (o : option A) : M A :=
  match o with
  | Some a => ret a
  | None => raise RuntimeError
  end.

Definition index {A} (o : option A) : M A :=
  match o with
  | Some a => ret a
  | None => raise IndexError
  end.

Local Notation "x <- m ;; k" := (bind m (fun x => k))
  (at level 61, m at next level, right associativity).
Local Notation "m ;; k" := (bind m (fun _ => k))
  (at level 61, right associativity).

(** [for x in l: s = body(s, x)] *)
Fixpoint for_each {A S} (l : list A) (s : S) (body : S -> A -> M S) : M S :=
  match l with
  | [] => ret s
  | a :: l' => s' <- body s a ;; for_each l' s' body
  end.

(** [model.train()], [model.eval()] *)
Definition set_training (mode : bool) : M unit :=
  m <- get_model ;;
  set_model (mkModule (params m) (buffers m) mode (grad m)).

(** [model(patch_a, patch_b)]: the forward pass in the current mode,
    recorded by autograd or not; in training mode it also moves the
    batch-norm running statistics. *)
Definition model_call (a b : tensor) : M tensor :=
  m <- get_model ;;
  tracking <- is_grad_enabled ;;
  emit (EvForward (training m) tracking) ;;
  delta <- torch (net_forward (training m) (params m) (buffers m) a b) ;;
  (if training m
   then set_model (mkModule (params m)
                            (track_running_stats (params m) (buffers m) a b)
                            (training m) (grad m))
   else ret tt) ;;
  ret delta.

(** [loss.backward()]: the gradient of this loss is added to what the
    gradient buffers hold.  A loss computed while autograd was not
    recording has no graph to go back through: [RuntimeError]. *)
Definition backward (b : batch) : M unit :=
  tracking <- is_grad_enabled ;;
  if tracking then
    m <- get_model ;;
    let dloss := autograd (params m) b in
    emit (EvBackward (grad m) dloss) ;;
    set_model (mkModule (params m) (buffers m) (training m)
                        (grad_add (grad m) dloss))
  else raise RuntimeError.

(** [optimizer.step()] *)
Definition optimizer_step : M unit :=
  fun w =>
    let m := model w in
    let '(o, p) := adam_step (optimizer w) (params m) (grad m) in
    (mkWorld (mkModule p (buffers m) (training m) (grad m)) o
             (grad_enabled w) (trace w ++ [EvOptimizerStep]), Ok tt).

(** [writer.add_scalar(tag, scalar_value, global_step=None)] *)
Definition add_scalar (tag : string) (scalar_value : Qc)
           (global_step : option nat) : M unit :=
  emit (EvAddScalar tag scalar_value global_step).

Definition flush : M unit := emit EvFlush.

Definition print (line : string) : M unit := emit (EvPrint line).

(** [torch.save(model.state_dict(), path)] *)
Definition torch_save (path : string) : M unit :=
  m <- get_model ;;
  emit (EvSave path (params m, buffers m)).

(** [total / size] of a float by an int *)
Definition divide (total : Qc) (size : nat) : M Qc :=
  match size with
  | O => raise ZeroDivisionError
  | S _ => ret (total / Qc_of_nat size)
  end.

(** The body of the loop of [train_step]. *)
Definition train_batch (total_loss : Qc) (b : batch) : M Qc :=
  delta <- model_call (patch_a b) (patch_b b) ;;
  loss <- torch (photometric_loss delta (img_a b) (img_b b) (points b)) ;;
  n <- index (size0 (img_a b)) ;;
  let total_loss := total_loss + loss * Qc_of_N n in
  backward b ;;
  optimizer_step ;;
  add_scalar "train_loss" loss None ;;
  flush ;;
  ret total_loss.

(** [tqdm] draws a progress bar around the loader and [.to(device)]
    moves a tensor without changing it: neither shows here. *)
Definition train_step (dataloader : DataLoader) : M Qc :=
  set_training true ;;
  let size := dataset_len dataloader in
  total_loss <- for_each (batches dataloader) 0 train_batch ;;
  divide total_loss size.

(** The body of the loop of [valid_step]. *)
Definition valid_batch (total_loss : Qc) (b : batch) : M Qc :=
  delta <- model_call (patch_a b) (patch_b b) ;;
  loss <- torch (photometric_loss delta (img_a b) (img_b b) (points b)) ;;
  n <- index (size0 (img_a b)) ;;
  ret (total_loss + loss * Qc_of_N n).

Definition valid_step (dataloader : DataLoader) : M Qc :=
  set_training false ;;
  no_grad (
    let size := dataset_len dataloader in
    total_loss <- for_each (batches dataloader) 0 valid_batch ;;
    divide total_loss size).

(** The two partitions [random_split] makes of a dataset of [n] items,
    as loaders; [train_pass e] and [valid_pass e] are the batches the
    loaders yield in epoch [e]. *)
Definition train_size (n : nat) : nat := int_0_8 n.
Definition valid_size (n : nat) : nat := n - train_size n.

Definition epoch_line (e : nat) (train_loss valid_loss : Qc) : string :=
  (str_of_nat e ++ tab ++ format_4f train_loss ++ tab ++ format_4f valid_loss)%string.

Definition checkpoint_path (e : nat) : string :=
  ("model_" ++ str_of_nat e ++ ".pt")%string.

(** The body of the loop of [fit]. *)
Definition epoch (n : nat) (train_pass valid_pass : nat -> list batch)
           (_ : unit) (e : nat) : M unit :=
  train_loss <- train_step (mkLoader (train_size n) (train_pass e)) ;;
  valid_loss <- valid_step (mkLoader (valid_size n) (valid_pass e)) ;;
  print (epoch_line e train_loss valid_loss) ;;
  torch_save (checkpoint_path e).

(** The loop of [fit], from the state [fit] has built. *)
Definition fit_loop (n : nat) (train_pass valid_pass : nat -> list batch)
           (epochs : list nat) : M unit :=
  for_each epochs tt (epoch n train_pass valid_pass).

(** [DataLoader(dataset, batch_size=BATCH_SIZE, shuffle=shuffle)] on a
    dataset of [size] items: the sampler of a shuffling loader refuses
    an empty dataset. *)
Definition new_loader (shuffle : bool) (size : nat) : M unit :=
  if shuffle && (size =? 0)%nat then raise ValueError else ret tt.

(** [fit(epochs)] on a dataset of [n] items, with the parameters and
    statistics [Net()] starts from. *)
Definition fit (n : nat) (train_pass valid_pass : nat -> list batch)
           (p0 : Params) (b0 : Buffers) (epochs : nat) : world * result unit :=
  (new_loader true (train_size n) ;;
   new_loader false (valid_size n) ;;
   fit_loop n train_pass valid_pass (seq 0 epochs))
    (mkWorld (mkModule p0 b0 true grad_zero) (adam_init LR) true []).

(** What a run shows of its phases: forward passes by mode, printed
    lines and checkpoints written. *)
Inductive mark :=
| TrainBatch
| ValidBatch
| Printed (line : string)
| Saved (path : string).

Definition mark_of (e : event) : list mark :=
  match e with
  | EvForward true _ => [TrainBatch]
  | EvForward false _ => [ValidBatch]
  | EvPrint line => [Printed line]
  | EvSave path _ => [Saved path]
  | _ => []
  end.

Definition marks (tr : list event) : list mark := flat_map mark_of tr.

Definition backward_of (e : event) : list (Grad * Grad) :=
  match e with
  | EvBackward g d => [(g, d)]
  | _ => []
  end.

(** The gradient buffers each backward pass found, with the gradient
    it added. *)
Definition backwards (tr : list event) : list (Grad * Grad) :=
  flat_map backward_of tr.

Definition scalar_of (e : event) : list (string * Qc * option nat) :=
  match e with
  | EvAddScalar tag v s => [(tag, v, s)]
  | _ => []
  end.

(** The scalars given to the summary writer. *)
Definition scalars (tr : list event) : list (string * Qc * option nat) :=
  flat_map scalar_of tr.

Definition is_update (e : event) : bool :=
  match e with
  | EvBackward _ _ | EvOptimizerStep => true
  | _ => false
  end.

Definition save_of (e : event) : list (string * (Params * Buffers)) :=
  match e with
  | EvSave path sd => [(path, sd)]
  | _ => []
  end.

(** The checkpoints written. *)
Definition saves (tr : list event) : list (string * (Params * Buffers)) :=
  flat_map save_of tr.

Definition print_of (e : event) : list string :=
  match e with
  | EvPrint line => [line]
  | _ => []
  end.

(** The lines printed. *)
Definition printed (tr : list event) : list string := flat_map print_of tr.

(** ** Reference notions for the statements *)

(** The loss of a batch and the size of the batch, as one forward pass
    of the module [m] in its mode gives them. *)
Definition batch_loss (m : module) (b : batch) : result (Qc * N) :=
  match net_forward (training m) (params m) (buffers m)
                    (patch_a b) (patch_b b) with
  | None => Raise RuntimeError
  | Some delta =>
      match photometric_loss delta (img_a b) (img_b b) (points b) with
      | None => Raise RuntimeError
      | Some loss =>
          match size0 (img_a b) with
          | None => Raise IndexError
          | Some n => Ok (loss, n)
          end
      end
  end.

(** The batch losses, each times the size of its batch, summed. *)
Fixpoint weighted_total (l : list (Qc * N)) : Qc :=
  match l with
  | [] => 0
  | (loss, n) :: l' => loss * Qc_of_N n + weighted_total l'
  end.

Definition batch_size (b : batch) : N :=
  match size0 (img_a b) with
  | Some n => n
  | None => 0%N
  end.


(** A sequence of backward passes that starts on the buffer [g], each
    pass finding what its predecessor left, and leaves [g_end]. *)
Fixpoint accumulates (g : Grad) (bw : list (Grad * Grad)) (g_end : Grad) : Prop :=
  match bw with
  | [] => g_end = g
  | (before, dloss) :: rest =>
      before = g /\ accumulates (grad_add g dloss) rest g_end
  end.

(** The world [w] after the events [tr]. *)
Definition log (w : world) (tr : list event) : world :=
  mkWorld (model w) (optimizer w) (grad_enabled w) (trace w ++ tr).

(** What one iteration of the training loop leaves of the world [w],
    where autograd records, when the loss of its batch [b] has the
    value [loss]. *)
Definition trained (w : world) (b : batch) (loss : Qc) : world :=
  let m := model w in
  let dloss := autograd (params m) b in
  let g := grad_add (grad m) dloss in
  let bf := track_running_stats (params m) (buffers m) (patch_a b) (patch_b b) in
  let '(o, p) := adam_step (optimizer w) (params m) g in
  mkWorld (mkModule p bf true g) o (grad_enabled w)
          (trace w ++ [EvForward true true; EvBackward (grad m) dloss;
                       EvOptimizerStep; EvAddScalar "train_loss" loss None;
                       EvFlush]).

(** What one completed iteration of the training loop leaves in the
    trace: the forward pass, the backward pass, the optimizer step, the
    scalar and the flush, in this order. *)
Definition iteration (es : list event) : Prop :=
  exists before dloss loss,
    es = [EvForward true true; EvBackward before dloss; EvOptimizerStep;
          EvAddScalar "train_loss" loss None; EvFlush].

(** The module [m] switched to the mode [mode]. *)
Definition in_mode (mode : bool) (m : module) : module :=
  mkModule (params m) (buffers m) mode (grad m).
End Loop.


(** A number shown with four decimal places: a sign for a negative number,
    the decimal numeral of the whole part, a point and four digits, which
    together read as [m] ten-thousandths, the number of ten-thousandths
    nearest to the absolute value, the even one of two equally near. *)
Definition four_decimals (q : Qc) (s : string) : Prop :=
  exists (m : N) (whole frac : string) (digits : Decimal.uint),
    Qcabs (Qc_of_N m - Qcabs q * Qz 10000) <= Q2Qc (1 # 2)
    /\ (Qcabs (Qc_of_N m - Qcabs q * Qz 10000) = Q2Qc (1 # 2) ->
        N.even m = true)
    /\ whole = NilEmpty.string_of_uint (N.to_uint (m / 10000))
    /\ String.length frac = 4%nat
    /\ NilEmpty.uint_of_string frac = Some digits
    /\ N.of_uint digits = (m mod 10000)%N
    /\ s = ((if Qclt_le_dec q 0 then "-" else "") ++ whole ++ "." ++ frac)%string.

(** Step keys that increase strictly from each emission to the next. *)
Fixpoint strictly_increasing_steps (l : list (option nat)) : Prop :=
  match l with
  | s1 :: ((s2 :: _) as l') =>
      match s1, s2 with
      | Some a, Some b => (a < b)%nat
      | _, _ => False
      end /\ strictly_increasing_steps l'
  | _ => True
  end.

(* ------------------------------------------------------------------ *)
(** ** A small engine to run the script on

    An instance of the two interfaces on which the definitions above
    compute: the warp returns its input under identity transforms and a
    black image otherwise, the network predicts no displacement, every
    loss has gradient 1 and the optimizer moves the single parameter
    against the gradient. *)

Definition data_eqb (x y : list Qc) : bool :=
  if list_eq_dec Qc_eq_dec x y then true else false.

Definition option_Qc_eqb (a b : option Qc) : bool :=
  match a, b with
  | Some x, Some y => Qc_eq_bool x y
  | None, None => true
  | _, _ => false
  end.

(** The corners of the centred patch of one sample. *)
Definition example_quad : list point :=
  [(Qz 64, Qz 64); (Qz 192, Qz 64); (Qz 192, Qz 192); (Qz 64, Qz 192)].

Definition example_warp (img h : tensor) (dsize : N * N) : option tensor :=
  match tshape img with
  | [b; c; hi; wi] =>
      if (N.of_nat (length (tdata img)) =? numel (tshape img))%N then
        if shape_eqb (tshape h) [b; 3; 3]%N
           && data_eqb (tdata h) (tdata (identity_transforms b))
           && (hi =? fst dsize)%N && (wi =? snd dsize)%N
        then Some img
        else Some (zeros [b; c; fst dsize; snd dsize])
      else None
  | _ => None
  end.

Definition example_kornia : Kornia := {| warp_perspective := example_warp |}.

Definition example_torch : Torch := {|
  Params := Qc; Buffers := nat; Grad := Qc; OptState := nat;
  grad_zero := 0;
  grad_add := Qcplus;
  net_forward := fun mode _ _ a b =>
    option_map zeros (Net_forward_shape true mode (tshape a) (tshape b));
  track_running_stats := fun _ k _ _ => S k;
  autograd := fun _ _ => 1;
  adam_init := fun _ => O;
  adam_step := fun o p g => (S o, p - LR * g)
|}.

Definition full (s : shape) (v : Qc) : tensor :=
  mkT s (repeat v (N.to_nat (numel s))).

(** The corners of a centred 128 x 128 patch, for each of [b] samples. *)
Definition example_points (b : nat) : tensor :=
  mkT [N.of_nat b; 4; 2]%N
      (concat (repeat [Qz 64; Qz 64; Qz 192; Qz 64; Qz 192; Qz 192; Qz 64; Qz 192] b)).

(** A batch of [b] samples: images of one grey level each, 256 x 256,
    and 128 x 128 patches. *)
Definition example_batch (b : nat) (level_a level_b : Qc) : batch :=
  mkBatch (full [N.of_nat b; 1; 256; 256]%N level_a)
          (full [N.of_nat b; 1; 256; 256]%N level_b)
          (zeros [N.of_nat b; 1; 128; 128]%N)
          (zeros [N.of_nat b; 1; 128; 128]%N)
          (example_points b).

(** A freshly built model, optimizer and writer. *)
Definition example_world : @world example_torch :=
  @mkWorld example_torch (@mkModule example_torch 0 O true 0) O true [].


(** Three samples in a batch of two and a batch of one. *)
Definition example_loader : DataLoader :=
  mkLoader 3 [example_batch 2 1 0; example_batch 1 (Qz 3) (Qz 1)].

(** One training step over the example loader, from the fresh world. *)
Abbreviation example_train_step :=
  (@train_step example_kornia example_torch example_loader example_world).

(** [fit] on three samples: a training batch of two, a validation batch
    of one. *)
Abbreviation example_fit :=
  (@fit example_kornia example_torch 3
        (fun _ => [example_batch 2 1 0])
        (fun _ => [example_batch 1 (Qz 3) (Qz 1)]) (Qz 0) O).

(* ------------------------------------------------------------------ *)
(** * Properties *)

(** ** Shapes through the network *)

Lemma shape_eqb_refl (s : shape) : shape_eqb s s = true.
Proof. unfold shape_eqb. destruct (list_eq_dec N.eq_dec s s); congruence. Qed.

Lemma shape_eqb_eq (s1 s2 : shape) : shape_eqb s1 s2 = true -> s1 = s2.
Proof. unfold shape_eqb. destruct (list_eq_dec N.eq_dec s1 s2); congruence. Qed.

Lemma halve_pool (h : N) : (2 <= h -> (h - 2) / 2 + 1 = h / 2)%N.
Proof.
  intros H. replace h with ((h - 2) + 1 * 2)%N at 2 by lia.
  rewrite N.div_add by lia. reflexivity.
Qed.

Lemma conv3_shape (tr : bool) (ci co n c x y : N) :
  layer_shape tr (Conv2d ci co 3 1) [n; c; x; y] =
  if (c =? ci)%N && (1 <=? x)%N && (1 <=? y)%N then Some [n; co; x; y] else None.
Proof.
  cbn [layer_shape].
  destruct (N.eqb_spec c ci); cbn [andb]; [|reflexivity].
  destruct (N.leb_spec 3 (x + 2 * 1)); destruct (N.leb_spec 1 x); try lia;
    cbn [andb]; [|reflexivity].
  destruct (N.leb_spec 3 (y + 2 * 1)); destruct (N.leb_spec 1 y); try lia;
    cbn [andb]; [|reflexivity].
  repeat f_equal; lia.
Qed.

Lemma bn_shape (tr : bool) (f n c x y : N) :
  (1 <= n)%N -> (1 <= x)%N -> (1 <= y)%N ->
  layer_shape tr (BatchNorm2d f) [n; c; x; y] =
  if (c =? f)%N && (negb tr || negb ((n =? 1) && (x =? 1) && (y =? 1))%N)
  then Some [n; c; x; y] else None.
Proof.
  intros Hn Hx Hy. cbn [layer_shape]. do 3 f_equal.
  destruct (N.eqb_spec (n * x * y) 1) as [E|E];
    destruct (N.eqb_spec n 1); destruct (N.eqb_spec x 1); destruct (N.eqb_spec y 1);
    cbn [andb]; try reflexivity; exfalso; try nia.
Qed.

Lemma pool2_shape (tr : bool) (n c x y : N) :
  layer_shape tr (MaxPool2d 2 2) [n; c; x; y] =
  if (2 <=? x)%N && (2 <=? y)%N then Some [n; c; x / 2; y / 2]%N else None.
Proof.
  cbn [layer_shape].
  destruct (N.leb_spec 2 x); destruct (N.leb_spec 2 y); cbn [andb]; try reflexivity.
  rewrite !halve_pool by assumption. reflexivity.
Qed.

Lemma Sequential_cons (tr : bool) (l : layer) (ls : list layer) (s : shape) :
  Sequential tr (l :: ls) s =
  match layer_shape tr l s with
  | Some s' => Sequential tr ls s'
  | None => None
  end.
Proof. reflexivity. Qed.

Lemma relu_shape (tr : bool) (s : shape) : layer_shape tr ReLU s = Some s.
Proof. destruct s; reflexivity. Qed.

Ltac conv_relu E1 E2 :=
  rewrite Sequential_cons, conv3_shape, N.eqb_refl, E1, E2; cbn [andb];
  rewrite Sequential_cons, relu_shape.

(** One [Block] keeps the batch, sets the channels and halves the
    resolution; it refuses an input of other channels or of a resolution
    below 2. *)
Lemma Block_shape (bn tr : bool) (cin cout n c h w : N) (rest : list layer) :
  (1 <= n)%N ->
  Sequential tr (Block cin cout bn ++ rest) [n; c; h; w] =
  if (c =? cin)%N && (2 <=? h)%N && (2 <=? w)%N
  then Sequential tr rest [n; cout; h / 2; w / 2]%N
  else None.
Proof.
  intros Hn. unfold Block.
  destruct (N.eqb_spec c cin) as [->|Hc]; cbn [andb].
  2:{ destruct bn; cbn [app]; rewrite Sequential_cons, conv3_shape;
      rewrite (proj2 (N.eqb_neq c cin) Hc); reflexivity. }
  destruct (N.leb_spec 1 h) as [Hh1|Hh1].
  2:{ assert (h = 0%N) by lia; subst h.
      destruct bn; cbn [app]; rewrite Sequential_cons, conv3_shape, N.eqb_refl;
      reflexivity. }
  destruct (N.leb_spec 1 w) as [Hw1|Hw1].
  2:{ assert (w = 0%N) by lia; subst w.
      change (2 <=? 0)%N with false. rewrite andb_false_r.
      destruct bn; cbn [app]; rewrite Sequential_cons, conv3_shape, N.eqb_refl;
      change (1 <=? 0)%N with false; rewrite andb_false_r; reflexivity. }
  assert (E1 : (1 <=? h)%N = true) by (apply N.leb_le; lia).
  assert (E2 : (1 <=? w)%N = true) by (apply N.leb_le; lia).
  assert (Hpool : Sequential tr (MaxPool2d 2 2 :: rest) [n; cout; h; w] =
                  if (2 <=? h)%N && (2 <=? w)%N
                  then Sequential tr rest [n; cout; h / 2; w / 2]%N else None).
  { rewrite Sequential_cons, pool2_shape.
    destruct ((2 <=? h)%N && (2 <=? w)%N); reflexivity. }
  destruct bn; cbn [app].
  - (* with batch normalisation: it refuses only what the pooling refuses *)
    conv_relu E1 E2.
    rewrite Sequential_cons, bn_shape, N.eqb_refl by assumption. cbn [andb].
    destruct (negb tr || negb ((n =? 1) && (h =? 1) && (w =? 1))%N) eqn:Ebn.
    + conv_relu E1 E2.
      rewrite Sequential_cons, bn_shape, N.eqb_refl, Ebn by assumption. cbn [andb].
      apply Hpool.
    + apply orb_false_elim in Ebn. destruct Ebn as [_ Ebn].
      apply negb_false_iff in Ebn.
      apply andb_true_iff in Ebn. destruct Ebn as [Ebn _].
      apply andb_true_iff in Ebn. destruct Ebn as [_ Ebn].
      apply N.eqb_eq in Ebn. subst h. reflexivity.
  - (* without *)
    conv_relu E1 E2. conv_relu E1 E2. apply Hpool.
Qed.

Lemma halvings_ge (h : N) :
  (32 <= h)%N ->
  (2 <=? h)%N = true /\ (2 <=? h / 2)%N = true /\ (2 <=? h / 2 / 2)%N = true
  /\ (2 <=? h / 2 / 2 / 2)%N = true /\ (2 <=? h / 2 / 2 / 2 / 2)%N = true.
Proof.
  intros H. rewrite !N.Div0.div_div. rewrite !N.leb_le.
  repeat split; try lia; apply N.div_le_lower_bound; lia.
Qed.

Lemma halvings_lt (h : N) (X : option shape) :
  (h < 32)%N ->
  (if (2 <=? h)%N then
     if (2 <=? h / 2)%N then
       if (2 <=? h / 2 / 2)%N then
         if (2 <=? h / 2 / 2 / 2)%N then
           if (2 <=? h / 2 / 2 / 2 / 2)%N then X else None
         else None
       else None
     else None
   else None) = None.
Proof.
  intros H.
  destruct (N.leb_spec 2 (h / 2 / 2 / 2 / 2)) as [H4|H4].
  - exfalso. rewrite !N.Div0.div_div in H4.
    match type of H4 with
    | (2 <= ?x)%N => assert (x < 2)%N by (apply N.Div0.div_lt_upper_bound; lia)
    end.
    lia.
  - repeat match goal with
           | |- context [if ?c then _ else _] => destruct c
           end; reflexivity.
Qed.

Lemma div2_5 (h : N) : (h / 2 / 2 / 2 / 2 / 2 = h / 32)%N.
Proof. rewrite !N.Div0.div_div. reflexivity. Qed.

(** The shape [Net.forward] gives two patches of one shape [n x c x h x w],
    [n >= 1]. *)
Lemma Net_forward_shape_eq (bn tr : bool) (n c h w : N) :
  (1 <= n)%N ->
  Net_forward_shape bn tr [n; c; h; w] [n; c; h; w] =
  if (c =? 1)%N && ((h / 32) * (w / 32) =? 16)%N then Some [n; 4; 2]%N else None.
Proof.
  intros Hn. unfold Net_forward_shape, cat_dim1.
  rewrite N.eqb_refl, shape_eqb_refl. cbn [andb].
  unfold Net_cnn. rewrite !Block_shape by assumption.
  destruct (N.eqb_spec (c + c) 2) as [E|E]; destruct (N.eqb_spec c 1) as [E'|E'];
    try lia; cbn [andb]; [|reflexivity].
  change (64 =? 64)%N with true. change (128 =? 128)%N with true.
  change (256 =? 256)%N with true. cbn [andb].
  rewrite !div2_5.
  assert (Hfc : forall a b : N,
    match Sequential tr [Flatten] [n; 256%N; a; b] with
    | Some x => match Sequential tr Net_fc x with
                | Some x0 => view_m1_4_2 x0
                | None => None
                end
    | None => None
    end = if (a * b =? 16)%N then Some [n; 4; 2]%N else None).
  { intros a b. cbn [Sequential layer_shape].
    replace (0 <? n)%N with true by (symmetry; apply N.ltb_lt; lia).
    unfold Net_fc. rewrite Sequential_cons. cbn [layer_shape last numel fold_right].
    change (256 * 4 * 4)%N with 4096%N.
    destruct (N.eqb_spec (a * b) 16) as [Hab|Hab].
    - replace (256 * (a * (b * 1)) =? 4096)%N with true
        by (symmetry; apply N.eqb_eq; lia).
      cbn [removelast app]. rewrite Sequential_cons, relu_shape, Sequential_cons.
      cbn [layer_shape last]. rewrite N.eqb_refl. cbn [removelast app Sequential].
      unfold view_m1_4_2. cbn [numel fold_right].
      change (4 * 2)%N with 8%N.
      replace (n * (8 * 1))%N with (n * 8)%N by lia.
      rewrite N.Div0.mod_mul, N.div_mul by lia. reflexivity.
    - replace (256 * (a * (b * 1)) =? 4096)%N with false
        by (symmetry; apply N.eqb_neq; lia).
      reflexivity. }
  destruct (N.leb_spec 32 h) as [Hh|Hh].
  - destruct (N.leb_spec 32 w) as [Hw|Hw].
    + destruct (halvings_ge h Hh) as (h0 & h1 & h2 & h3 & h4).
      destruct (halvings_ge w Hw) as (w0 & w1 & w2 & w3 & w4).
      rewrite h0, h1, h2, h3, h4, w0, w1, w2, w3, w4. cbn [andb]. apply Hfc.
    + replace (w / 32)%N with 0%N by (symmetry; apply N.div_small; lia).
      rewrite N.mul_0_r. change (0 =? 16)%N with false.
      pose proof (halvings_lt w
        (Sequential tr [Flatten] [n; 256; h / 32; 0]%N) Hw) as Hnone.
      replace (w / 32)%N with 0%N in * by (symmetry; apply N.div_small; lia).
      repeat match goal with
             | |- context [(2 <=? ?x)%N] => destruct (2 <=? x)%N
             end; cbn [andb] in *; try reflexivity; try discriminate.
      rewrite Hnone. reflexivity.
  - replace (h / 32)%N with 0%N by (symmetry; apply N.div_small; lia).
    rewrite N.mul_0_l. change (0 =? 16)%N with false.
    pose proof (halvings_lt h
        (Sequential tr [Flatten] [n; 256; 0; w / 32]%N) Hh) as Hnone.
    repeat match goal with
           | |- context [(2 <=? ?x)%N] => destruct (2 <=? x)%N
           end; cbn [andb] in *; try reflexivity; try discriminate.
    rewrite Hnone. reflexivity.
Qed.

(** ** The linear solve *)

Lemma Qc_is_zero_true (q : Qc) : Qc_is_zero q = true <-> q = 0.
Proof. unfold Qc_is_zero. destruct (Qc_eq_dec q 0); split; congruence. Qed.

Lemma Qc_is_zero_false (q : Qc) : Qc_is_zero q = false <-> q <> 0.
Proof. unfold Qc_is_zero. destruct (Qc_eq_dec q 0); split; congruence. Qed.

Lemma dot_cons (a : Qc) (a' : list Qc) (x : Qc) (x' : list Qc) :
  dot (a :: a') (x :: x') = a * x + dot a' x'.
Proof. reflexivity. Qed.

Lemma dot_axpy (k : Qc) (p : list Qc) :
  forall c x, length p = length c -> length c = length x ->
    dot (axpy k p c) x = dot c x - k * dot p x.
Proof.
  induction p as [|pi p IH]; intros [|ci c] [|xi x] Hc Hx;
    try discriminate; cbn [axpy].
  - cbn. ring.
  - rewrite !dot_cons, IH by (cbn in *; lia). ring.
Qed.

Lemma axpy_length (k : Qc) (p : list Qc) :
  forall c, length p = length c -> length (axpy k p c) = length c.
Proof.
  induction p as [|pi p IH]; intros [|ci c] Hc; try discriminate; [reflexivity|].
  cbn. f_equal. apply IH. cbn in Hc. lia.
Qed.

(** The pivot has a leading coefficient that is not zero, and with the
    other equations it makes up the system. *)
Lemma find_pivot_Some (rows : list row) :
  forall p0 p pb others,
    find_pivot rows = Some (p0, p, pb, others) ->
    p0 <> 0
    /\ length rows = S (length others)
    /\ forall P : row -> Prop,
         Forall P rows <-> P (p0 :: p, pb) /\ Forall P others.
Proof.
  induction rows as [|[[|a0 a] b] rest IH]; intros p0 p pb others H;
    cbn in H; try discriminate.
  destruct (Qc_is_zero a0) eqn:Ez.
  - destruct (find_pivot rest) as [[[[q0 q] qb] oth]|] eqn:Ef; [|discriminate].
    injection H as <- <- <- <-.
    destruct (IH _ _ _ _ eq_refl) as (Hq & Hlen & Hall).
    split; [assumption|]. split; [cbn; lia|].
    intros P. rewrite !Forall_cons_iff, Hall. tauto.
  - injection H as <- <- <- <-.
    split; [apply Qc_is_zero_false; assumption|]. split; [reflexivity|].
    intros P. rewrite Forall_cons_iff. tauto.
Qed.

(** Without a pivot, every leading coefficient is zero. *)
Lemma find_pivot_None (n : nat) (rows : list row) :
  rows_of_width (S n) rows -> find_pivot rows = None ->
  Forall (fun r => exists a, fst r = 0 :: a) rows.
Proof.
  induction rows as [|[[|a0 a] b] rest IH]; intros Hw H; [constructor| |].
  - inversion Hw as [|? ? Hr _]. discriminate Hr.
  - cbn in H. destruct (Qc_is_zero a0) eqn:Ez; [|discriminate].
    apply Qc_is_zero_true in Ez. subst a0.
    destruct (find_pivot rest) as [[[[q0 q] qb] oth]|] eqn:Ef; [discriminate|].
    constructor; [exists a; reflexivity|].
    apply IH; [|reflexivity]. inversion Hw; assumption.
Qed.

(** With the leading unknown expressed by the pivot equation, an equation
    holds exactly when its reduced equation holds of the other unknowns. *)
Lemma eliminate_equation (n : nat) (p0 : Qc) (p : list Qc) (pb : Qc)
      (r : row) (x0 : Qc) (xs : list Qc) :
  p0 <> 0 -> length p = n -> length (fst r) = S n -> length xs = n ->
  p0 * x0 + dot p xs = pb ->
  (dot (fst r) (x0 :: xs) = snd r
   <-> dot (fst (eliminate p0 p pb r)) xs = snd (eliminate p0 p pb r)).
Proof.
  intros Hp0 Hp Hr Hx Hpivot. destruct r as [[|c0 c] d]; [discriminate|].
  cbn [fst snd eliminate length] in *.
  rewrite dot_cons, dot_axpy by lia.
  assert (Hx0 : x0 = (pb - dot p xs) / p0) by (rewrite <- Hpivot; field; assumption).
  split; intros H.
  - rewrite <- H, Hx0. field. assumption.
  - rewrite Hx0. 
    replace (dot c xs) with (d - c0 / p0 * pb + c0 / p0 * dot p xs)
      by (rewrite <- H; ring).
    field. assumption.
Qed.

Lemma eliminate_width (n : nat) (p0 : Qc) (p : list Qc) (pb : Qc) (rows : list row) :
  length p = n -> rows_of_width (S n) rows ->
  rows_of_width n (map (eliminate p0 p pb) rows).
Proof.
  intros Hp Hw. unfold rows_of_width in *. rewrite Forall_map.
  eapply Forall_impl; [|exact Hw]. intros [[|c0 c] d] Hr; [discriminate|].
  cbn in *. rewrite axpy_length; lia.
Qed.

(** The solve returns the one solution of a square system. *)
Lemma solve_sound (n : nat) :
  forall rows x,
    rows_of_width n rows -> length rows = n -> solve n rows = Some x ->
    length x = n /\ satisfies rows x
    /\ forall y, length y = n -> satisfies rows y -> y = x.
Proof.
  induction n as [|n IH]; intros rows x Hw Hlen Hs.
  - cbn in Hs. injection Hs as <-. destruct rows; [|discriminate].
    repeat split; [constructor|]. intros [|? ?] Hy _; [reflexivity|discriminate].
  - cbn [solve] in Hs.
    destruct (find_pivot rows) as [[[[p0 p] pb] others]|] eqn:Ef; [|discriminate].
    destruct (find_pivot_Some _ _ _ _ _ Ef) as (Hp0 & Hlen' & Hall).
    destruct (solve n (map (eliminate p0 p pb) others)) as [xs|] eqn:Es; [|discriminate].
    injection Hs as <-.
    pose proof (proj1 (Hall _) Hw) as [Hpw How]. cbn in Hpw.
    assert (Hp : length p = n) by lia.
    destruct (IH _ _ (eliminate_width n p0 p pb others Hp How)
                 ltac:(rewrite length_map; lia) Es) as (Hxs & Hsat & Huniq).
    assert (Hpivot : p0 * ((pb - dot p xs) / p0) + dot p xs = pb)
      by (field; assumption).
    split; [cbn; lia|]. split.
    + apply Hall. split; [exact Hpivot|].
      unfold satisfies in Hsat. rewrite Forall_map in Hsat.
      rewrite Forall_forall in Hsat, How |- *. intros r Hr.
      apply (eliminate_equation n p0 p pb r _ xs); auto.
    + intros [|y0 ys] Hy Hsy; [discriminate|].
      apply Hall in Hsy. destruct Hsy as [Hypiv Hyo]. cbn [fst snd] in Hypiv.
      rewrite dot_cons in Hypiv.
      assert (Hys : ys = xs).
      { apply Huniq; [cbn in Hy; lia|].
        unfold satisfies. rewrite Forall_map.
        rewrite Forall_forall in Hyo, How |- *. intros r Hr.
        apply (eliminate_equation n p0 p pb r y0 ys); auto; cbn in Hy; lia. }
      subst ys. f_equal. rewrite <- Hypiv. field. assumption.
Qed.

Lemma dot_zeros (a : list Qc) (n : nat) : dot a (repeat 0 n) = 0.
Proof.
  revert n. induction a as [|ai a IH]; intros [|n]; try reflexivity.
  cbn [repeat]. rewrite dot_cons, IH. ring.
Qed.

(** When the solve fails, the equations have a common non-trivial
    solution with the right-hand sides put to zero: the system is
    singular. *)
Lemma solve_None_singular (n : nat) :
  forall rows,
    rows_of_width n rows -> length rows = n -> solve n rows = None ->
    exists v, length v = n /\ v <> repeat 0 n /\ annihilates rows v.
Proof.
  induction n as [|n IH]; intros rows Hw Hlen Hs; [discriminate|].
  cbn [solve] in Hs.
  destruct (find_pivot rows) as [[[[p0 p] pb] others]|] eqn:Ef.
  - destruct (find_pivot_Some _ _ _ _ _ Ef) as (Hp0 & Hlen' & Hall).
    destruct (solve n (map (eliminate p0 p pb) others)) as [xs|] eqn:Es; [discriminate|].
    pose proof (proj1 (Hall _) Hw) as [Hpw How]. cbn in Hpw.
    assert (Hp : length p = n) by lia.
    destruct (IH _ (eliminate_width n p0 p pb others Hp How)
                 ltac:(rewrite length_map; lia) Es) as (v & Hv & Hnz & Hann).
    exists (- dot p v / p0 :: v). split; [cbn; lia|]. split.
    + cbn [repeat]. intros H. injection H as _ H. contradiction.
    + apply Hall. split.
      * cbn [fst]. rewrite dot_cons. field. assumption.
      * unfold annihilates in Hann. rewrite Forall_map in Hann.
        rewrite Forall_forall in Hann, How |- *. intros [[|c0 c] d] Hr.
        -- specialize (How _ Hr). discriminate How.
        -- specialize (How _ Hr). specialize (Hann _ Hr).
           cbn [fst eliminate length] in *. rewrite dot_axpy in Hann by lia.
           rewrite dot_cons.
           assert (Hc : dot c v = c0 / p0 * dot p v).
           { replace (dot c v) with (dot c v - c0 / p0 * dot p v + c0 / p0 * dot p v)
               by ring.
             rewrite Hann. ring. }
           rewrite Hc. field. assumption.
  - pose proof (find_pivot_None n rows Hw Ef) as Hz.
    exists (1 :: repeat 0 n). split; [cbn; rewrite repeat_length; reflexivity|].
    split.
    + cbn [repeat]. intros H. injection H as H. discriminate H.
    + unfold annihilates. eapply Forall_impl; [|exact Hz].
      intros [a b] [a' Ha]. cbn [fst] in *. subst a.
      rewrite dot_cons, dot_zeros. ring.
Qed.

(** ** The four-point transform *)

Lemma perspective_system_width (src dst : list point) :
  rows_of_width 8 (perspective_system src dst).
Proof.
  revert dst. induction src as [|[x y] src IH]; intros [|[u v] dst];
    cbn [perspective_system]; try (constructor; fail).
  constructor; [reflexivity|]. constructor; [reflexivity|]. apply IH.
Qed.

Lemma perspective_system_length (src dst : list point) :
  length src = 4%nat -> length dst = 4%nat ->
  length (perspective_system src dst) = 8%nat.
Proof.
  destruct src as [|? [|? [|? [|? [|? ?]]]]]; try discriminate.
  destruct dst as [|? [|? [|? [|? [|? ?]]]]]; try discriminate.
  reflexivity.
Qed.

Lemma Qc_mult_zero (d u : Qc) : d <> 0 -> d * u = 0 -> u = 0.
Proof.
  intros Hd H. destruct (Qcmult_integral _ _ H); [contradiction|assumption].
Qed.

(** Three weights that balance three points not on a line are zero. *)
Lemma balance_zero (x1 y1 x2 y2 x3 y3 u1 u2 u3 : Qc) :
  det3 (x1, y1) (x2, y2) (x3, y3) <> 0 ->
  u1 * x1 + u2 * x2 + u3 * x3 = 0 ->
  u1 * y1 + u2 * y2 + u3 * y3 = 0 ->
  u1 + u2 + u3 = 0 ->
  u1 = 0 /\ u2 = 0 /\ u3 = 0.
Proof.
  unfold det3. cbn [fst snd]. intros HD Hx Hy H1.
  set (D := (x2 - x1) * (y3 - y1) - (y2 - y1) * (x3 - x1)) in *.
  repeat split; apply (Qc_mult_zero D); try assumption.
  - replace (D * u1)
      with ((y2 - y3) * (u1 * x1 + u2 * x2 + u3 * x3)
            - (x2 - x3) * (u1 * y1 + u2 * y2 + u3 * y3)
            + (x2 * y3 - x3 * y2) * (u1 + u2 + u3)) by (unfold D; ring).
    rewrite Hx, Hy, H1. ring.
  - replace (D * u2)
      with ((y3 - y1) * (u1 * x1 + u2 * x2 + u3 * x3)
            - (x3 - x1) * (u1 * y1 + u2 * y2 + u3 * y3)
            + (x3 * y1 - x1 * y3) * (u1 + u2 + u3)) by (unfold D; ring).
    rewrite Hx, Hy, H1. ring.
  - replace (D * u3)
      with ((y1 - y2) * (u1 * x1 + u2 * x2 + u3 * x3)
            - (x1 - x2) * (u1 * y1 + u2 * y2 + u3 * y3)
            + (x1 * y2 - x2 * y1) * (u1 + u2 + u3)) by (unfold D; ring).
    rewrite Hx, Hy, H1. ring.
Qed.

(** A line through three points not on a line: no such line. *)
Lemma line_zero (x1 y1 x2 y2 x3 y3 a b c : Qc) :
  det3 (x1, y1) (x2, y2) (x3, y3) <> 0 ->
  a * x1 + b * y1 + c = 0 ->
  a * x2 + b * y2 + c = 0 ->
  a * x3 + b * y3 + c = 0 ->
  a = 0 /\ b = 0 /\ c = 0.
Proof.
  unfold det3. cbn [fst snd]. intros HD H1 H2 H3.
  set (D := (x2 - x1) * (y3 - y1) - (y2 - y1) * (x3 - x1)) in *.
  repeat split; apply (Qc_mult_zero D); try assumption.
  - replace (D * a)
      with ((y2 - y3) * (a * x1 + b * y1 + c)
            + (y3 - y1) * (a * x2 + b * y2 + c)
            + (y1 - y2) * (a * x3 + b * y3 + c)) by (unfold D; ring).
    rewrite H1, H2, H3. ring.
  - replace (D * b)
      with ((x3 - x2) * (a * x1 + b * y1 + c)
            + (x1 - x3) * (a * x2 + b * y2 + c)
            + (x2 - x1) * (a * x3 + b * y3 + c)) by (unfold D; ring).
    rewrite H1, H2, H3. ring.
  - replace (D * c)
      with ((x2 * y3 - x3 * y2) * (a * x1 + b * y1 + c)
            + (x3 * y1 - x1 * y3) * (a * x2 + b * y2 + c)
            + (x1 * y2 - x2 * y1) * (a * x3 + b * y3 + c)) by (unfold D; ring).
    rewrite H1, H2, H3. ring.
Qed.

Lemma collinear_det3 (p q r : point) : collinear p q r <-> det3 p q r = 0.
Proof. reflexivity. Qed.

(** The system of four points in general position mapped to themselves
    is regular: with zero right-hand sides only zero solves it. *)
Lemma identity_system_regular (ps : list point) (v : list Qc) :
  general_position ps -> length v = 8%nat ->
  annihilates (perspective_system ps ps) v -> v = repeat 0 8.
Proof.
  intros Hgp Hv Hann.
  destruct ps as [|[x1 y1] [|[x2 y2] [|[x3 y3] [|[x4 y4] [|? ?]]]]];
    try contradiction.
  destruct Hgp as (H123 & H124 & H134 & H234).
  rewrite collinear_det3 in H123, H124, H134, H234.
  destruct v as [|a [|b [|c [|d [|e [|f [|g [|h [|? ?]]]]]]]]]; try discriminate.
  unfold annihilates in Hann. cbn [perspective_system] in Hann.
  repeat rewrite Forall_cons_iff in Hann.
  cbn [fst build_perspective_param_x build_perspective_param_y dot] in Hann.
  destruct Hann as (R1x & R1y & R2x & R2y & R3x & R3y & R4x & R4y & _).
  assert (E1 : forall x y,
             x * a + (y * b + (1 * c + (0 * d + (0 * e + (0 * f
               + (- x * x * g + (- y * x * h + 0))))))) = 0 ->
             a * x + b * y + c = x * (g * x + h * y))
    by (intros x y H; rewrite <- (Qcplus_0_r (x * (g * x + h * y))), <- H; ring).
  assert (E2 : forall x y,
             0 * a + (0 * b + (0 * c + (x * d + (y * e + (1 * f
               + (- x * y * g + (- y * y * h + 0))))))) = 0 ->
             d * x + e * y + f = y * (g * x + h * y))
    by (intros x y H; rewrite <- (Qcplus_0_r (y * (g * x + h * y))), <- H; ring).
  apply E1 in R1x, R2x, R3x, R4x. apply E2 in R1y, R2y, R3y, R4y. clear E1 E2.
  set (w1 := g * x1 + h * y1) in *. set (w2 := g * x2 + h * y2) in *.
  set (w3 := g * x3 + h * y3) in *. set (w4 := g * x4 + h * y4) in *.
  (* the four points are eigenvectors; the fourth is a combination of the
     other three with weights that do not vanish, so the four eigenvalues
     are one *)
  destruct (balance_zero x1 y1 x2 y2 x3 y3
              (det3 (x2, y2) (x3, y3) (x4, y4) * (w1 - w4))
              (- det3 (x1, y1) (x3, y3) (x4, y4) * (w2 - w4))
              (det3 (x1, y1) (x2, y2) (x4, y4) * (w3 - w4)) H123)
    as (U1 & U2 & U3).
  - transitivity
      (det3 (x2, y2) (x3, y3) (x4, y4) * (x1 * w1 - (a * x1 + b * y1 + c))
       - det3 (x1, y1) (x3, y3) (x4, y4) * (x2 * w2 - (a * x2 + b * y2 + c))
       + det3 (x1, y1) (x2, y2) (x4, y4) * (x3 * w3 - (a * x3 + b * y3 + c))
       + det3 (x1, y1) (x2, y2) (x3, y3) * ((a * x4 + b * y4 + c) - x4 * w4)).
    + unfold det3. cbn [fst snd]. ring.
    + rewrite R1x, R2x, R3x, R4x. ring.
  - transitivity
      (det3 (x2, y2) (x3, y3) (x4, y4) * (y1 * w1 - (d * x1 + e * y1 + f))
       - det3 (x1, y1) (x3, y3) (x4, y4) * (y2 * w2 - (d * x2 + e * y2 + f))
       + det3 (x1, y1) (x2, y2) (x4, y4) * (y3 * w3 - (d * x3 + e * y3 + f))
       + det3 (x1, y1) (x2, y2) (x3, y3) * ((d * x4 + e * y4 + f) - y4 * w4)).
    + unfold det3. cbn [fst snd]. ring.
    + rewrite R1y, R2y, R3y, R4y. ring.
  - unfold det3, w1, w2, w3, w4. cbn [fst snd]. ring.
  - apply Qc_mult_zero in U1; [|assumption].
    apply Qc_mult_zero in U3; [|assumption].
    apply Qc_mult_zero in U2;
      [|intros H; apply H134; rewrite <- (Qcopp_involutive (det3 _ _ _)), H; ring].
    destruct (line_zero x1 y1 x2 y2 x3 y3 g h (- w4) H123) as (Hg & Hh & Hw).
    + rewrite <- U1. unfold w1. ring.
    + rewrite <- U2. unfold w2. ring.
    + rewrite <- U3. unfold w3. ring.
    + subst g h. unfold w1, w2, w3, w4 in *.
      destruct (line_zero x1 y1 x2 y2 x3 y3 a b c H123) as (-> & -> & ->);
        [rewrite R1x; ring | rewrite R2x; ring | rewrite R3x; ring |].
      destruct (line_zero x1 y1 x2 y2 x3 y3 d e f H123) as (-> & -> & ->);
        [rewrite R1y; ring | rewrite R2y; ring | rewrite R3y; ring |].
      reflexivity.
Qed.

(** What a computed transform is: eight entries that solve the system of
    the correspondences, and the entry 1. *)
Lemma get_perspective_transform1_Some (src dst : list point) (h : list Qc) :
  get_perspective_transform1 src dst = Some h ->
  length src = 4%nat /\ length dst = 4%nat
  /\ exists x, h = x ++ [1] /\ length x = 8%nat
               /\ satisfies (perspective_system src dst) x
               /\ forall y, length y = 8%nat ->
                            satisfies (perspective_system src dst) y -> y = x.
Proof.
  unfold get_perspective_transform1.
  destruct (Nat.eqb_spec (length src) 4) as [Hs|]; [|discriminate].
  destruct (Nat.eqb_spec (length dst) 4) as [Hd|]; [|discriminate].
  cbn [andb].
  destruct (solve 8 (perspective_system src dst)) as [x|] eqn:Es; [|discriminate].
  intros H. injection H as <-.
  destruct (solve_sound 8 _ x (perspective_system_width src dst)
                        (perspective_system_length src dst Hs Hd) Es)
    as (Hx & Hsat & Huniq).
  repeat split; try assumption. exists x. repeat split; assumption.
Qed.

(** The computed transform takes every source point to a multiple of its
    destination point, in homogeneous coordinates. *)
Lemma transform_homogeneous (src dst : list point) (h : list Qc) :
  get_perspective_transform1 src dst = Some h ->
  forall i p q,
    nth_error src i = Some p -> nth_error dst i = Some q ->
    fst (fst (homogeneous h p)) = snd (homogeneous h p) * fst q
    /\ snd (fst (homogeneous h p)) = snd (homogeneous h p) * snd q.
Proof.
  intros Hh. destruct (get_perspective_transform1_Some _ _ _ Hh)
    as (Hs & Hd & x & -> & Hx & Hsat & _).
  destruct src as [|[x1 y1] [|[x2 y2] [|[x3 y3] [|[x4 y4] [|? ?]]]]];
    try discriminate.
  destruct dst as [|[u1 v1] [|[u2 v2] [|[u3 v3] [|[u4 v4] [|? ?]]]]];
    try discriminate.
  destruct x as [|a [|b [|c [|d [|e [|f [|g [|k [|? ?]]]]]]]]]; try discriminate.
  unfold satisfies in Hsat. cbn [perspective_system] in Hsat.
  repeat rewrite Forall_cons_iff in Hsat.
  cbn [fst snd build_perspective_param_x build_perspective_param_y dot] in Hsat.
  destruct Hsat as (R1x & R1y & R2x & R2y & R3x & R3y & R4x & R4y & _).
  intros i p q Hp Hq.
  destruct i as [|[|[|[|i]]]]; cbn in Hp, Hq;
    try (destruct i; discriminate);
    injection Hp as <-; injection Hq as <-;
    cbn [homogeneous app firstn skipn dot fst snd]; split.
  all: match goal with
       | |- _ = _ * ?u =>
           match goal with
           | R : ?f = u |- ?l = ?r =>
               transitivity (r + (f - u)); [ring|rewrite R; ring]
           end
       end.
Qed.

Lemma transform_point_Some (h : list Qc) (p q : point) :
  fst (fst (homogeneous h p)) = snd (homogeneous h p) * fst q ->
  snd (fst (homogeneous h p)) = snd (homogeneous h p) * snd q ->
  snd (homogeneous h p) <> 0 ->
  transform_point h p = Some q.
Proof.
  unfold transform_point. destruct (homogeneous h p) as [[u v] w].
  cbn [fst snd]. intros -> -> Hw.
  rewrite (proj2 (Qc_is_zero_false w) Hw). destruct q as [qx qy]. cbn [fst snd].
  f_equal. f_equal; field; assumption.
Qed.

Lemma general_position_length (ps : list point) :
  general_position ps -> length ps = 4%nat.
Proof.
  destruct ps as [|? [|? [|? [|? [|? ?]]]]]; try contradiction. reflexivity.
Qed.

Lemma identity_satisfies (ps : list point) :
  satisfies (perspective_system ps ps) [1; 0; 0; 0; 1; 0; 0; 0].
Proof.
  unfold satisfies. induction ps as [|[x y] ps IH]; [constructor|].
  cbn [perspective_system]. constructor; [|constructor; [|exact IH]];
    cbn [fst snd build_perspective_param_x build_perspective_param_y dot]; ring.
Qed.

(** Four points in general position mapped to themselves: the solve
    succeeds and the transform is the identity. *)
Lemma get_perspective_transform1_identity (ps : list point) :
  general_position ps -> get_perspective_transform1 ps ps = Some eye3.
Proof.
  intros Hgp. pose proof (general_position_length ps Hgp) as Hlen.
  unfold get_perspective_transform1. rewrite Hlen. cbn [Nat.eqb andb].
  destruct (solve 8 (perspective_system ps ps)) as [x|] eqn:Es.
  - destruct (solve_sound 8 _ x (perspective_system_width ps ps)
                          (perspective_system_length ps ps Hlen Hlen) Es)
      as (_ & _ & Huniq).
    rewrite <- (Huniq [1; 0; 0; 0; 1; 0; 0; 0] eq_refl (identity_satisfies ps)).
    reflexivity.
  - destruct (solve_None_singular 8 _ (perspective_system_width ps ps)
                          (perspective_system_length ps ps Hlen Hlen) Es)
      as (v & Hv & Hnz & Hann).
    exfalso. apply Hnz. apply (identity_system_regular ps); assumption.
Qed.

Lemma displace_zero (ps : list point) :
  displace ps (repeat (0, 0) (length ps)) = ps.
Proof.
  induction ps as [|[x y] ps IH]; [reflexivity|].
  cbn [length repeat displace]. rewrite IH. unfold padd. cbn [fst snd].
  f_equal. f_equal; ring.
Qed.

(** *** Batches of points *)

Lemma transforms_identity (qs : list (list point)) :
  Forall general_position qs ->
  transforms qs qs = Some (concat (repeat eye3 (length qs))).
Proof.
  induction 1 as [|q qs Hq _ IH]; [reflexivity|].
  cbn [transforms]. rewrite get_perspective_transform1_identity, IH by assumption.
  reflexivity.
Qed.

Lemma quads_length (b : nat) :
  forall data, length data = (8 * b)%nat -> length (quads data) = b.
Proof.
  induction b as [|b IH]; intros data Hd.
  - destruct data; [reflexivity|discriminate].
  - destruct data as [|? [|? [|? [|? [|? [|? [|? [|? data]]]]]]]];
      cbn in Hd; try lia.
    cbn [quads length]. f_equal. apply IH. cbn in Hd. lia.
Qed.

Lemma map2_plus_zero (x : list Qc) :
  map2 Qcplus x (repeat 0 (length x)) = x.
Proof.
  induction x as [|a x IH]; [reflexivity|].
  cbn [length repeat map2]. rewrite IH. f_equal. ring.
Qed.

Lemma tadd_zeros (t : tensor) :
  tensor_wf t -> tadd t (zeros (tshape t)) = Some t.
Proof.
  intros Hwf. unfold tadd, tzip, zeros. cbn [tshape tdata].
  rewrite shape_eqb_refl. unfold tensor_wf in Hwf. rewrite <- Hwf, Nat2N.id.
  rewrite map2_plus_zero. destruct t; reflexivity.
Qed.

(** On a batch of samples in general position and no displacement, the
    transforms are identities. *)
Lemma get_perspective_transform_identity (pts : tensor) (b : N) :
  tshape pts = [b; 4; 2]%N -> tensor_wf pts ->
  Forall general_position (quads (tdata pts)) ->
  get_perspective_transform pts pts = Some (identity_transforms b).
Proof.
  intros Hs Hwf Hgp. unfold get_perspective_transform. rewrite Hs.
  unfold tensor_wf in Hwf. rewrite Hs in Hwf. cbn [numel fold_right] in Hwf.
  assert (Hlen : length (tdata pts) = (8 * N.to_nat b)%nat) by lia.
  rewrite N.eqb_refl, Hlen, Nat.eqb_refl. cbn [andb].
  rewrite transforms_identity by assumption.
  rewrite (quads_length (N.to_nat b)) by assumption. reflexivity.
Qed.

(** ** The photometric loss *)

Lemma map2_length (f : Qc -> Qc -> Qc) (x y : list Qc) :
  length (map2 f x y) = Nat.min (length x) (length y).
Proof.
  revert y. induction x as [|a x IH]; intros [|b y]; try reflexivity.
  cbn. f_equal. apply IH.
Qed.

Lemma destination_points_map2 (p d : list Qc) :
  destination_points p d = map2 Qcplus p d.
Proof.
  revert d. induction p as [|a p IH]; intros [|b d]; try reflexivity.
  cbn. f_equal. apply IH.
Qed.

Lemma sum_abs_diff_map2 (x y : list Qc) :
  sum_abs_diff x y = sum (map Qcabs (map2 Qcminus x y)).
Proof.
  revert y. induction x as [|a x IH]; intros [|b y]; try reflexivity.
  cbn [sum_abs_diff map2 map]. rewrite IH. reflexivity.
Qed.

Lemma sum_abs_nonneg (l : list Qc) : 0 <= sum (map Qcabs l).
Proof.
  induction l as [|a l IH]; [apply Qcle_refl|].
  change (0 <= Qcabs a + sum (map Qcabs l)).
  replace 0 with (0 + 0) by ring.
  apply Qcplus_le_compat; [apply Qcabs_nonneg|exact IH].
Qed.

Lemma Qc_of_nat_pos (k : nat) : k <> O -> 0 < Qc_of_nat k.
Proof.
  intros Hk. unfold Qclt, Qc_of_nat. cbn [this Q2Qc].
  rewrite !Qred_correct. unfold Qlt, inject_Z. cbn. lia.
Qed.

Lemma Qcdiv_nonneg (s d : Qc) : 0 <= s -> 0 < d -> 0 <= s / d.
Proof.
  intros Hs Hd. apply (Qcmult_lt_0_le_reg_r _ _ d Hd).
  replace (0 * d) with 0 by ring.
  replace (s / d * d) with s; [exact Hs|].
  field. intros H. rewrite H in Hd. exact (Qclt_not_le _ _ Hd (Qcle_refl 0)).
Qed.

Lemma tmean_abs_nonneg (t : tensor) (l : Qc) : tmean (tabs t) = Some l -> 0 <= l.
Proof.
  unfold tmean, tabs. cbn [tdata].
  destruct (map Qcabs (tdata t)) as [|a m] eqn:Em; [discriminate|].
  intros H. injection H as <-.
  apply Qcdiv_nonneg; [|apply Qc_of_nat_pos; discriminate].
  pose proof (sum_abs_nonneg (tdata t)) as Hn. rewrite Em in Hn. exact Hn.
Qed.

Lemma map2_minus_self (x : list Qc) :
  map Qcabs (map2 Qcminus x x) = repeat 0 (length x).
Proof.
  induction x as [|a x IH]; [reflexivity|].
  cbn [map2 map length repeat]. rewrite IH. f_equal.
  replace (a - a) with 0 by ring. apply Qcabs_pos, Qcle_refl.
Qed.

Lemma sum_zeros (k : nat) : sum (repeat 0 k) = 0.
Proof.
  induction k as [|k IH]; [reflexivity|].
  change (0 + sum (repeat 0 k) = 0). rewrite IH. ring.
Qed.

Section LossFacts.
Context {K : Kornia}.

(** Where the displacement has the shape of the points and the second
    image is 256 x 256 with the batch and the channels of the first, the
    loss of the script is the loss of the specification. *)
Lemma photometric_loss_refines `{!KorniaSpec K}
      (delta img_a img_b points : tensor) (b c hi wi : N) :
  tshape delta = tshape points ->
  tshape img_a = [b; c; hi; wi] ->
  tshape img_b = [b; c; 256; 256]%N ->
  tensor_wf img_b ->
  photometric_loss delta img_a img_b points
  = photometric_loss_spec delta img_a img_b points.
Proof.
  intros Hd Ha Hb Hwf.
  unfold photometric_loss, photometric_loss_spec, tadd, tzip, resolution.
  rewrite Hd, shape_eqb_refl, destination_points_map2, <- Hd, Hb.
  destruct (get_perspective_transform points _) as [h|]; [|reflexivity].
  destruct (warp_perspective img_a h (256, 256)%N) as [w|] eqn:Ew;
    [|reflexivity].
  destruct (warp_shape _ _ _ _ Ew) as (b' & c' & hi' & wi' & Ha' & Hw & Hwfw).
  rewrite Ha in Ha'. injection Ha' as <- <- _ _. cbn [fst snd] in Hw.
  unfold tsub, tzip. rewrite Hw, Hb, shape_eqb_refl.
  unfold tmean, tabs. cbn [tdata tshape].
  assert (Hlen : length (tdata w) = length (tdata img_b)).
  { unfold tensor_wf in Hwf, Hwfw. rewrite Hw in Hwfw. rewrite Hb in Hwf. lia. }
  rewrite sum_abs_diff_map2. revert Hlen.
  generalize (tdata w) (tdata img_b). intros wd bd Hlen.
  destruct bd as [|y ys]; destruct wd as [|x xs]; try discriminate Hlen;
    [reflexivity|].
  cbn [map2 map length]. rewrite length_map, map2_length.
  injection Hlen as Hlen. rewrite Hlen, Nat.min_id. reflexivity.
Qed.

(** A loss that has a value went through the steps of the script: the
    displaced points, the transforms, the first image warped to
    256 x 256 with its batch and channels, and the mean of the absolute
    differences to the second image. *)
Lemma photometric_loss_steps `{!KorniaSpec K}
      (delta img_a img_b points : tensor) (l : Qc) :
  photometric_loss delta img_a img_b points = Some l ->
  exists points_hat h warped d b c hi wi,
    tadd points delta = Some points_hat
    /\ get_perspective_transform points points_hat = Some h
    /\ warp_perspective img_a h (256, 256)%N = Some warped
    /\ tshape img_a = [b; c; hi; wi]
    /\ tshape warped = [b; c; 256; 256]%N
    /\ tsub warped img_b = Some d
    /\ tmean (tabs d) = Some l.
Proof.
  unfold photometric_loss.
  destruct (tadd points delta) as [ph|] eqn:Ep; [|discriminate].
  destruct (get_perspective_transform points ph) as [h|] eqn:Eh; [|discriminate].
  destruct (warp_perspective img_a h (256, 256)%N) as [w|] eqn:Ew; [|discriminate].
  destruct (warp_shape _ _ _ _ Ew) as (b & c & hi & wi & Ha & Hw & _).
  destruct (tsub w img_b) as [d|] eqn:Ed; [|discriminate].
  intros Hl. exists ph, h, w, d, b, c, hi, wi.
  split; [reflexivity|]. split; [exact Eh|]. split; [exact Ew|].
  split; [exact Ha|]. split; [exact Hw|]. split; [exact Ed|exact Hl].
Qed.

Lemma photometric_loss_nonneg (delta img_a img_b points : tensor) (l : Qc) :
  photometric_loss delta img_a img_b points = Some l -> 0 <= l.
Proof.
  unfold photometric_loss.
  destruct (tadd points delta) as [ph|]; [|discriminate].
  destruct (get_perspective_transform points ph) as [h|]; [|discriminate].
  destruct (warp_perspective img_a h (256, 256)%N) as [w|]; [|discriminate].
  destruct (tsub w img_b) as [d|]; [|discriminate].
  apply tmean_abs_nonneg.
Qed.

(** The loss has a value whenever the transform is solved, the warp
    answers and the warped and the second image are of one shape and not
    empty. *)
Lemma photometric_loss_defined (delta img_a img_b points ph h w : tensor) :
  tadd points delta = Some ph ->
  get_perspective_transform points ph = Some h ->
  warp_perspective img_a h (256, 256)%N = Some w ->
  tshape w = tshape img_b -> tdata w <> [] -> tdata img_b <> [] ->
  exists l, photometric_loss delta img_a img_b points = Some l.
Proof.
  intros Hp Hh Hw Hs Hwd Hbd. unfold photometric_loss.
  rewrite Hp, Hh, Hw. unfold tsub, tzip. rewrite Hs, shape_eqb_refl.
  unfold tmean, tabs. cbn [tdata].
  destruct (tdata w) as [|a x]; [congruence|].
  destruct (tdata img_b) as [|b y]; [congruence|].
  cbn [map2 map]. eexists. reflexivity.
Qed.

(** A warp that gives the second image: no loss. *)
Lemma photometric_loss_same (delta img_a img_b points ph h : tensor) :
  tadd points delta = Some ph ->
  get_perspective_transform points ph = Some h ->
  warp_perspective img_a h (256, 256)%N = Some img_b ->
  tdata img_b <> [] ->
  photometric_loss delta img_a img_b points = Some 0.
Proof.
  intros Hp Hh Hw Hne. unfold photometric_loss.
  rewrite Hp, Hh, Hw.
  unfold tsub, tzip. rewrite shape_eqb_refl.
  unfold tmean, tabs. cbn [tdata]. rewrite map2_minus_self.
  destruct (tdata img_b) as [|a x]; [congruence|].
  cbn [length repeat]. f_equal.
  change (0 :: repeat 0 (length x)) with (repeat 0 (S (length x))).
  rewrite sum_zeros. unfold Qcdiv. ring.
Qed.
End LossFacts.

(** ** The training loop *)

Section LoopFacts.
Context {K : Kornia} {T : Torch}.

(** One iteration of the validation loop: one forward pass in the
    mode of the module is recorded, nothing else changes. *)
Lemma valid_batch_run (total : Qc) (b : batch) (w : world) :
  training (model w) = false ->
  valid_batch total b w =
  (log w [EvForward false (grad_enabled w)],
   match batch_loss (model w) b with
   | Ok (loss, n) => Ok (total + loss * Qc_of_N n)
   | Raise e => Raise e
   end).
Proof.
  intros Hm. destruct w as [[p bf tr g] o ge t]. cbn in Hm. subst tr.
  unfold valid_batch, batch_loss, model_call, bind, get_model, is_grad_enabled,
    emit, torch, index, ret, raise, log. cbn.
  destruct (net_forward false p bf (patch_a b) (patch_b b)); [|reflexivity].
  cbn. destruct (photometric_loss t0 (img_a b) (img_b b) (points b)); [|reflexivity].
  cbn. destruct (size0 (img_a b)); reflexivity.
Qed.

Lemma train_batch_run (total : Qc) (b : batch) (w : world) :
  training (model w) = true -> grad_enabled w = true ->
  match batch_loss (model w) b with
  | Ok (loss, n) =>
      train_batch total b w = (trained w b loss, Ok (total + loss * Qc_of_N n))
  | Raise e =>
      exists w', train_batch total b w = (w', Raise e)
                 /\ trace w' = trace w ++ [EvForward true true]
                 /\ grad (model w') = grad (model w)
                 /\ training (model w') = true
                 /\ grad_enabled w' = true
  end.
Proof.
  intros Hm Hg. destruct w as [[p bf tr g] o ge t]. cbn in Hm, Hg. subst tr ge.
  unfold train_batch, batch_loss, trained, model_call, backward, optimizer_step,
    add_scalar, flush, bind, get_model, is_grad_enabled, set_model, emit, torch,
    index, ret, raise.
  cbn.
  destruct (net_forward true p bf (patch_a b) (patch_b b)); cbn.
  2:{ eexists; repeat split. }
  destruct (photometric_loss t0 (img_a b) (img_b b) (points b)); cbn.
  2:{ eexists; repeat split. }
  destruct (size0 (img_a b)); cbn.
  2:{ eexists; repeat split. }
  destruct (adam_step o p (grad_add g (autograd p b))) as [o' p'].
  cbn. rewrite <- !app_assoc. reflexivity.
Qed.

(** Where autograd does not record, an iteration of the training loop
    raises, at the latest in its backward pass. *)
Lemma train_batch_untracked (total : Qc) (b : batch) (w : world) :
  training (model w) = true -> grad_enabled w = false ->
  exists w' e, train_batch total b w = (w', Raise e)
               /\ trace w' = trace w ++ [EvForward true false]
               /\ grad (model w') = grad (model w)
               /\ training (model w') = true
               /\ grad_enabled w' = false.
Proof.
  intros Hm Hg. destruct w as [[p bf tr g] o ge t]. cbn in Hm, Hg. subst tr ge.
  unfold train_batch, model_call, backward, bind, get_model, is_grad_enabled,
    set_model, emit, torch, index, ret, raise.
  cbn.
  destruct (net_forward true p bf (patch_a b) (patch_b b)); cbn.
  2:{ eexists _, _; repeat split. }
  destruct (photometric_loss t0 (img_a b) (img_b b) (points b)); cbn.
  2:{ eexists _, _; repeat split. }
  destruct (size0 (img_a b)); cbn; eexists _, _; repeat split.
Qed.

Lemma for_each_cons {A S} (a : A) (l : list A) (s : S) (body : S -> A -> M S)
      (w : world) :
  for_each (a :: l) s body w =
  match body s a w with
  | (w', Ok s') => for_each l s' body w'
  | (w', Raise e) => (w', Raise e)
  end.
Proof. reflexivity. Qed.

Lemma trained_model (w : world) (b : batch) (loss : Qc) :
  training (model (trained w b loss)) = true
  /\ grad_enabled (trained w b loss) = grad_enabled w
  /\ grad (model (trained w b loss))
     = grad_add (grad (model w)) (autograd (params (model w)) b)
  /\ trace (trained w b loss)
     = trace w ++ [EvForward true true;
                   EvBackward (grad (model w)) (autograd (params (model w)) b);
                   EvOptimizerStep; EvAddScalar "train_loss" loss None; EvFlush].
Proof.
  unfold trained.
  destruct (adam_step _ _ _) as [o p]. cbn. auto.
Qed.

(** The validation loop: as many forward passes in evaluation mode as
    batches were started, module and optimizer as before. *)
Lemma valid_loop (bs : list batch) :
  forall (total : Qc) (w w' : world) (r : result Qc),
    training (model w) = false ->
    for_each bs total valid_batch w = (w', r) ->
    model w' = model w /\ optimizer w' = optimizer w
    /\ grad_enabled w' = grad_enabled w
    /\ exists k, trace w' = trace w
                            ++ repeat (EvForward false (grad_enabled w)) k
         /\ (k <= length bs)%nat
         /\ forall v, r = Ok v ->
              k = length bs
              /\ exists lns,
                   Forall2 (fun b ln => batch_loss (model w) b = Ok ln) bs lns
                   /\ v = total + weighted_total lns.
Proof.
  induction bs as [|b bs IH]; intros total w w' r Hm Hrun.
  - cbn in Hrun. injection Hrun as <- <-. repeat split.
    exists 0%nat. cbn. rewrite app_nil_r. repeat split; [lia|].
    exists []. split; [constructor|]. injection H as <-. cbn. ring.
  - rewrite for_each_cons, valid_batch_run in Hrun by assumption.
    destruct (batch_loss (model w) b) as [[loss n]|e] eqn:Hb.
    + apply IH in Hrun; [|assumption].
      destruct Hrun as (Hmod & Hopt & Hge & k & Htr & Hk & Hok).
      cbn in Hmod, Hopt, Hge, Htr. repeat split; try assumption.
      exists (S k). split; [|split].
      * rewrite Htr, <- app_assoc. reflexivity.
      * cbn. lia.
      * intros v Hv. destruct (Hok v Hv) as (-> & lns & Hall & ->).
        split; [reflexivity|].
        exists ((loss, n) :: lns). split.
        -- constructor; assumption.
        -- cbn. ring.
    + injection Hrun as <- <-. repeat split.
      exists 1%nat. repeat split; [cbn; lia|discriminate|discriminate].
Qed.

(** The training loop. *)
Lemma train_loop (bs : list batch) :
  forall (total : Qc) (w w' : world) (r : result Qc),
    training (model w) = true ->
    for_each bs total train_batch w = (w', r) ->
    training (model w') = true
    /\ grad_enabled w' = grad_enabled w
    /\ exists tr,
         trace w' = trace w ++ tr
         /\ accumulates (grad (model w)) (backwards tr) (grad (model w'))
         /\ Forall (fun s => fst s = ("train_loss"%string, snd (fst s)) /\ snd s = None)
                   (scalars tr)
         /\ saves tr = []
         /\ (exists k, marks tr = repeat TrainBatch k /\ (k <= length bs)%nat
                       /\ forall v, r = Ok v -> k = length bs)
         /\ forall v, r = Ok v ->
              length (backwards tr) = length bs
              /\ length (scalars tr) = length bs
              /\ v = total
                     + weighted_total
                         (combine (map (fun s => snd (fst s)) (scalars tr))
                                  (map batch_size bs)).
Proof.
  induction bs as [|b bs IH]; intros total w w' r Hm Hrun.
  - cbn in Hrun. injection Hrun as <- <-. split; [assumption|].
    split; [reflexivity|].
    exists []. rewrite app_nil_r. cbn. repeat split; try constructor.
    + exists 0%nat. cbn. repeat split. lia.
    + injection H as <-. ring.
  - rewrite for_each_cons in Hrun.
    destruct (grad_enabled w) eqn:Eg.
    + pose proof (train_batch_run total b w Hm Eg) as Hstep.
      destruct (batch_loss (model w) b) as [[loss n]|e] eqn:Hb.
      * rewrite Hstep in Hrun.
        destruct (trained_model w b loss) as (Htm & Hte & Htg & Htt).
        apply IH in Hrun; [|assumption].
        destruct Hrun
          as (Hmod & Hge & tr & Htr & Hacc & Hsc & Hsv & (k & Hk & Hkl & Hkok) & Hok).
        split; [assumption|]. split; [congruence|].
        exists ([EvForward true true;
                 EvBackward (grad (model w)) (autograd (params (model w)) b);
                 EvOptimizerStep; EvAddScalar "train_loss" loss None; EvFlush]
                  ++ tr).
        split; [rewrite Htr, Htt, <- app_assoc; reflexivity|].
        split; [cbn; split; [reflexivity|rewrite <- Htg; exact Hacc]|].
        split; [cbn; constructor; [split; reflexivity|exact Hsc]|].
        split; [cbn; exact Hsv|].
        split.
        -- exists (S k). unfold marks in *. cbn. rewrite Hk.
           repeat split; [lia|].
           intros v Hv. rewrite (Hkok v Hv). reflexivity.
        -- intros v Hv. destruct (Hok v Hv) as (Hlb & Hls & ->).
           unfold backwards, scalars in *. cbn. rewrite Hlb, Hls. repeat split.
           assert (Hn : batch_size b = n).
           { unfold batch_size. unfold batch_loss in Hb.
             destruct (net_forward _ _ _ _ _); [|discriminate].
             destruct (photometric_loss _ _ _ _); [|discriminate].
             destruct (size0 (img_a b)); [|discriminate]. congruence. }
           rewrite Hn. ring.
      * destruct Hstep as (w1 & Hw1 & Htr & Hg & Ht & He).
        rewrite Hw1 in Hrun. injection Hrun as <- <-.
        split; [assumption|]. split; [assumption|].
        exists [EvForward true true]. split; [assumption|].
        cbn. rewrite Hg. repeat split; try constructor.
        -- exists 1%nat. cbn. repeat split; [lia|discriminate].
        -- discriminate.
        -- discriminate.
        -- discriminate.
    + destruct (train_batch_untracked total b w Hm Eg)
        as (w1 & e & Hw1 & Htr & Hg & Ht & He).
      rewrite Hw1 in Hrun. injection Hrun as <- <-.
      split; [assumption|]. split; [assumption|].
      exists [EvForward true false]. split; [assumption|].
      cbn. rewrite Hg. repeat split; try constructor.
      * exists 1%nat. cbn. repeat split; [lia|discriminate].
      * discriminate.
      * discriminate.
      * discriminate.
Qed.

Lemma set_training_run (mode : bool) (w : world) :
  set_training mode w
  = (mkWorld (in_mode mode (model w)) (optimizer w) (grad_enabled w) (trace w),
     Ok tt).
Proof. reflexivity. Qed.

Lemma train_step_run (dl : DataLoader) (w : world) :
  train_step dl w =
  match for_each (batches dl) 0 train_batch
                 (mkWorld (in_mode true (model w)) (optimizer w)
                          (grad_enabled w) (trace w)) with
  | (w', Ok total) => divide total (dataset_len dl) w'
  | (w', Raise e) => (w', Raise e)
  end.
Proof. reflexivity. Qed.

Lemma valid_step_run (dl : DataLoader) (w : world) :
  valid_step dl w =
  match for_each (batches dl) 0 valid_batch
                 (mkWorld (in_mode false (model w)) (optimizer w)
                          false (trace w)) with
  | (w', r) =>
      (mkWorld (model w') (optimizer w') (grad_enabled w) (trace w'),
       match r with
       | Ok total =>
           match dataset_len dl with
           | O => Raise ZeroDivisionError
           | S _ => Ok (total / Qc_of_nat (dataset_len dl))
           end
       | Raise e => Raise e
       end)
  end.
Proof.
  unfold valid_step, bind, no_grad. rewrite set_training_run.
  cbn [model optimizer grad_enabled trace].
  destruct (for_each (batches dl) 0 valid_batch _) as [w1 [total|e]];
    [|reflexivity].
  unfold divide. destruct (dataset_len dl); reflexivity.
Qed.

Lemma divide_run (total : Qc) (size : nat) (w : world) :
  divide total size w =
  (w, match size with
      | O => Raise ZeroDivisionError
      | S _ => Ok (total / Qc_of_nat size)
      end).
Proof. destruct size; reflexivity. Qed.

Lemma returns_Ok {A} (r : result A) :
  returns r = true -> exists v, r = Ok v.
Proof. destruct r; [eauto|discriminate]. Qed.

(** [valid_step] as a whole. *)
Lemma valid_step_spec (dl : DataLoader) (w : world) :
  let w' := fst (valid_step dl w) in
  let r := snd (valid_step dl w) in
  model w' = in_mode false (model w) /\ optimizer w' = optimizer w
  /\ grad_enabled w' = grad_enabled w
  /\ (exists k, trace w' = trace w ++ repeat (EvForward false false) k
                /\ (k <= length (batches dl))%nat
                /\ (returns r = true -> k = length (batches dl)))
  /\ (returns r = true ->
      dataset_len dl <> O
      /\ exists lns,
           Forall2 (fun b ln => batch_loss (in_mode false (model w)) b = Ok ln)
                   (batches dl) lns
           /\ r = Ok (weighted_total lns / Qc_of_nat (dataset_len dl))).
Proof.
  cbv zeta. rewrite valid_step_run.
  destruct (for_each (batches dl) 0 valid_batch _) as [w1 r1] eqn:Hloop.
  apply valid_loop in Hloop; [|reflexivity].
  destruct Hloop as (Hmod & Hopt & _ & k & Htr & Hk & Hok).
  cbn in Hmod, Hopt, Htr.
  destruct r1 as [total|e].
  - cbn [fst snd model optimizer grad_enabled trace].
    destruct (Hok total eq_refl) as (-> & lns & Hall & ->).
    repeat split; try assumption.
    + exists (length (batches dl)). repeat split; [assumption|lia].
    + destruct (dataset_len dl); [discriminate|congruence].
    + exists lns. split; [assumption|].
      destruct (dataset_len dl); [discriminate|].
      do 2 f_equal. ring.
  - cbn [fst snd model optimizer grad_enabled trace].
    repeat split; try assumption; try discriminate.
    exists k. repeat split; [assumption|assumption|discriminate].
Qed.

(** [train_step] as a whole. *)
Lemma train_step_spec (dl : DataLoader) (w : world) :
  let w' := fst (train_step dl w) in
  let r := snd (train_step dl w) in
  training (model w') = true
  /\ grad_enabled w' = grad_enabled w
  /\ exists tr,
       trace w' = trace w ++ tr
       /\ accumulates (grad (model w)) (backwards tr) (grad (model w'))
       /\ Forall (fun s => fst s = ("train_loss"%string, snd (fst s)) /\ snd s = None)
                 (scalars tr)
       /\ saves tr = []
       /\ (exists k, marks tr = repeat TrainBatch k
                     /\ (k <= length (batches dl))%nat
                     /\ (returns r = true -> k = length (batches dl)))
       /\ (returns r = true ->
           dataset_len dl <> O
           /\ length (backwards tr) = length (batches dl)
           /\ length (scalars tr) = length (batches dl)
           /\ r = Ok (weighted_total
                        (combine (map (fun s => snd (fst s)) (scalars tr))
                                 (map batch_size (batches dl)))
                      / Qc_of_nat (dataset_len dl))).
Proof.
  cbv zeta. rewrite train_step_run.
  destruct (for_each (batches dl) 0 train_batch _) as [w1 r1] eqn:Hloop.
  apply train_loop in Hloop; [|reflexivity].
  destruct Hloop
    as (Hmod & Hge & tr & Htr & Hacc & Hsc & Hsv & (k & Hk & Hkl & Hkok) & Hok).
  cbn in Htr, Hacc, Hge.
  destruct r1 as [total|e].
  - rewrite divide_run. cbn [fst snd]. split; [assumption|].
    split; [assumption|].
    exists tr. repeat split; try assumption.
    + exists k. repeat split; try assumption. intros _. exact (Hkok total eq_refl).
    + destruct (dataset_len dl); [discriminate|congruence].
    + apply (Hok total eq_refl).
    + apply (Hok total eq_refl).
    + destruct (Hok total eq_refl) as (_ & _ & ->).
      destruct (dataset_len dl); [discriminate|].
      do 2 f_equal. ring.
  - cbn [fst snd]. split; [assumption|]. split; [assumption|].
    exists tr. repeat split; try assumption; try discriminate.
    exists k. repeat split; try assumption. discriminate.
Qed.

Lemma for_each_app {A S} (l1 l2 : list A) (body : S -> A -> M S) :
  forall (s : S) (w : world),
    for_each (l1 ++ l2) s body w =
    match for_each l1 s body w with
    | (w', Ok s') => for_each l2 s' body w'
    | (w', Raise e) => (w', Raise e)
    end.
Proof.
  induction l1 as [|a l1 IH]; intros s w; [reflexivity|].
  cbn [app]. rewrite !for_each_cons.
  destruct (body s a w) as [w1 [s1|e]]; [apply IH|reflexivity].
Qed.

Lemma marks_app (t1 t2 : list event) : marks (t1 ++ t2) = marks t1 ++ marks t2.
Proof. apply flat_map_app. Qed.

Lemma saves_app (t1 t2 : list event) : saves (t1 ++ t2) = saves t1 ++ saves t2.
Proof. apply flat_map_app. Qed.

Lemma marks_valid (k : nat) :
  marks (repeat (EvForward false false) k) = repeat ValidBatch k.
Proof. induction k as [|k IH]; [reflexivity|]. cbn. f_equal. exact IH. Qed.

Lemma saves_valid (k : nat) : saves (repeat (EvForward false false) k) = [].
Proof. induction k as [|k IH]; [reflexivity|]. exact IH. Qed.

Section Fit.
Variables (n : nat) (train_pass valid_pass : nat -> list batch).

Let train_loader (e : nat) := mkLoader (train_size n) (train_pass e).
Let valid_loader (e : nat) := mkLoader (valid_size n) (valid_pass e).

Lemma epoch_run (e : nat) (w : world) :
  epoch n train_pass valid_pass tt e w =
  let w1 := fst (train_step (train_loader e) w) in
  match snd (train_step (train_loader e) w) with
  | Raise x => (w1, Raise x)
  | Ok train_loss =>
      let w2 := fst (valid_step (valid_loader e) w1) in
      match snd (valid_step (valid_loader e) w1) with
      | Raise x => (w2, Raise x)
      | Ok valid_loss =>
          (log w2 [EvPrint (epoch_line e train_loss valid_loss);
                   EvSave (checkpoint_path e)
                          (params (model w2), buffers (model w2))],
           Ok tt)
      end
  end.
Proof.
  unfold epoch, bind. fold (train_loader e). fold (valid_loader e).
  destruct (train_step (train_loader e) w) as [w1 [tl|x]]; [|reflexivity].
  cbn [fst snd].
  destruct (valid_step (valid_loader e) w1) as [w2 [vl|x]]; [|reflexivity].
  cbn [fst snd]. unfold print, torch_save, emit, bind, get_model, log. cbn.
  rewrite <- app_assoc. reflexivity.
Qed.

(** A run over the epochs [es ++ [e]] is the run over [es] and then
    the epoch [e]; it returns only if the run over [es] did. *)
Lemma fit_loop_snoc (es : list nat) (e : nat) (w : world) :
  fit_loop n train_pass valid_pass (es ++ [e]) w =
  match fit_loop n train_pass valid_pass es w with
  | (w', Ok _) => epoch n train_pass valid_pass tt e w'
  | (w', Raise x) => (w', Raise x)
  end.
Proof.
  unfold fit_loop. rewrite for_each_app.
  destruct (for_each es tt _ w) as [w1 [[]|x]]; [|reflexivity].
  rewrite for_each_cons.
  destruct (epoch n train_pass valid_pass tt e w1) as [w2 [[]|x]]; reflexivity.
Qed.

Lemma fit_loop_prefix (es1 es2 : list nat) (w : world) :
  returns (snd (fit_loop n train_pass valid_pass (es1 ++ es2) w)) = true ->
  returns (snd (fit_loop n train_pass valid_pass es1 w)) = true.
Proof.
  unfold fit_loop. rewrite for_each_app.
  destruct (for_each es1 tt _ w) as [w1 [[]|x]]; [reflexivity|].
  cbn. discriminate.
Qed.
End Fit.
End LoopFacts.

Section Steps.
Context {K : Kornia} {T : Torch}.

Lemma existsb_update_valid (k : nat) :
  existsb is_update (repeat (EvForward false false) k) = false.
Proof. induction k as [|k IH]; [reflexivity|exact IH]. Qed.

Lemma skipn_app_length {A} (l1 l2 : list A) : skipn (length l1) (l1 ++ l2) = l2.
Proof. induction l1 as [|a l1 IH]; [reflexivity|exact IH]. Qed.

(** The value of one iteration of the validation loop is the loss of the
    batch, whether autograd records or not. *)
Lemma valid_batch_value (total : Qc) (b : batch) (w : world) :
  snd (valid_batch total b w)
  = match batch_loss (model w) b with
    | Ok (loss, n) => Ok (total + loss * Qc_of_N n)
    | Raise e => Raise e
    end.
Proof.
  destruct w as [[p bf tr g] o ge t].
  unfold valid_batch, batch_loss, model_call, bind, get_model, is_grad_enabled,
    set_model, emit, torch, index, ret, raise.
  cbn.
  destruct (net_forward tr p bf (patch_a b) (patch_b b)); [|reflexivity].
  cbn. destruct tr; cbn;
    (destruct (photometric_loss t0 (img_a b) (img_b b) (points b)); [|reflexivity]);
    cbn; (destruct (size0 (img_a b)); reflexivity).
Qed.

(** So is the value of one iteration of the training loop where autograd
    records. *)
Lemma train_batch_value (total : Qc) (b : batch) (w : world) :
  grad_enabled w = true ->
  snd (train_batch total b w)
  = match batch_loss (model w) b with
    | Ok (loss, n) => Ok (total + loss * Qc_of_N n)
    | Raise e => Raise e
    end.
Proof.
  destruct w as [[p bf tr g] o ge t]. cbn [grad_enabled]. intros ->.
  unfold train_batch, batch_loss, model_call, backward, optimizer_step,
    add_scalar, flush, bind, get_model, is_grad_enabled, set_model, emit, torch,
    index, ret, raise.
  cbn.
  destruct (net_forward tr p bf (patch_a b) (patch_b b)); [|reflexivity].
  cbn. destruct tr; cbn;
    (destruct (photometric_loss t0 (img_a b) (img_b b) (points b)); [|reflexivity]);
    cbn; (destruct (size0 (img_a b)); [|reflexivity]); cbn.
  all: destruct (adam_step _ _ _); reflexivity.
Qed.

(** C9.  [valid_step] leaves every parameter of the model as it was,
    and with them the batch-norm statistics, the gradient buffers and the
    state of the optimizer; it only puts the module in evaluation mode.
    What it does is forward passes in that mode with autograd not
    recording, at most one per batch, and recording is afterwards as it
    was before: no backward pass and no optimizer step.  The loss value
    of a batch is computed as in a training step on the same module. *)
Theorem valid_step_leaves_parameters (dl : DataLoader) (w : world) :
  let w' := fst (valid_step dl w) in
  params (model w') = params (model w)
  /\ buffers (model w') = buffers (model w)
  /\ grad (model w') = grad (model w)
  /\ optimizer w' = optimizer w
  /\ training (model w') = false
  /\ grad_enabled w' = grad_enabled w
  /\ (exists k, trace w' = trace w ++ repeat (EvForward false false) k
                /\ (k <= length (batches dl))%nat)
  /\ existsb is_update (skipn (length (trace w)) (trace w')) = false
  /\ (forall total b w0 w1,
        model w1 = model w0 -> grad_enabled w1 = true ->
        snd (valid_batch total b w0) = snd (train_batch total b w1)).
Proof.
  destruct (valid_step_spec dl w) as (Hm & Ho & Hg & (k & Htr & Hk & _) & _).
  cbv zeta. rewrite Hm, Htr. cbn [in_mode params buffers grad training].
  repeat split; try assumption.
  - exists k. split; [reflexivity|assumption].
  - rewrite skipn_app_length. apply existsb_update_valid.
  - intros total b w0 w1 Hw Hge.
    rewrite valid_batch_value, train_batch_value, Hw by assumption. reflexivity.
Qed.

(** C1, as the script has it.  [train_step] never clears the gradient
    buffers: the backward pass of the first batch finds them as they
    were when [train_step] was called, and the backward pass of every
    later batch finds what its predecessor left, the earlier content
    plus the gradient of the earlier batch.  A step that returns has
    made one backward pass per batch. *)
Theorem train_step_accumulates_gradients (dl : DataLoader) (w : world) :
  let w' := fst (train_step dl w) in
  exists tr,
    trace w' = trace w ++ tr
    /\ accumulates (grad (model w)) (backwards tr) (grad (model w'))
    /\ (returns (snd (train_step dl w)) = true ->
        length (backwards tr) = length (batches dl)).
Proof.
  destruct (train_step_spec dl w) as (_ & _ & tr & Htr & Hacc & _ & _ & _ & Hok).
  exists tr. repeat split; try assumption.
  intros Hr. apply (Hok Hr).
Qed.

(** C6, as the script has it.  Every scalar [train_step] gives the
    summary writer has the tag [train_loss] and no step key
    ([global_step] stays [None]); a step that returns has emitted one
    scalar per batch. *)
Theorem train_step_scalars_without_step (dl : DataLoader) (w : world) :
  let w' := fst (train_step dl w) in
  exists tr,
    trace w' = trace w ++ tr
    /\ Forall (fun s => fst (fst s) = "train_loss"%string /\ snd s = None)
              (scalars tr)
    /\ (returns (snd (train_step dl w)) = true ->
        length (scalars tr) = length (batches dl)).
Proof.
  destruct (train_step_spec dl w) as (_ & _ & tr & Htr & _ & Hsc & _ & _ & Hok).
  exists tr. repeat split; try assumption.
  - eapply Forall_impl; [|exact Hsc]. intros [[tag v] s] [H1 H2]. cbn in *.
    split; [congruence|assumption].
  - intros Hr. apply (Hok Hr).
Qed.
End Steps.

(** ** Arithmetic of the split and of the mean *)

(** Rounding a quotient to the nearest integer stays within half a
    divisor of the dividend and not below the quotient rounded down. *)
Lemma round_half_even_div_spec (p d : Z) :
  (0 < d)%Z ->
  (p / d <= round_half_even_div p d
   /\ 2 * (round_half_even_div p d * d - p) <= d
   /\ 2 * (p - round_half_even_div p d * d) <= d)%Z.
Proof.
  intros Hd. unfold round_half_even_div.
  pose proof (Z.div_mod p d ltac:(lia)) as Hdm.
  pose proof (Z.mod_pos_bound p d Hd) as Hr.
  set (q := (p / d)%Z) in *. set (r := (p mod d)%Z) in *.
  destruct (Z.compare_spec (2 * r) d) as [E|E|E].
  - destruct (Z.even q); nia.
  - nia.
  - nia.
Qed.

Lemma pow2_53 : (2 ^ 53 = 9007199254740992)%Z.
Proof. reflexivity. Qed.

Lemma pow2_52 : (2 ^ 52 = 4503599627370496)%Z.
Proof. reflexivity. Qed.

(** The divisor of [round53] on an integer of more than 53 bits. *)
Lemma round53_divisor (p : Z) :
  (2 ^ 53 <= p)%Z ->
  let d := (2 ^ (Z.log2 p - 52))%Z in
  (0 < d /\ d * 2 ^ 52 <= p /\ p < 2 * (d * 2 ^ 52))%Z.
Proof.
  intros Hp. cbv zeta.
  assert (H0 : (0 < p)%Z) by (rewrite pow2_53 in Hp; lia).
  pose proof (Z.log2_spec p H0) as [Hlo Hhi].
  assert (Hl : (53 <= Z.log2 p)%Z).
  { apply Z.log2_le_pow2; [exact H0|exact Hp]. }
  assert (E : (2 ^ Z.log2 p = 2 ^ (Z.log2 p - 52) * 2 ^ 52)%Z).
  { rewrite <- Z.pow_add_r by lia. f_equal. lia. }
  rewrite Z.pow_succ_r in Hhi by lia. rewrite E in Hlo, Hhi.
  split; [apply Z.pow_pos_nonneg; lia|]. split; lia.
Qed.

(** [round53] moves a number by at most one part in [2 ^ 53], and
    leaves an integer below [2 ^ 53] as it is. *)
Lemma round53_bounds (p : Z) :
  (0 <= p)%Z ->
  (p * (2 ^ 53 - 1) <= round53 p * 2 ^ 53 <= p * (2 ^ 53 + 1))%Z.
Proof.
  intros Hp. unfold round53. rewrite !pow2_53.
  destruct (Z.ltb_spec p 9007199254740992) as [Hs|Hs]; [lia|].
  destruct (round53_divisor p ltac:(rewrite pow2_53; exact Hs)) as (Hd & Hlo & _).
  cbv zeta in Hd, Hlo. rewrite pow2_52 in Hlo.
  set (d := (2 ^ (Z.log2 p - 52))%Z) in *.
  destruct (round_half_even_div_spec p d Hd) as (_ & H1 & H2).
  set (m := round_half_even_div p d) in *. lia.
Qed.

Lemma round53_small (p : Z) : (p < 2 ^ 53)%Z -> round53 p = p.
Proof.
  intros Hp. unfold round53.
  destruct (Z.ltb_spec p (2 ^ 53)); [reflexivity|lia].
Qed.

Lemma int_0_8_Z_bounds (n : Z) :
  (0 <= n)%Z ->
  (0 <= int_0_8_Z n)%Z
  /\ (1 <= n -> int_0_8_Z n < n)%Z
  /\ (2 <= n -> 1 <= int_0_8_Z n)%Z.
Proof.
  intros Hn. unfold int_0_8_Z, float_0_8.
  pose proof (round53_bounds n Hn) as [A1 A2].
  set (r1 := round53 n) in *. rewrite pow2_53 in A1, A2.
  assert (Hr1 : (0 <= r1)%Z) by lia.
  pose proof (round53_bounds (3602879701896397 * r1) ltac:(lia)) as [B1 B2].
  set (r2 := round53 (3602879701896397 * r1)) in *. rewrite pow2_53 in B1, B2.
  rewrite pow2_52. split; [|split].
  - apply Z.div_pos; lia.
  - intros H1. apply Z.div_lt_upper_bound; lia.
  - intros H2. apply Z.div_le_lower_bound; lia.
Qed.

(** Up to [2 ^ 50] items the float product has the integer part of the
    exact product. *)
Lemma int_0_8_Z_exact (n : Z) :
  (0 <= n <= 2 ^ 50)%Z -> int_0_8_Z n = (4 * n / 5)%Z.
Proof.
  intros [Hn0 Hn]. assert (E50 : (2 ^ 50 = 1125899906842624)%Z) by reflexivity.
  rewrite E50 in Hn. unfold int_0_8_Z, float_0_8.
  rewrite (round53_small n) by (rewrite pow2_53; lia).
  pose proof (Z.div_mod (4 * n) 5 ltac:(lia)) as Hdm.
  pose proof (Z.mod_pos_bound (4 * n) 5 ltac:(lia)) as Hr.
  set (k := (4 * n / 5)%Z) in *. set (P := (3602879701896397 * n)%Z).
  assert (Hk : (k * 2 ^ 52 <= round53 P < (k + 1) * 2 ^ 52)%Z).
  { rewrite pow2_52. unfold round53. rewrite pow2_53.
    destruct (Z.ltb_spec P 9007199254740992) as [Hs|Hs]; [unfold P; lia|].
    destruct (round53_divisor P ltac:(rewrite pow2_53; exact Hs)) as (Hd & Hlo & _).
    cbv zeta in Hd, Hlo.
    assert (Hl : (Z.log2 P < 102)%Z).
    { apply Z.log2_lt_pow2; [lia|].
      change (2 ^ 102)%Z with 5070602400912917605986812821504%Z. unfold P. lia. }
    assert (Hl53 : (53 <= Z.log2 P)%Z).
    { apply Z.log2_le_pow2; [lia|rewrite pow2_53; exact Hs]. }
    assert (Hc : (2 ^ 52 = 2 ^ (Z.log2 P - 52) * 2 ^ (104 - Z.log2 P))%Z).
    { rewrite <- Z.pow_add_r by lia. f_equal. lia. }
    assert (Hcpos : (0 < 2 ^ (104 - Z.log2 P))%Z)
      by (apply Z.pow_pos_nonneg; lia).
    set (d := (2 ^ (Z.log2 P - 52))%Z) in *.
    set (c := (2 ^ (104 - Z.log2 P))%Z) in *.
    rewrite pow2_52 in Hlo, Hc.
    destruct (round_half_even_div_spec P d Hd) as (Hfl & H1 & H2).
    set (m := round_half_even_div P d) in *.
    split.
    - assert (Hj : (k * c <= P / d)%Z).
      { apply Z.div_le_lower_bound; [exact Hd|]. unfold P. nia. }
      assert (Hm : (k * c <= m)%Z) by lia.
      rewrite Hc. nia.
    - unfold P in *. lia. }
  symmetry. apply Z.div_unique with (r := (round53 P - k * 2 ^ 52)%Z); lia.
Qed.

Lemma train_size_le (n : nat) : (train_size n <= n)%nat.
Proof.
  unfold train_size, int_0_8.
  destruct (int_0_8_Z_bounds (Z.of_nat n) ltac:(lia)) as (H0 & H1 & _).
  destruct n as [|n]; [|lia].
  change (Z.of_nat 0) with 0%Z. vm_compute. lia.
Qed.

Lemma train_size_zero (n : nat) : train_size n = O <-> (n <= 1)%nat.
Proof.
  unfold train_size, int_0_8.
  destruct (int_0_8_Z_bounds (Z.of_nat n) ltac:(lia)) as (H0 & _ & H2).
  split.
  - intros H. destruct (Nat.le_gt_cases n 1) as [|Hn]; [assumption|].
    specialize (H2 ltac:(lia)). lia.
  - intros Hn. destruct n as [|[|n]]; [reflexivity|reflexivity|lia].
Qed.

Lemma valid_size_zero (n : nat) : valid_size n = O <-> n = O.
Proof.
  unfold valid_size, train_size, int_0_8.
  destruct (int_0_8_Z_bounds (Z.of_nat n) ltac:(lia)) as (H0 & H1 & _).
  split; [|intros ->; reflexivity].
  intros H. destruct n as [|n]; [reflexivity|].
  specialize (H1 ltac:(lia)). lia.
Qed.

Lemma valid_size_small (n : nat) : (1 <= n < 5)%nat -> valid_size n = 1%nat.
Proof.
  intros Hn.
  assert (H : (n = 1 \/ n = 2 \/ n = 3 \/ n = 4)%nat) by lia.
  destruct H as [-> | [-> | [-> | ->]]]; reflexivity.
Qed.

Lemma train_size_exact (n : nat) :
  (Z.of_nat n <= 2 ^ 50)%Z -> train_size n = (4 * n / 5)%nat.
Proof.
  intros Hn. unfold train_size, int_0_8.
  rewrite int_0_8_Z_exact by lia.
  change 4%Z with (Z.of_nat 4). change 5%Z with (Z.of_nat 5).
  rewrite <- Nat2Z.inj_mul, <- Nat2Z.inj_div. apply Nat2Z.id.
Qed.





Section Means.
Context {K : Kornia} {T : Torch}.




(** C10, as the script has it.  On a partition of length zero both
    steps raise and return nothing, with [ZeroDivisionError] when the
    loader has no batch; a step that returns had a partition of positive
    length.  The split of [fit] leaves the training partition empty
    exactly when the dataset has at most one item, and the validation
    partition empty only when the dataset is empty: with one to four
    items it has one item. *)
Theorem empty_partition_raises :
  (forall (dl : DataLoader) (w : world),
      dataset_len dl = O ->
      returns (snd (train_step dl w)) = false
      /\ returns (snd (valid_step dl w)) = false
      /\ (batches dl = [] ->
          snd (train_step dl w) = Raise ZeroDivisionError
          /\ snd (valid_step dl w) = Raise ZeroDivisionError))
  /\ (forall (dl : DataLoader) (w : world),
         (returns (snd (train_step dl w)) = true -> (0 < dataset_len dl)%nat)
         /\ (returns (snd (valid_step dl w)) = true -> (0 < dataset_len dl)%nat))
  /\ (forall n : nat, train_size n = O <-> (n <= 1)%nat)
  /\ (forall n : nat, valid_size n = O <-> n = O)
  /\ (forall n : nat, (1 <= n < 5)%nat -> valid_size n = 1%nat).
Proof.
  assert (Hpos : forall (dl : DataLoader) (w : world),
    (returns (snd (train_step dl w)) = true -> (0 < dataset_len dl)%nat)
    /\ (returns (snd (valid_step dl w)) = true -> (0 < dataset_len dl)%nat)).
  { intros dl w. split; intros Hr.
    - destruct (train_step_spec dl w) as (_ & _ & tr & _ & _ & _ & _ & _ & Hok).
      destruct (Hok Hr) as (Hlen & _). lia.
    - destruct (valid_step_spec dl w) as (_ & _ & _ & _ & Hok).
      destruct (Hok Hr) as (Hlen & _). lia. }
  split; [|split; [exact Hpos|split; [|split]]].
  - intros dl w Hlen. destruct (Hpos dl w) as [Ht Hv].
    split; [|split].
    + destruct (returns (snd (train_step dl w))); [|reflexivity].
      specialize (Ht eq_refl). lia.
    + destruct (returns (snd (valid_step dl w))); [|reflexivity].
      specialize (Hv eq_refl). lia.
    + intros Hb. rewrite train_step_run, valid_step_run, Hb, Hlen.
      split; reflexivity.
  - exact train_size_zero.
  - exact valid_size_zero.
  - exact valid_size_small.
Qed.
End Means.

(** ** What [fit] prints and writes *)

Lemma string_length_append (s1 s2 : string) :
  String.length (s1 ++ s2) = (String.length s1 + String.length s2)%nat.
Proof. induction s1 as [|c s1 IH]; cbn; [reflexivity|]. f_equal. exact IH. Qed.

Lemma string_append_inj_r (s x y : string) :
  (x ++ s)%string = (y ++ s)%string -> x = y.
Proof.
  revert y. induction x as [|c x IH]; intros [|d y] H; cbn in H.
  - reflexivity.
  - apply (f_equal String.length) in H. cbn in H.
    rewrite string_length_append in H. lia.
  - apply (f_equal String.length) in H. cbn in H.
    rewrite string_length_append in H. lia.
  - injection H as -> H. f_equal. apply IH. exact H.
Qed.

Lemma str_of_nat_inj (a b : nat) : str_of_nat a = str_of_nat b -> a = b.
Proof.
  unfold str_of_nat. intros H.
  apply (f_equal NilEmpty.uint_of_string) in H. rewrite !NilEmpty.usu in H.
  injection H as H. apply Unsigned.to_uint_inj. exact H.
Qed.

Lemma checkpoint_path_inj : Injective checkpoint_path.
Proof.
  intros a b H. unfold checkpoint_path in H. cbn in H.
  injection H as H. apply string_append_inj_r in H. apply str_of_nat_inj. exact H.
Qed.

Lemma zfill_4_length (k : N) :
  (k < 10000)%N -> String.length (zfill 4 (str_of_N k)) = 4%nat.
Proof.
  intros Hk.
  assert (Hall : forallb (fun i => String.length (zfill 4 (str_of_N (N.of_nat i)))
                                   =? 4)%nat (seq 0 (N.to_nat 10000)) = true)
    by (vm_compute; reflexivity).
  rewrite forallb_forall in Hall. apply Nat.eqb_eq.
  rewrite <- (N2Nat.id k). apply Hall. apply in_seq. lia.
Qed.

Lemma zfill_4_digits (k : N) :
  (k < 10000)%N ->
  exists digits,
    NilEmpty.uint_of_string (zfill 4 (str_of_N k)) = Some digits
    /\ N.of_uint digits = k.
Proof.
  intros Hk.
  assert (Hall : forallb
            (fun i =>
               match NilEmpty.uint_of_string (zfill 4 (str_of_N (N.of_nat i))) with
               | Some digits => (N.of_uint digits =? N.of_nat i)%N
               | None => false
               end) (seq 0 (N.to_nat 10000)) = true)
    by (vm_compute; reflexivity).
  rewrite forallb_forall in Hall.
  specialize (Hall (N.to_nat k) ltac:(apply in_seq; lia)).
  rewrite N2Nat.id in Hall.
  destruct (NilEmpty.uint_of_string (zfill 4 (str_of_N k))) as [digits|];
    [|discriminate].
  exists digits. split; [reflexivity|]. apply N.eqb_eq. exact Hall.
Qed.

Lemma this_Q2Qc (q : Q) : (this (Q2Qc q) == q)%Q.
Proof. apply Qred_correct. Qed.

Lemma this_minus (a b : Qc) : (this (a - b) == this a - this b)%Q.
Proof.
  unfold Qcminus, Qcplus, Qcopp. rewrite !this_Q2Qc. reflexivity.
Qed.

(** Rounding half to even moves a number by at most one half. *)
Lemma round_half_even_near (x : Qc) :
  (inject_Z (round_half_even x) - (1 # 2) <= this x
   /\ this x <= inject_Z (round_half_even x) + (1 # 2))%Q.
Proof.
  unfold round_half_even.
  pose proof (Qfloor_le x) as Hlo. pose proof (Qlt_floor x) as Hhi.
  set (fl := Qfloor x) in *. rewrite inject_Z_plus in Hhi.
  change (inject_Z 1) with 1%Q in Hhi.
  destruct (x - Q2Qc (inject_Z fl) ?= Q2Qc (1 # 2)) eqn:E.
  - apply Qceq_alt in E. apply (f_equal this) in E.
    assert (E' : (this x - inject_Z fl == 1 # 2)%Q).
    { rewrite <- (this_Q2Qc (inject_Z fl)), <- this_minus, E. apply this_Q2Qc. }
    destruct (Z.even fl).
    + lra.
    + rewrite inject_Z_plus. change (inject_Z 1) with 1%Q. lra.
  - apply Qclt_alt in E. unfold Qclt in E.
    rewrite this_minus, !this_Q2Qc in E. lra.
  - apply Qcgt_alt in E. cbv beta in E.
    rewrite this_minus, !this_Q2Qc in E.
    rewrite inject_Z_plus. change (inject_Z 1) with 1%Q. lra.
Qed.

(** Of two integers equally near it takes the even one. *)
Lemma round_half_even_tie (x : Qc) :
  (inject_Z (round_half_even x) - this x == 1 # 2
   \/ this x - inject_Z (round_half_even x) == 1 # 2)%Q ->
  Z.even (round_half_even x) = true.
Proof.
  unfold round_half_even.
  pose proof (Qfloor_le x) as Hlo. pose proof (Qlt_floor x) as Hhi.
  set (fl := Qfloor x) in *. rewrite inject_Z_plus in Hhi.
  change (inject_Z 1) with 1%Q in Hhi.
  destruct (x - Q2Qc (inject_Z fl) ?= Q2Qc (1 # 2)) eqn:E.
  - intros _. destruct (Z.even fl) eqn:Ev; [exact Ev|].
    change (fl + 1)%Z with (Z.succ fl). rewrite Z.even_succ.
    rewrite <- Z.negb_even, Ev. reflexivity.
  - apply Qclt_alt in E. unfold Qclt in E.
    rewrite this_minus, !this_Q2Qc in E. intros [H|H]; exfalso; lra.
  - apply Qcgt_alt in E. cbv beta in E.
    rewrite this_minus, !this_Q2Qc in E.
    rewrite inject_Z_plus. change (inject_Z 1) with 1%Q.
    intros [H|H]; exfalso; lra.
Qed.

Lemma round_half_even_nonneg (x : Qc) : 0 <= x -> (0 <= round_half_even x)%Z.
Proof.
  intros Hx. destruct (round_half_even_near x) as [_ H].
  unfold Qcle in Hx. change (this 0) with 0%Q in Hx.
  assert (Hr : (- (1 # 2) <= inject_Z (round_half_even x))%Q) by lra.
  unfold Qle, inject_Z in Hr. cbn in Hr. lia.
Qed.

Lemma Qcmult_nonneg (a b : Qc) : 0 <= a -> 0 <= b -> 0 <= a * b.
Proof.
  intros Ha Hb. replace 0 with (0 * b) by ring.
  apply Qcmult_le_compat_r; assumption.
Qed.

Lemma N_even_of_Z (z : Z) : (0 <= z)%Z -> N.even (Z.to_N z) = Z.even z.
Proof. destruct z as [|p|p]; intros H; try reflexivity. lia. Qed.

(** What [format_4f] prints is the number shown with four decimal
    places. *)
Lemma format_4f_four_decimals (q : Qc) : four_decimals q (format_4f q).
Proof.
  unfold four_decimals, format_4f.
  set (x := Qcabs q * Q2Qc (inject_Z 10000)).
  assert (Hx : 0 <= x).
  { unfold x. apply Qcmult_nonneg; [apply Qcabs_nonneg|]. discriminate. }
  pose proof (round_half_even_nonneg x Hx) as Hr.
  destruct (round_half_even_near x) as [H1 H2].
  pose proof (round_half_even_tie x) as Htie.
  set (m := Z.to_N (round_half_even x)).
  destruct (zfill_4_digits (m mod 10000)) as (digits & Hd & Hv);
    [apply N.mod_lt; discriminate|].
  exists m, (str_of_N (m / 10000)), (zfill 4 (str_of_N (m mod 10000))), digits.
  change (Qz 10000) with (Q2Qc (inject_Z 10000)). fold x.
  assert (Em : (this (Qc_of_N m - x) == inject_Z (round_half_even x) - this x)%Q).
  { rewrite this_minus. unfold Qc_of_N, m. rewrite this_Q2Qc, Z2N.id by exact Hr.
    reflexivity. }
  split; [|split; [|split; [|split; [|split; [|split]]]]].
  - apply Qcabs_Qcle_condition. unfold Qcle, Qcopp.
    rewrite !this_Q2Qc, Em. split; lra.
  - intros Habs. unfold m. rewrite N_even_of_Z by exact Hr. apply Htie.
    revert Habs.
    apply (Qcabs_case (Qc_of_N m - x)
             (fun y => y = Q2Qc (1 # 2) ->
                       (inject_Z (round_half_even x) - this x == 1 # 2
                        \/ this x - inject_Z (round_half_even x) == 1 # 2)%Q)).
    + intros _ E. apply (f_equal this) in E. left.
      rewrite <- Em, E. apply this_Q2Qc.
    + intros _ E. right.
      assert (E' : (this (- (Qc_of_N m - x)) == 1 # 2)%Q)
        by (rewrite E; apply this_Q2Qc).
      unfold Qcopp in E'. rewrite this_Q2Qc, Em in E'. lra.
  - reflexivity.
  - apply zfill_4_length. apply N.mod_lt. discriminate.
  - exact Hd.
  - exact Hv.
  - f_equal. destruct (Qclt_le_dec q 0) as [Hq|Hq].
    + rewrite (proj1 (Qclt_alt q 0) Hq). reflexivity.
    + destruct (q ?= 0) eqn:E; try reflexivity.
      exfalso. exact (Qclt_not_le _ _ (proj2 (Qclt_alt q 0) E) Hq).
Qed.

Lemma str_of_nat_decimal (e : nat) :
  NilEmpty.uint_of_string (str_of_nat e) = Some (Nat.to_uint e)
  /\ Nat.of_uint (Nat.to_uint e) = e.
Proof.
  split; [apply NilEmpty.usu|apply Unsigned.of_to].
Qed.

Section FitFacts.
Context {K : Kornia} {T : Torch}.
Variables (n : nat) (train_pass valid_pass : nat -> list batch).
Variables (p0 : Params) (b0 : Buffers).

Let train_loader (e : nat) := mkLoader (train_size n) (train_pass e).
Let valid_loader (e : nat) := mkLoader (valid_size n) (valid_pass e).
Let run (epochs : nat) := fit n train_pass valid_pass p0 b0 epochs.

(** [fit] builds its two loaders, which fails on an empty training
    partition, and then goes through the epochs. *)
Lemma run_unfold (epochs : nat) :
  run epochs =
  let w0 := mkWorld (mkModule p0 b0 true grad_zero) (adam_init LR) true [] in
  if (train_size n =? 0)%nat then (w0, Raise ValueError)
  else fit_loop n train_pass valid_pass (seq 0 epochs) w0.
Proof.
  unfold run, fit, bind, new_loader. cbn [andb].
  destruct (train_size n =? 0)%nat; reflexivity.
Qed.

(** A run of [e + 1] epochs is the run of [e] epochs and then epoch [e]. *)
Lemma fit_S (e : nat) :
  run (S e) =
  match run e with
  | (w, Ok _) => epoch n train_pass valid_pass tt e w
  | (w, Raise x) => (w, Raise x)
  end.
Proof.
  rewrite !run_unfold.
  destruct (train_size n =? 0)%nat; [reflexivity|].
  rewrite seq_S. cbn [Nat.add]. apply fit_loop_snoc.
Qed.

Lemma fit_prefix (e epochs : nat) :
  (e <= epochs)%nat -> returns (snd (run epochs)) = true ->
  returns (snd (run e)) = true.
Proof.
  intros He. rewrite !run_unfold.
  destruct (train_size n =? 0)%nat; [discriminate|].
  replace epochs with (e + (epochs - e))%nat by lia.
  rewrite seq_app. apply fit_loop_prefix.
Qed.

(** One epoch of a run that returns. *)
Lemma fit_epoch (e : nat) :
  returns (snd (run (S e))) = true ->
  let w := fst (run e) in
  let w1 := fst (train_step (train_loader e) w) in
  let w2 := fst (valid_step (valid_loader e) w1) in
  exists train_loss valid_loss tr,
    snd (train_step (train_loader e) w) = Ok train_loss
    /\ trace w1 = trace w ++ tr
    /\ marks tr = repeat TrainBatch (length (train_pass e))
    /\ saves tr = []
    /\ snd (valid_step (valid_loader e) w1) = Ok valid_loss
    /\ trace w2 = trace w1 ++ repeat (EvForward false false) (length (valid_pass e))
    /\ run (S e)
       = (log w2 [EvPrint (epoch_line e train_loss valid_loss);
                  EvSave (checkpoint_path e)
                         (params (model w2), buffers (model w2))],
          Ok tt).
Proof.
  intros Hr. cbv zeta.
  rewrite fit_S in Hr |- *.
  destruct (run e) as [w [[]|x]]; [|discriminate Hr]. cbn [fst].
  rewrite epoch_run in Hr |- *. cbv zeta in Hr |- *.
  fold (train_loader e) in Hr |- *. fold (valid_loader e) in Hr |- *.
  destruct (train_step_spec (train_loader e) w)
    as (_ & _ & tr & Htr & _ & _ & Hsv & (k & Hk & _ & Hkok) & _).
  destruct (snd (train_step (train_loader e) w)) as [tl|x] eqn:Et;
    [|discriminate Hr].
  set (w1 := fst (train_step (train_loader e) w)) in *.
  destruct (valid_step_spec (valid_loader e) w1)
    as (_ & _ & _ & (kv & Hv & _ & Hkv) & _).
  destruct (snd (valid_step (valid_loader e) w1)) as [vl|x] eqn:Ev;
    [|discriminate Hr].
  exists tl, vl, tr. repeat split; try assumption.
  - rewrite Hk, (Hkok eq_refl). reflexivity.
  - rewrite Hv, (Hkv eq_refl). reflexivity.
Qed.

Lemma fit_saves (epochs : nat) :
  returns (snd (run epochs)) = true ->
  map fst (saves (trace (fst (run epochs)))) = map checkpoint_path (seq 0 epochs).
Proof.
  induction epochs as [|e IH]; intros Hr.
  { rewrite run_unfold in Hr |- *. cbv zeta in Hr |- *.
    destruct (train_size n =? 0)%nat; [discriminate Hr|reflexivity]. }
  destruct (fit_epoch e Hr) as (tl & vl & tr & _ & Htr & _ & Hsv & _ & Hv & Hrun).
  rewrite Hrun. cbn [fst log trace].
  rewrite Hv, Htr, !saves_app, Hsv, saves_valid, !app_nil_r.
  rewrite map_app, IH by (apply (fit_prefix e (S e)); [lia|assumption]).
  rewrite seq_S, map_app. reflexivity.
Qed.

(** C7.  In a run of [fit] that returns, every epoch [e] below
    [epochs] continues the run of the [e] epochs before it with one
    training pass over all the batches of the training loader, then
    one validation pass over all the batches of the validation loader,
    then the line of [e], the mean training loss [train_step] returned
    and the mean validation loss [valid_step] returned, separated by
    tabs, and then the checkpoint of the parameters and statistics the
    model has at that point, under the name [model_e.pt].  The
    checkpoints of the run are these, one per epoch, under names that
    differ.  In the line the epoch stands as its decimal numeral and
    each loss as the number shown with four decimal places: rounded to
    the nearest ten-thousandth, to the even one of two equally near. *)
Theorem fit_runs_every_epoch (epochs : nat) :
  returns (snd (run epochs)) = true ->
  (forall e, (e < epochs)%nat ->
     let w := fst (run e) in
     let w1 := fst (train_step (train_loader e) w) in
     let w2 := fst (valid_step (valid_loader e) w1) in
     exists train_loss valid_loss tr,
       snd (train_step (train_loader e) w) = Ok train_loss
       /\ trace w1 = trace w ++ tr
       /\ marks tr = repeat TrainBatch (length (train_pass e))
       /\ snd (valid_step (valid_loader e) w1) = Ok valid_loss
       /\ trace w2 = trace w1 ++ repeat (EvForward false false) (length (valid_pass e))
       /\ run (S e)
          = (log w2 [EvPrint (str_of_nat e ++ tab ++ format_4f train_loss
                              ++ tab ++ format_4f valid_loss);
                     EvSave ("model_" ++ str_of_nat e ++ ".pt")
                            (params (model w2), buffers (model w2))],
             Ok tt))
  /\ map fst (saves (trace (fst (run epochs))))
     = map (fun e => ("model_" ++ str_of_nat e ++ ".pt")%string) (seq 0 epochs)
  /\ NoDup (map fst (saves (trace (fst (run epochs)))))
  /\ (forall q : Qc, four_decimals q (format_4f q))
  /\ (forall e : nat,
        NilEmpty.uint_of_string (str_of_nat e) = Some (Nat.to_uint e)
        /\ Nat.of_uint (Nat.to_uint e) = e)
  /\ tab = String (ascii_of_nat 9) EmptyString.
Proof.
  intros Hr. split; [|split; [|split; [|split; [|split]]]].
  - intros e He.
    assert (Hre : returns (snd (run (S e))) = true)
      by (apply (fit_prefix (S e) epochs); [lia|assumption]).
    destruct (fit_epoch e Hre) as (tl & vl & tr & H1 & H2 & H3 & _ & H4 & H5 & H6).
    exists tl, vl, tr. repeat split; assumption.
  - apply fit_saves. exact Hr.
  - rewrite fit_saves by exact Hr.
    apply Injective_map_NoDup; [apply checkpoint_path_inj|apply seq_NoDup].
  - apply format_4f_four_decimals.
  - apply str_of_nat_decimal.
  - reflexivity.
Qed.
End FitFacts.

(** ** The claims on the network and the loss *)

(** C5, as the script has it.  For two patches of one shape
    [n x c x h x w] with [n >= 1], the forward pass of the network returns
    a tensor of shape [(n, 4, 2)] exactly when the patches have one channel
    and a resolution whose halves of halves, five times over, multiply to
    16 (as for 128 x 128); on every other such pair it raises. *)
Theorem Net_forward_shape_n_4_2 (batch_norm training : bool) (n c h w : N) :
  (1 <= n)%N ->
  (c = 1%N /\ (h / 32 * (w / 32) = 16)%N ->
   Net_forward_shape batch_norm training [n; c; h; w] [n; c; h; w]
   = Some [n; 4; 2]%N)
  /\ (~ (c = 1%N /\ (h / 32 * (w / 32) = 16)%N) ->
      Net_forward_shape batch_norm training [n; c; h; w] [n; c; h; w] = None).
Proof.
  intros Hn. rewrite Net_forward_shape_eq by assumption.
  destruct (N.eqb_spec c 1) as [Hc|Hc];
    destruct (N.eqb_spec (h / 32 * (w / 32)) 16) as [Hr|Hr]; cbn [andb];
    split; intros H; try reflexivity; try tauto.
Qed.

(** The patches of the claim that the network refuses: three channels,
    and a resolution of 64 x 64. *)
Lemma Net_forward_refuses_patches :
  Net_forward_shape true true [64; 3; 128; 128]%N [64; 3; 128; 128]%N = None
  /\ Net_forward_shape true true [64; 1; 64; 64]%N [64; 1; 64; 64]%N = None.
Proof. split; vm_compute; reflexivity. Qed.

Lemma Net_forward_shape_n_4_2_witness :
  (1 <= 64)%N
  /\ Net_forward_shape true true [64; 1; 128; 128]%N [64; 1; 128; 128]%N
     = Some [64; 4; 2]%N.
Proof.
  split; [lia|].
  apply (Net_forward_shape_n_4_2 true true 64 1 128 128); [lia|].
  split; reflexivity.
Defined.

(** C4, as the model of the solve has it.  Whenever the transform of
    four source points and their displaced points is computed, it takes
    each source point to its destination point times the third homogeneous
    coordinate [w] of the image, hence exactly onto the destination point
    where [w] is not zero.  With no displacement and no three source
    points on a line the transform is computed and is the identity, for
    one sample and for a batch. *)
Theorem perspective_transform_round_trip :
  (forall (src delta : list point) (h : list Qc),
      get_perspective_transform1 src (displace src delta) = Some h ->
      forall i p q,
        nth_error src i = Some p ->
        nth_error (displace src delta) i = Some q ->
        fst (fst (homogeneous h p)) = snd (homogeneous h p) * fst q
        /\ snd (fst (homogeneous h p)) = snd (homogeneous h p) * snd q
        /\ (snd (homogeneous h p) <> 0 -> transform_point h p = Some q))
  /\ (forall src : list point,
         general_position src ->
         get_perspective_transform1 src (displace src (repeat (0, 0) 4))
         = Some eye3)
  /\ (forall (pts : tensor) (b : N),
         tshape pts = [b; 4; 2]%N -> tensor_wf pts ->
         Forall general_position (quads (tdata pts)) ->
         exists points_hat,
           tadd pts (zeros [b; 4; 2]%N) = Some points_hat
           /\ get_perspective_transform pts points_hat
              = Some (identity_transforms b)).
Proof.
  split; [|split].
  - intros src delta h Hh i p q Hp Hq.
    destruct (transform_homogeneous _ _ _ Hh i p q Hp Hq) as [Hu Hv].
    repeat split; try assumption.
    intros Hw. apply transform_point_Some; assumption.
  - intros src Hgp. rewrite <- (general_position_length src Hgp), displace_zero.
    apply get_perspective_transform1_identity. exact Hgp.
  - intros pts b Hs Hwf Hgp. exists pts. split.
    + rewrite <- Hs. apply tadd_zeros. exact Hwf.
    + apply get_perspective_transform_identity; assumption.
Qed.

(** *** The example engine *)

Lemma option_Qc_eqb_eq (a b : option Qc) : option_Qc_eqb a b = true -> a = b.
Proof.
  destruct a as [x|], b as [y|]; cbn; try discriminate; [|reflexivity].
  intros H. f_equal. apply Qc_eq_bool_correct. exact H.
Qed.

Lemma Qc_neq_by_value (x y : Qc) : Qc_eq_bool x y = false -> x <> y.
Proof.
  intros H E. subst y. unfold Qc_eq_bool in H.
  destruct (Qc_eq_dec x x); [discriminate|congruence].
Qed.

Lemma zeros_wf (s : shape) : tensor_wf (zeros s).
Proof.
  unfold tensor_wf, zeros. cbn [tdata tshape].
  rewrite repeat_length. apply N2Nat.id.
Qed.

Lemma data_eqb_refl (x : list Qc) : data_eqb x x = true.
Proof. unfold data_eqb. destruct (list_eq_dec Qc_eq_dec x x); congruence. Qed.

Lemma example_kornia_spec : KorniaSpec example_kornia.
Proof.
  split.
  intros img h dsize out. cbn [warp_perspective example_kornia].
  unfold example_warp.
  destruct (tshape img) as [|b [|c [|hi [|wi [|? ?]]]]] eqn:Es; try discriminate.
  destruct (N.eqb_spec (N.of_nat (length (tdata img))) (numel [b; c; hi; wi]))
    as [Hwf|]; [|discriminate].
  destruct (shape_eqb (tshape h) [b; 3; 3]%N
            && data_eqb (tdata h) (tdata (identity_transforms b))
            && (hi =? fst dsize)%N && (wi =? snd dsize)%N) eqn:Eid;
    intros H; injection H as <-; exists b, c, hi, wi.
  - apply andb_true_iff in Eid. destruct Eid as [Eid Ew].
    apply andb_true_iff in Eid. destruct Eid as [_ Eh].
    apply N.eqb_eq in Ew, Eh. subst.
    repeat split; try assumption. unfold tensor_wf. rewrite Es. exact Hwf.
  - repeat split; [apply zeros_wf].
Qed.

(** The warp of the example returns its input under identity
    transforms. *)
Lemma example_warp_returns_input (img : tensor) (b c hh ww : N) :
  tshape img = [b; c; hh; ww] -> tensor_wf img ->
  @warp_perspective example_kornia img (identity_transforms b) (hh, ww)
  = Some img.
Proof.
  intros Hs Hwf. cbn [warp_perspective example_kornia].
  unfold example_warp. rewrite Hs. unfold tensor_wf in Hwf. rewrite Hs in Hwf.
  rewrite Hwf, N.eqb_refl. cbn [identity_transforms tshape tdata fst snd].
  rewrite shape_eqb_refl, data_eqb_refl, !N.eqb_refl. reflexivity.
Qed.

Lemma example_quad_general_position : general_position example_quad.
Proof.
  unfold example_quad, general_position, collinear, det3. cbn [fst snd].
  repeat split; apply Qc_neq_by_value; vm_compute; reflexivity.
Qed.

(** The patch corners with the third corner moved by [(128, -128)]: the
    transform is computed and sends the fourth corner to infinity.  The
    patch corners all moved onto the origin: no transform is computed. *)
Lemma round_trip_fails_on_degenerate_destinations :
  general_position example_quad
  /\ ~ maps_onto_destinations example_quad
         [(0, 0); (0, 0); (Qz 128, Qz (-128)); (0, 0)]
  /\ ~ maps_onto_destinations example_quad
         [(Qz (-64), Qz (-64)); (Qz (-192), Qz (-64));
          (Qz (-192), Qz (-192)); (Qz (-64), Qz (-192))].
Proof.
  split; [exact example_quad_general_position|]. split.
  - intros (h & Hh & Hall).
    specialize (Hall 3%nat (Qz 64, Qz 192) (Qz 64, Qz 192) eq_refl).
    vm_compute in Hh. injection Hh as <-.
    assert (Hq : nth_error
                   (displace example_quad
                      [(0, 0); (0, 0); (Qz 128, Qz (-128)); (0, 0)]) 3
                 = Some (Qz 64, Qz 192)).
    { reflexivity. }
    specialize (Hall Hq). vm_compute in Hall. discriminate Hall.
  - intros (h & Hh & _). vm_compute in Hh. discriminate Hh.
Qed.

Lemma perspective_transform_round_trip_witness :
  (exists h,
      get_perspective_transform1 example_quad
        (displace example_quad [(0, 0); (Qz 64, 0); (0, 0); (0, 0)]) = Some h
      /\ transform_point h (Qz 192, Qz 64) = Some (Qz 192 + Qz 64, Qz 64 + 0))
  /\ general_position example_quad
  /\ get_perspective_transform1 example_quad
       (displace example_quad (repeat (0, 0) 4)) = Some eye3.
Proof.
  split; [|split; [exact example_quad_general_position|]].
  - destruct (get_perspective_transform1 example_quad
                (displace example_quad [(0, 0); (Qz 64, 0); (0, 0); (0, 0)]))
      as [h|] eqn:E; [|vm_compute in E; discriminate E].
    exists h. split; [reflexivity|].
    apply (proj1 perspective_transform_round_trip _ _ h E 1%nat
                 (Qz 192, Qz 64) (Qz 192 + Qz 64, Qz 64 + 0) eq_refl eq_refl).
    vm_compute in E. injection E as <-.
    apply Qc_neq_by_value. vm_compute. reflexivity.
  - apply (proj1 (proj2 perspective_transform_round_trip)).
    exact example_quad_general_position.
Defined.

(** *** The loss *)

(** C2, as the script has it.  The script adds the displacement to the
    points, solves for the transforms, warps the first image to the fixed
    size 256 x 256, whatever the resolution of the second image, and
    returns the mean of the absolute differences between the warped and
    the second image.  Where the displacement has the shape of the points
    and the second image is 256 x 256 with the batch and the channels of
    the first, this is the loss of the four steps of the specification,
    whose target size is the resolution of the second image. *)
Theorem photometric_loss_as_specified (K : Kornia) :
  KorniaSpec K ->
  (forall (delta img_a img_b points : tensor) (b c hi wi : N),
      tshape delta = tshape points ->
      tshape img_a = [b; c; hi; wi] ->
      tshape img_b = [b; c; 256; 256]%N ->
      tensor_wf img_b ->
      photometric_loss delta img_a img_b points
      = photometric_loss_spec delta img_a img_b points)
  /\ (forall (delta img_a img_b points : tensor) (l : Qc),
         photometric_loss delta img_a img_b points = Some l ->
         exists points_hat h warped d b c hi wi,
           tadd points delta = Some points_hat
           /\ get_perspective_transform points points_hat = Some h
           /\ warp_perspective img_a h (256, 256)%N = Some warped
           /\ tshape img_a = [b; c; hi; wi]
           /\ tshape warped = [b; c; 256; 256]%N
           /\ tsub warped img_b = Some d
           /\ tmean (tabs d) = Some l).
Proof.
  intros HK. split.
  - intros delta img_a img_b points b c hi wi H1 H2 H3 H4.
    exact (photometric_loss_refines delta img_a img_b points b c hi wi
             H1 H2 H3 H4).
  - intros delta img_a img_b points l Hl.
    exact (photometric_loss_steps _ _ _ _ l Hl).
Qed.

(** C3, as the script has it.  A loss that has a value is not negative,
    and it has a value whenever the transforms are solved, the warp
    answers and the warped and the second image are of one shape and not
    empty.  The loss is exactly zero whenever the warp of the first image
    is the second image, pixel for pixel. *)
Theorem photometric_loss_nonneg_zero (K : Kornia) :
  (forall delta img_a img_b points l,
      photometric_loss delta img_a img_b points = Some l -> 0 <= l)
  /\ (forall delta img_a img_b points points_hat h warped,
         tadd points delta = Some points_hat ->
         get_perspective_transform points points_hat = Some h ->
         warp_perspective img_a h (256, 256)%N = Some warped ->
         tshape warped = tshape img_b ->
         tdata warped <> [] -> tdata img_b <> [] ->
         exists l, photometric_loss delta img_a img_b points = Some l /\ 0 <= l)
  /\ (forall delta img_a img_b points points_hat h,
         tadd points delta = Some points_hat ->
         get_perspective_transform points points_hat = Some h ->
         warp_perspective img_a h (256, 256)%N = Some img_b ->
         tdata img_b <> [] ->
         photometric_loss delta img_a img_b points = Some 0).
Proof.
  split; [|split].
  - intros delta img_a img_b points l. apply photometric_loss_nonneg.
  - intros delta img_a img_b points ph h w H1 H2 H3 H4 H5 H6.
    destruct (photometric_loss_defined delta img_a img_b points ph h w
                H1 H2 H3 H4 H5 H6) as [l Hl].
    exists l. split; [exact Hl|]. exact (photometric_loss_nonneg _ _ _ _ l Hl).
  - intros delta img_a img_b points ph h H1 H2 H3 H4.
    exact (photometric_loss_same delta img_a img_b points ph h H1 H2 H3 H4).
Qed.

(** C2 fails on the script where the second image is not 256 x 256: on
    two identical images of 128 x 128 the script still warps to
    256 x 256 and then has no difference to take, where the four steps of
    the specification warp to 128 x 128 and give a loss; against a second
    image of one pixel the script takes its loss from a warp of
    256 x 256. *)
Lemma photometric_loss_misses_second_resolution :
  KorniaSpec example_kornia
  /\ @photometric_loss example_kornia (zeros [1; 4; 2]%N)
       (full [1; 1; 128; 128]%N (Qz 3)) (full [1; 1; 128; 128]%N (Qz 3))
       (example_points 1) = None
  /\ @photometric_loss_spec example_kornia (zeros [1; 4; 2]%N)
       (full [1; 1; 128; 128]%N (Qz 3)) (full [1; 1; 128; 128]%N (Qz 3))
       (example_points 1) = Some 0
  /\ @photometric_loss example_kornia (zeros [1; 4; 2]%N)
       (full [1; 1; 256; 256]%N (Qz 3)) (full [1; 1; 1; 1]%N (Qz 1))
       (example_points 1) = Some (Qz 2).
Proof.
  split; [exact example_kornia_spec|].
  split; [vm_compute; reflexivity|].
  split; apply option_Qc_eqb_eq; vm_compute; reflexivity.
Qed.

(** C3 fails on the script for inputs without a loss: corner points all
    displaced onto the origin leave no transform to solve for, and two
    identical images of 128 x 128 do not meet the 256 x 256 of the warp,
    even with no displacement. *)
Lemma photometric_loss_without_value :
  KorniaSpec example_kornia
  /\ @photometric_loss example_kornia
       (mkT [1; 4; 2]%N [Qz (-64); Qz (-64); Qz (-192); Qz (-64);
                         Qz (-192); Qz (-192); Qz (-64); Qz (-192)])
       (full [1; 1; 256; 256]%N 1) (full [1; 1; 256; 256]%N 1)
       (example_points 1) = None
  /\ @photometric_loss example_kornia (zeros [1; 4; 2]%N)
       (full [1; 1; 128; 128]%N 1) (full [1; 1; 128; 128]%N 1)
       (example_points 1) = None.
Proof.
  split; [exact example_kornia_spec|]. split; vm_compute; reflexivity.
Qed.

Lemma example_loss_two :
  @photometric_loss example_kornia (zeros [1; 4; 2]%N)
     (full [1; 1; 256; 256]%N (Qz 3)) (full [1; 1; 256; 256]%N (Qz 1))
     (example_points 1)
  = Some (Qz 2).
Proof. apply option_Qc_eqb_eq. vm_compute. reflexivity. Qed.

Lemma full_wf (s : shape) (v : Qc) : tensor_wf (full s v).
Proof.
  unfold tensor_wf, full. cbn [tdata tshape].
  rewrite repeat_length. apply N2Nat.id.
Qed.

Lemma full_not_empty (s : shape) (v : Qc) : numel s <> 0%N -> tdata (full s v) <> [].
Proof.
  intros Hs H. apply (f_equal (@length Qc)) in H. unfold full in H.
  cbn [tdata length] in H. rewrite repeat_length in H. lia.
Qed.

Lemma example_points_wf (b : nat) : tensor_wf (example_points b).
Proof.
  unfold tensor_wf, example_points. cbn [tdata tshape numel fold_right].
  induction b as [|b IH]; [reflexivity|].
  cbn [repeat concat]. rewrite length_app. cbn [length].
  rewrite Nat2N.inj_add, IH. lia.
Qed.

Lemma example_points_hat :
  tadd (example_points 1) (zeros [1; 4; 2]%N) = Some (example_points 1).
Proof.
  exact (tadd_zeros (example_points 1) (example_points_wf 1)).
Qed.

Lemma example_transform :
  get_perspective_transform (example_points 1) (example_points 1)
  = Some (identity_transforms 1).
Proof.
  apply get_perspective_transform_identity.
  - reflexivity.
  - apply (example_points_wf 1).
  - constructor; [exact example_quad_general_position|constructor].
Qed.

Lemma example_warp_identity (v : Qc) :
  @warp_perspective example_kornia (full [1; 1; 256; 256]%N v)
     (identity_transforms 1) (256, 256)%N
  = Some (full [1; 1; 256; 256]%N v).
Proof.
  apply (example_warp_returns_input (full [1; 1; 256; 256]%N v)
           1%N 1%N 256%N 256%N).
  - reflexivity.
  - apply full_wf.
Qed.

Lemma photometric_loss_as_specified_witness :
  KorniaSpec example_kornia
  /\ tshape (zeros [1; 4; 2]%N) = tshape (example_points 1)
  /\ tensor_wf (full [1; 1; 256; 256]%N (Qz 1))
  /\ @photometric_loss example_kornia (zeros [1; 4; 2]%N)
       (full [1; 1; 256; 256]%N (Qz 3)) (full [1; 1; 256; 256]%N (Qz 1))
       (example_points 1)
     = @photometric_loss_spec example_kornia (zeros [1; 4; 2]%N)
         (full [1; 1; 256; 256]%N (Qz 3)) (full [1; 1; 256; 256]%N (Qz 1))
         (example_points 1)
  /\ @photometric_loss example_kornia (zeros [1; 4; 2]%N)
       (full [1; 1; 256; 256]%N (Qz 3)) (full [1; 1; 256; 256]%N (Qz 1))
       (example_points 1)
     = Some (Qz 2).
Proof.
  split; [exact example_kornia_spec|].
  split; [reflexivity|].
  split; [apply full_wf|].
  split; [|exact example_loss_two].
  exact (proj1 (photometric_loss_as_specified example_kornia example_kornia_spec)
           (zeros [1; 4; 2]%N) (full [1; 1; 256; 256]%N (Qz 3))
           (full [1; 1; 256; 256]%N (Qz 1)) (example_points 1)
           1%N 1%N 256%N 256%N eq_refl eq_refl eq_refl (full_wf _ _)).
Defined.

Lemma photometric_loss_nonneg_zero_witness :
  0 <= Qz 2
  /\ @warp_perspective example_kornia (full [1; 1; 256; 256]%N (Qz 3))
       (identity_transforms 1) (256, 256)%N
     = Some (full [1; 1; 256; 256]%N (Qz 3))
  /\ @photometric_loss example_kornia (zeros [1; 4; 2]%N)
        (full [1; 1; 256; 256]%N (Qz 3)) (full [1; 1; 256; 256]%N (Qz 3))
        (example_points 1) = Some 0.
Proof.
  destruct (photometric_loss_nonneg_zero example_kornia) as (Hnn & _ & Hz).
  split; [|split].
  - exact (Hnn _ _ _ _ (Qz 2) example_loss_two).
  - exact (example_warp_identity (Qz 3)).
  - apply (Hz (zeros [1; 4; 2]%N) (full [1; 1; 256; 256]%N (Qz 3))
              (full [1; 1; 256; 256]%N (Qz 3)) (example_points 1)
              (example_points 1) (identity_transforms 1)).
    + exact example_points_hat.
    + exact example_transform.
    + exact (example_warp_identity (Qz 3)).
    + apply full_not_empty. discriminate.
Defined.

(** *** The steps on the example engine *)

Lemma example_train_step_returns : returns (snd example_train_step) = true.
Proof. vm_compute. reflexivity. Qed.

(** C1 fails on the script: on a fresh model and two batches, the
    backward pass of the second batch finds the gradient of the first in
    the buffers. *)
Lemma train_step_leaves_gradients_in_buffers :
  grad (model example_world) = grad_zero
  /\ ~ Forall (fun bw => fst bw = grad_zero)
         (backwards (trace (fst example_train_step))).
Proof.
  split; [reflexivity|]. intros H.
  assert (E : backwards (trace (fst example_train_step))
              = [(Qz 0, Qz 1); (Qz 0 + Qz 1, Qz 1)]).
  { vm_compute. reflexivity. }
  rewrite E in H. inversion H as [|? ? _ H2]. inversion H2 as [|? ? H3 _].
  cbn in H3. revert H3. apply Qc_neq_by_value. vm_compute. reflexivity.
Qed.

Lemma train_step_accumulates_gradients_witness :
  returns (snd example_train_step) = true
  /\ exists tr,
       trace (fst example_train_step) = trace example_world ++ tr
       /\ accumulates (grad (model example_world)) (backwards tr)
                      (grad (model (fst example_train_step)))
       /\ length (backwards tr) = length (batches example_loader).
Proof.
  split; [exact example_train_step_returns|].
  destruct (@train_step_accumulates_gradients example_kornia example_torch
              example_loader example_world) as (tr & H1 & H2 & H3).
  exists tr. split; [exact H1|]. split; [exact H2|].
  apply H3. exact example_train_step_returns.
Defined.

(** C6 fails on the script: the two scalars of a step over two batches
    carry no step key, so the second key is not greater than the first. *)
Lemma train_step_scalars_share_no_step :
  map snd (scalars (trace (fst example_train_step))) = [None; None]
  /\ ~ strictly_increasing_steps
        (map snd (scalars (trace (fst example_train_step)))).
Proof.
  assert (E : map snd (scalars (trace (fst example_train_step)))
              = [None; None]).
  { vm_compute. reflexivity. }
  split; [exact E|]. rewrite E. intros [[] _].
Qed.

Lemma train_step_scalars_without_step_witness :
  returns (snd example_train_step) = true
  /\ exists tr,
       trace (fst example_train_step) = trace example_world ++ tr
       /\ Forall (fun s => fst (fst s) = "train_loss"%string /\ snd s = None)
                 (scalars tr)
       /\ length (scalars tr) = length (batches example_loader).
Proof.
  split; [exact example_train_step_returns|].
  destruct (@train_step_scalars_without_step example_kornia example_torch
              example_loader example_world) as (tr & H1 & H2 & H3).
  exists tr. split; [exact H1|]. split; [exact H2|].
  apply H3. exact example_train_step_returns.
Defined.

Lemma example_valid_step_returns :
  returns (snd (@valid_step example_kornia example_torch
                  example_loader example_world)) = true.
Proof. vm_compute. reflexivity. Qed.


(** C10 fails on the split: of four items, fewer than five, one is left
    for validation. *)
Lemma four_items_leave_a_validation_item :
  (4 < 5)%nat /\ valid_size 4 <> O.
Proof. split; [lia|]. vm_compute. discriminate. Qed.

Lemma empty_partition_raises_witness :
  dataset_len (mkLoader 0 []) = O
  /\ snd (@train_step example_kornia example_torch (mkLoader 0 []) example_world)
     = Raise ZeroDivisionError
  /\ (1 <= 4 < 5)%nat /\ valid_size 4 = 1%nat.
Proof.
  destruct (@empty_partition_raises example_kornia example_torch)
    as (He & _ & _ & _ & Hv).
  split; [reflexivity|]. split.
  - destruct (He (mkLoader 0 []) example_world eq_refl) as (_ & _ & Hz).
    apply Hz. reflexivity.
  - split; [lia|]. apply Hv. lia.
Defined.

Lemma example_fit_returns : returns (snd (example_fit 2%nat)) = true.
Proof. vm_compute. reflexivity. Qed.

Lemma fit_runs_every_epoch_witness :
  returns (snd (example_fit 2%nat)) = true
  /\ map fst (saves (trace (fst (example_fit 2%nat))))
     = ["model_0.pt"; "model_1.pt"]%string
  /\ NoDup (map fst (saves (trace (fst (example_fit 2%nat)))))
  /\ printed (trace (fst (example_fit 2%nat)))
     = ["0" ++ tab ++ "1.0000" ++ tab ++ "2.0000";
        "1" ++ tab ++ "1.0000" ++ tab ++ "2.0000"]%string.
Proof.
  assert (Hp : printed (trace (fst (example_fit 2%nat)))
               = ["0" ++ tab ++ "1.0000" ++ tab ++ "2.0000";
                  "1" ++ tab ++ "1.0000" ++ tab ++ "2.0000"]%string)
    by (vm_compute; reflexivity).
  destruct (@fit_runs_every_epoch example_kornia example_torch 3
              (fun _ => [example_batch 2 1 0])
              (fun _ => [example_batch 1 (Qz 3) (Qz 1)]) (Qz 0) O 2%nat
              example_fit_returns) as (_ & Hs & Hn & _).
  split; [exact example_fit_returns|]. split; [exact Hs|].
  split; [exact Hn|exact Hp].
Defined.

(* ------------------------------------------------------------------ *)
(** * Further properties of the script *)

(** ** The network on any batch and any pair of patches *)

(** [Block_shape] also holds on an empty batch. *)
Lemma Block_shape_any (bn tr : bool) (cin cout n c h w : N) (rest : list layer) :
  Sequential tr (Block cin cout bn ++ rest) [n; c; h; w] =
  if (c =? cin)%N && (2 <=? h)%N && (2 <=? w)%N
  then Sequential tr rest [n; cout; h / 2; w / 2]%N
  else None.
Proof.
  destruct (N.leb_spec 1 n) as [Hn|Hn]; [apply Block_shape; exact Hn|].
  assert (n = 0%N) by lia. subst n. clear Hn. unfold Block.
  assert (Hbn : forall x y,
    layer_shape tr (BatchNorm2d cout) [0; cout; x; y]%N = Some [0; cout; x; y]%N).
  { intros x y. cbn [layer_shape]. rewrite N.eqb_refl.
    change (0 * x * y)%N with 0%N. change (0 =? 1)%N with false.
    rewrite orb_true_r. reflexivity. }
  assert (Hconv : forall ci c0 rest0,
    Sequential tr (Conv2d ci cout 3 1 :: ReLU :: rest0) [0; c0; h; w]%N =
    if (c0 =? ci)%N && (1 <=? h)%N && (1 <=? w)%N
    then Sequential tr rest0 [0; cout; h; w]%N else None).
  { intros ci c0 rest0. rewrite Sequential_cons, conv3_shape.
    destruct ((c0 =? ci)%N && (1 <=? h)%N && (1 <=? w)%N); [|reflexivity].
    rewrite Sequential_cons, relu_shape. reflexivity. }
  assert (Hpool : Sequential tr (MaxPool2d 2 2 :: rest) [0; cout; h; w]%N =
                  if (2 <=? h)%N && (2 <=? w)%N
                  then Sequential tr rest [0; cout; h / 2; w / 2]%N else None).
  { rewrite Sequential_cons, pool2_shape.
    destruct ((2 <=? h)%N && (2 <=? w)%N); reflexivity. }
  assert (Hall : Sequential tr (Block cin cout bn ++ rest) [0; c; h; w]%N =
    if (c =? cin)%N && (1 <=? h)%N && (1 <=? w)%N
    then if (2 <=? h)%N && (2 <=? w)%N
         then Sequential tr rest [0; cout; h / 2; w / 2]%N else None
    else None).
  { unfold Block. destruct bn; cbn [app].
    - rewrite Hconv.
      destruct ((c =? cin)%N && (1 <=? h)%N && (1 <=? w)%N) eqn:E; [|reflexivity].
      rewrite Sequential_cons, Hbn, Hconv, N.eqb_refl.
      apply andb_true_iff in E. destruct E as [E Ew].
      apply andb_true_iff in E. destruct E as [_ Eh].
      rewrite Eh, Ew. cbn [andb]. rewrite Sequential_cons, Hbn. apply Hpool.
    - rewrite Hconv.
      destruct ((c =? cin)%N && (1 <=? h)%N && (1 <=? w)%N) eqn:E; [|reflexivity].
      rewrite Hconv, N.eqb_refl.
      apply andb_true_iff in E. destruct E as [E Ew].
      apply andb_true_iff in E. destruct E as [_ Eh].
      rewrite Eh, Ew. cbn [andb]. apply Hpool. }
  unfold Block in Hall. rewrite Hall.
  destruct (c =? cin)%N; cbn [andb]; [|reflexivity].
  destruct (N.leb_spec 1 h); destruct (N.leb_spec 2 h); try lia; cbn [andb];
    try reflexivity.
  - destruct (N.leb_spec 1 w); destruct (N.leb_spec 2 w); try lia; reflexivity.
  - destruct (1 <=? w)%N; reflexivity.
Qed.

(** The five blocks of [Net]: two channels in, 256 out, the resolution
    halved five times; a resolution below 32 does not survive them. *)
Lemma Net_blocks_shape (bn tr : bool) (n c h w : N) (rest : list layer) :
  Sequential tr (Block 2 64 bn ++ Block 64 128 bn ++ Block 128 256 bn
                 ++ Block 256 256 bn ++ Block 256 256 bn ++ rest) [n; c; h; w] =
  if (c =? 2)%N && (32 <=? h)%N && (32 <=? w)%N
  then Sequential tr rest [n; 256; h / 32; w / 32]%N
  else None.
Proof.
  rewrite !Block_shape_any.
  change (64 =? 64)%N with true. change (128 =? 128)%N with true.
  change (256 =? 256)%N with true. cbn [andb].
  destruct (c =? 2)%N; cbn [andb]; [|reflexivity].
  rewrite !div2_5.
  destruct (N.leb_spec 32 h) as [Hh|Hh]; cbn [andb].
  - destruct (N.leb_spec 32 w) as [Hw|Hw].
    + destruct (halvings_ge h Hh) as (h0 & h1 & h2 & h3 & h4).
      destruct (halvings_ge w Hw) as (w0 & w1 & w2 & w3 & w4).
      rewrite h0, h1, h2, h3, h4, w0, w1, w2, w3, w4. reflexivity.
    + pose proof (halvings_lt w (Sequential tr rest [n; 256; h / 32; w / 32]%N) Hw)
        as Hnone.
      repeat match goal with
             | |- context [(2 <=? ?x)%N] => destruct (2 <=? x)%N
             end; cbn [andb] in *; try reflexivity; try discriminate.
      exact Hnone.
  - pose proof (halvings_lt h (Sequential tr rest [n; 256; h / 32; w / 32]%N) Hh)
      as Hnone.
    repeat match goal with
           | |- context [(2 <=? ?x)%N] => destruct (2 <=? x)%N
           end; cbn [andb] in *; try reflexivity; try discriminate.
    exact Hnone.
Qed.

Lemma shape_eqb_pair (h w h' w' : N) :
  shape_eqb [h; w] [h'; w'] = ((h =? h')%N && (w =? w')%N).
Proof.
  unfold shape_eqb.
  destruct (list_eq_dec N.eq_dec [h; w] [h'; w']) as [E|E].
  - injection E as -> ->. rewrite !N.eqb_refl. reflexivity.
  - destruct (N.eqb_spec h h') as [->|]; [|reflexivity].
    destruct (N.eqb_spec w w') as [->|]; [|reflexivity].
    congruence.
Qed.

(** The two linear layers and the final [view] on [f] features. *)
Lemma Net_fc_view_shape (tr : bool) (n f : N) :
  match Sequential tr Net_fc [n; f] with
  | Some x => view_m1_4_2 x
  | None => None
  end = if (f =? 4096)%N then Some [n; 4; 2]%N else None.
Proof.
  unfold Net_fc. rewrite Sequential_cons. cbn [layer_shape last].
  change (256 * 4 * 4)%N with 4096%N.
  destruct (f =? 4096)%N; [|reflexivity].
  cbn [removelast app]. rewrite Sequential_cons, relu_shape, Sequential_cons.
  cbn [layer_shape last]. rewrite N.eqb_refl. cbn [removelast app Sequential].
  unfold view_m1_4_2. cbn [numel fold_right].
  change (4 * 2)%N with 8%N.
  replace (n * (8 * 1))%N with (n * 8)%N by lia.
  rewrite N.Div0.mod_mul, N.div_mul by lia. reflexivity.
Qed.

(** X1.  One [Block] keeps the batch, sets the channels and halves the height
    and the width, rounding down, with or without batch normalisation and
    in either mode; an input of other channels, or of a height or width
    below 2, is refused. *)
Theorem Block_halves_resolution (batch_norm training : bool)
        (inchannels outchannels n c h w : N) :
  Sequential training (Block inchannels outchannels batch_norm) [n; c; h; w]
  = if (c =? inchannels)%N && (2 <=? h)%N && (2 <=? w)%N
    then Some [n; outchannels; h / 2; w / 2]%N
    else None.
Proof.
  rewrite <- (app_nil_r (Block inchannels outchannels batch_norm)).
  rewrite Block_shape_any. reflexivity.
Qed.

(** X2.  The convolutional part of [Net], its five blocks and [Flatten],
    turns a batch of [n >= 1] inputs of two channels and a resolution of
    at least 32 x 32 into [n] rows of [256 * (h / 32) * (w / 32)]
    features; other channels, a smaller resolution and an empty batch are
    refused. *)
Theorem Net_cnn_features (batch_norm training : bool) (n c h w : N) :
  Sequential training (Net_cnn batch_norm) [n; c; h; w]
  = if (c =? 2)%N && (32 <=? h)%N && (32 <=? w)%N && (1 <=? n)%N
    then Some [n; 256 * (h / 32) * (w / 32)]%N
    else None.
Proof.
  unfold Net_cnn. rewrite Net_blocks_shape.
  destruct ((c =? 2)%N && (32 <=? h)%N && (32 <=? w)%N); cbn [andb]; [|reflexivity].
  cbn [Sequential layer_shape numel fold_right].
  destruct (N.leb_spec 1 n) as [Hn|Hn].
  - replace (0 <? n)%N with true by (symmetry; apply N.ltb_lt; lia).
    do 2 f_equal. f_equal. lia.
  - replace (0 <? n)%N with false by (symmetry; apply N.ltb_ge; lia).
    reflexivity.
Qed.

(** X3.  [Net.forward] on any two four-dimensional inputs: it returns, and
    then a tensor of shape [(n, 4, 2)], exactly when the two inputs agree
    in batch, height and width, their channels add up to two, the batch
    is not empty and the resolution, halved five times, leaves sixteen
    positions; in every other case it raises.  Neither the mode nor the
    [batch_norm] flag changes that. *)
Theorem Net_forward_shape_of_pair (batch_norm training : bool)
        (n ca h w n' cb h' w' : N) :
  Net_forward_shape batch_norm training [n; ca; h; w] [n'; cb; h'; w']
  = if (n =? n')%N && (h =? h')%N && (w =? w')%N && (ca + cb =? 2)%N
       && (1 <=? n)%N && (h / 32 * (w / 32) =? 16)%N
    then Some [n; 4; 2]%N
    else None.
Proof.
  unfold Net_forward_shape, cat_dim1. rewrite shape_eqb_pair.
  destruct (n =? n')%N; cbn [andb]; [|reflexivity].
  destruct (h =? h')%N; cbn [andb]; [|reflexivity].
  destruct (w =? w')%N; cbn [andb]; [|reflexivity].
  unfold Net_cnn. rewrite Net_blocks_shape.
  destruct (ca + cb =? 2)%N; cbn [andb]; [|reflexivity].
  destruct (N.leb_spec 32 h) as [Hh|Hh]; cbn [andb].
  2:{ replace (h / 32)%N with 0%N by (symmetry; apply N.div_small; lia).
      rewrite N.mul_0_l. change (0 =? 16)%N with false.
      rewrite andb_false_r. reflexivity. }
  destruct (N.leb_spec 32 w) as [Hw|Hw]; cbn [andb].
  2:{ replace (w / 32)%N with 0%N by (symmetry; apply N.div_small; lia).
      rewrite N.mul_0_r. change (0 =? 16)%N with false.
      rewrite andb_false_r. reflexivity. }
  cbn [Sequential layer_shape numel fold_right].
  destruct (N.leb_spec 1 n) as [Hn|Hn]; cbn [andb].
  - replace (0 <? n)%N with true by (symmetry; apply N.ltb_lt; lia).
    rewrite Net_fc_view_shape.
    destruct (N.eqb_spec (h / 32 * (w / 32)) 16) as [E|E].
    + replace (256 * (h / 32 * (w / 32 * 1)) =? 4096)%N with true
        by (symmetry; apply N.eqb_eq; lia).
      reflexivity.
    + replace (256 * (h / 32 * (w / 32 * 1)) =? 4096)%N with false
        by (symmetry; apply N.eqb_neq; lia).
      reflexivity.
  - replace (0 <? n)%N with false by (symmetry; apply N.ltb_ge; lia).
    reflexivity.
Qed.

(** X4.  Square one-channel patches of side [s] go through [Net] exactly for
    [128 <= s <= 159]: the five halvings round down, so every side in
    that range leaves the 4 x 4 positions the first linear layer is built
    for. *)
Theorem Net_accepts_sides_128_to_159 (batch_norm training : bool) (n s : N) :
  (1 <= n)%N ->
  Net_forward_shape batch_norm training [n; 1; s; s]%N [n; 1; s; s]%N
  = if (128 <=? s)%N && (s <=? 159)%N then Some [n; 4; 2]%N else None.
Proof.
  intros Hn. rewrite Net_forward_shape_eq by exact Hn.
  rewrite N.eqb_refl. cbn [andb].
  pose proof (N.Div0.div_mod s 32) as Hdm.
  pose proof (N.mod_lt s 32 ltac:(discriminate)) as Hlt.
  set (q := (s / 32)%N) in *. set (r := (s mod 32)%N) in *.
  destruct (N.eqb_spec (q * q) 16) as [E|E].
  - assert (q = 4%N) by nia.
    destruct (N.leb_spec 128 s); destruct (N.leb_spec s 159); cbn [andb];
      try reflexivity; exfalso; lia.
  - destruct (N.leb_spec 128 s); destruct (N.leb_spec s 159); cbn [andb];
      try reflexivity.
    exfalso. apply E. assert (q = 4%N) by lia. subst q. nia.
Qed.

Lemma Net_accepts_sides_128_to_159_witness :
  (1 <= 64)%N
  /\ Net_forward_shape true true [64; 1; 159; 159]%N [64; 1; 159; 159]%N
     = Some [64; 4; 2]%N.
Proof.
  split; [lia|].
  apply (Net_accepts_sides_128_to_159 true true 64 159). lia.
Defined.

(** ** The loss: when it vanishes, how large it gets *)














Section LossBounds.
Context {K : Kornia}.


End LossBounds.





(** ** The two steps: order of effects, failures, what a value depends on *)

Lemma Qc_of_N_nonneg (n : N) : 0 <= Qc_of_N n.
Proof.
  unfold Qcle, Qc_of_N. cbn [this Q2Qc].
  rewrite !Qred_correct. unfold Qle, inject_Z. cbn. lia.
Qed.

Lemma Qcplus_nonneg (a b : Qc) : 0 <= a -> 0 <= b -> 0 <= a + b.
Proof.
  intros Ha Hb. replace 0 with (0 + 0) by ring.
  apply Qcplus_le_compat; assumption.
Qed.

Section StepFacts.
Context {K : Kornia} {T : Torch}.

(** The loss of a batch looks at the parameters, the statistics and the
  mode of the module only. *)
Lemma batch_loss_ext (m m0 : module) (b : batch) :
params m0 = params m -> buffers m0 = buffers m -> training m0 = training m ->
batch_loss m0 b = batch_loss m b.
Proof. intros Hp Hb Ht. unfold batch_loss. rewrite Hp, Hb, Ht. reflexivity. Qed.

Lemma batch_loss_nonneg (m : module) (b : batch) (loss : Qc) (n : N) :
batch_loss m b = Ok (loss, n) -> 0 <= loss.
Proof.
unfold batch_loss.
destruct (net_forward _ _ _ _ _) as [delta|]; [|discriminate].
destruct (photometric_loss delta (img_a b) (img_b b) (points b)) as [l|] eqn:El;
  [|discriminate].
destruct (size0 (img_a b)); [|discriminate].
intros H. assert (l = loss) by congruence. subst l.
exact (photometric_loss_nonneg _ _ _ _ loss El).
Qed.

Lemma weighted_total_nonneg (lns : list (Qc * N)) :
Forall (fun ln => 0 <= fst ln) lns -> 0 <= weighted_total lns.
Proof.
induction 1 as [|[loss n] lns Hl _ IH]; [apply Qcle_refl|].
cbn [weighted_total]. cbn [fst] in Hl.
apply Qcplus_nonneg; [|exact IH].
apply Qcmult_nonneg; [exact Hl|apply Qc_of_N_nonneg].
Qed.

(** The training loop, iteration by iteration. *)
Lemma train_loop_order (bs : list batch) :
forall (total : Qc) (w w' : world) (r : result Qc),
  training (model w) = true -> grad_enabled w = true ->
  for_each bs total train_batch w = (w', r) ->
  exists (groups : list (list event)) (tail : list event),
    trace w' = trace w ++ concat groups ++ tail
    /\ Forall iteration groups
    /\ (length groups <= length bs)%nat
    /\ (tail = [] \/ tail = [EvForward true true])
    /\ (forall v, r = Ok v -> length groups = length bs /\ tail = []).
Proof.
induction bs as [|b bs IH]; intros total w w' r Hm Hg Hrun.
- cbn in Hrun. injection Hrun as <- <-. exists [], []. cbn.
  rewrite app_nil_r. repeat split; auto.
- rewrite for_each_cons in Hrun.
  pose proof (train_batch_run total b w Hm Hg) as Hb.
  destruct (batch_loss (model w) b) as [[loss n]|e].
  + rewrite Hb in Hrun.
    destruct (trained_model w b loss) as (Tm & Tg & _ & Ttr).
    apply IH in Hrun; [|exact Tm|rewrite Tg; exact Hg].
    destruct Hrun as (groups & tail & Htr & Hit & Hlen & Htail & Hok).
    exists ([EvForward true true;
             EvBackward (grad (model w)) (autograd (params (model w)) b);
             EvOptimizerStep; EvAddScalar "train_loss" loss None; EvFlush]
            :: groups), tail.
    split; [|split; [|split; [|split]]].
    * rewrite Htr, Ttr. cbn [concat]. rewrite <- !app_assoc. reflexivity.
    * constructor; [|exact Hit]. eexists _, _, _. reflexivity.
    * cbn [length]. lia.
    * exact Htail.
    * intros v Hv. destruct (Hok v Hv) as [Hl Ht]. cbn [length]. split; congruence.
  + destruct Hb as (w1 & Hb & Htr1 & _). rewrite Hb in Hrun.
    injection Hrun as <- <-. exists [], [EvForward true true].
    split; [|split; [|split; [|split]]].
    * exact Htr1.
    * constructor.
    * cbn. lia.
    * right. reflexivity.
    * discriminate.
Qed.


(** The value of the validation loop depends on the parameters and the
  statistics of the module only. *)
Lemma valid_loop_value (bs : list batch) :
forall (total : Qc) (w w0 : world),
  training (model w) = false -> training (model w0) = false ->
  params (model w0) = params (model w) ->
  buffers (model w0) = buffers (model w) ->
  snd (for_each bs total valid_batch w0) = snd (for_each bs total valid_batch w).
Proof.
induction bs as [|b bs IH]; intros total w w0 Hm Hm0 Hp Hb; [reflexivity|].
rewrite !for_each_cons, !valid_batch_run by assumption.
rewrite (batch_loss_ext (model w) (model w0) b Hp Hb) by congruence.
destruct (batch_loss (model w) b) as [[loss n]|e]; [|reflexivity].
apply IH; assumption.
Qed.

Lemma valid_step_value (dl : DataLoader) (w : world) :
snd (valid_step dl w)
= match snd (for_each (batches dl) 0 valid_batch
               (mkWorld (in_mode false (model w)) (optimizer w) false (trace w)))
  with
  | Ok total => match dataset_len dl with
                | O => Raise ZeroDivisionError
                | S _ => Ok (total / Qc_of_nat (dataset_len dl))
                end
  | Raise e => Raise e
  end.
Proof.
rewrite valid_step_run.
destruct (for_each (batches dl) 0 valid_batch _) as [w1 r]. reflexivity.
Qed.

(** A total that starts non-negative stays so through the training
  loop. *)
Lemma train_loop_nonneg (bs : list batch) :
forall (total : Qc) (w w' : world) (v : Qc),
  training (model w) = true -> 0 <= total ->
  for_each bs total train_batch w = (w', Ok v) -> 0 <= v.
Proof.
induction bs as [|b bs IH]; intros total w w' v Hm Ht Hrun.
- cbn in Hrun. injection Hrun as _ <-. exact Ht.
- rewrite for_each_cons in Hrun.
  destruct (grad_enabled w) eqn:Hg.
  + pose proof (train_batch_run total b w Hm Hg) as Hb.
    destruct (batch_loss (model w) b) as [[loss n]|e] eqn:El.
    * rewrite Hb in Hrun.
      destruct (trained_model w b loss) as (Tm & _).
      apply IH in Hrun; [exact Hrun|exact Tm|].
      apply Qcplus_nonneg; [exact Ht|].
      apply Qcmult_nonneg; [|apply Qc_of_N_nonneg].
      exact (batch_loss_nonneg _ _ _ _ El).
    * destruct Hb as (w1 & Hb & _). rewrite Hb in Hrun. discriminate.
  + destruct (train_batch_untracked total b w Hm Hg) as (w1 & e & Hb & _).
    rewrite Hb in Hrun. discriminate.
Qed.

(** X7.  In a training step that starts where autograd records, every
  completed batch leaves, in this order, its forward pass in training
  mode, its backward pass, one optimizer step, one scalar tagged
  [train_loss] and one flush of the writer; a batch that fails leaves
  its forward pass only, and is the last one.  The step prints and saves
  nothing, and a step that returns has completed every batch. *)
Theorem train_step_order_of_effects (dl : DataLoader) (w : world) :
grad_enabled w = true ->
let w' := fst (train_step dl w) in
exists (groups : list (list event)) (tail : list event),
  trace w' = trace w ++ concat groups ++ tail
  /\ Forall iteration groups
  /\ (length groups <= length (batches dl))%nat
  /\ (tail = [] \/ tail = [EvForward true true])
  /\ (returns (snd (train_step dl w)) = true ->
      length groups = length (batches dl) /\ tail = []).
Proof.
intros Hg. cbv zeta. rewrite train_step_run.
destruct (for_each (batches dl) 0 train_batch _) as [w1 r1] eqn:Hloop.
apply train_loop_order in Hloop; [|reflexivity|exact Hg].
destruct Hloop as (groups & tail & Htr & Hit & Hlen & Htail & Hok).
cbn [trace] in Htr.
exists groups, tail. destruct r1 as [total|e].
- rewrite divide_run. cbn [fst snd].
  repeat split; try assumption; apply (Hok total eq_refl).
- cbn [fst snd]. repeat split; try assumption; discriminate.
Qed.


(** X10.  The value [valid_step] returns, or the exception it raises, depends
  on the parameters and the batch-norm statistics of the model only:
  not on the mode the model was in, the gradient buffers, the state of
  the optimizer or whether autograd was recording.  In particular a
  second validation pass right after the first gives the same result. *)
Theorem valid_step_repeatable (dl : DataLoader) (w : world) :
(forall (mode : bool) (g : Grad) (o : OptState) (recording : bool)
        (tr : list event),
    snd (valid_step dl
           (mkWorld (mkModule (params (model w)) (buffers (model w)) mode g)
                    o recording tr))
    = snd (valid_step dl w))
/\ snd (valid_step dl (fst (valid_step dl w))) = snd (valid_step dl w).
Proof.
split.
- intros mode g o recording tr. rewrite !valid_step_value.
  rewrite (valid_loop_value (batches dl) 0
             (mkWorld (in_mode false (model w)) (optimizer w) false (trace w)));
    reflexivity.
- destruct (valid_step_spec dl w) as (Hm & _).
  rewrite (valid_step_value dl (fst (valid_step dl w))), (valid_step_value dl w).
  rewrite (valid_loop_value (batches dl) 0
             (mkWorld (in_mode false (model w)) (optimizer w) false (trace w)));
    try reflexivity; cbn [model]; rewrite Hm; reflexivity.
Qed.

(** X11.  The mean loss a step returns is never negative. *)
Theorem steps_return_nonnegative_loss (dl : DataLoader) (w : world) (v : Qc) :
snd (train_step dl w) = Ok v \/ snd (valid_step dl w) = Ok v ->
0 <= v.
Proof.
intros [Ht|Hv].
- rewrite train_step_run in Ht.
  destruct (for_each (batches dl) 0 train_batch _) as [w1 [total|e]] eqn:Hloop;
    [|discriminate].
  apply train_loop_nonneg in Hloop; [|reflexivity|apply Qcle_refl].
  rewrite divide_run in Ht. cbn [snd] in Ht.
  destruct (dataset_len dl) as [|k] eqn:Ek; [discriminate|].
  assert (v = total / Qc_of_nat (S k)) by congruence. subst v.
  apply Qcdiv_nonneg; [exact Hloop|apply Qc_of_nat_pos; discriminate].
- destruct (valid_step_spec dl w) as (_ & _ & _ & _ & Hok).
  destruct Hok as (Hlen & lns & Hall & Hr); [rewrite Hv; reflexivity|].
  assert (v = weighted_total lns / Qc_of_nat (dataset_len dl)) by congruence.
  subst v.
  apply Qcdiv_nonneg; [|apply Qc_of_nat_pos; exact Hlen].
  apply weighted_total_nonneg.
  clear Hr Hv. induction Hall as [|b [loss n] bs lns Hb _ IH]; constructor.
  + exact (batch_loss_nonneg _ _ _ _ Hb).
  + exact IH.
Qed.
(** The validation loop returns exactly when the loss of every batch has
  a value on the module it runs on. *)
Lemma valid_loop_returns (bs : list batch) :
forall (total : Qc) (w : world),
  training (model w) = false ->
  returns (snd (for_each bs total valid_batch w))
  = forallb (fun b => returns (batch_loss (model w) b)) bs.
Proof.
induction bs as [|b bs IH]; intros total w Hm; [reflexivity|].
rewrite for_each_cons, valid_batch_run by exact Hm. cbn [forallb].
destruct (batch_loss (model w) b) as [[loss n]|e]; cbn [returns andb];
  [|reflexivity].
rewrite IH by exact Hm. reflexivity.
Qed.

(** X19.  [valid_step] returns exactly when the loss of every batch has
  a value on the model in evaluation mode and the dataset is not empty;
  the division by a length of zero is reached, and raises
  [ZeroDivisionError], only after every batch went through. *)
Theorem valid_step_returns_exactly (dl : DataLoader) (w : world) :
returns (snd (valid_step dl w))
= forallb (fun b => returns (batch_loss (in_mode false (model w)) b))
          (batches dl)
  && negb (dataset_len dl =? 0)%nat
/\ (forallb (fun b => returns (batch_loss (in_mode false (model w)) b))
            (batches dl) = true ->
    dataset_len dl = O ->
    snd (valid_step dl w) = Raise ZeroDivisionError
    /\ length (trace (fst (valid_step dl w)))
       = (length (trace w) + length (batches dl))%nat).
Proof.
pose proof (valid_loop_returns (batches dl) 0
              (mkWorld (in_mode false (model w)) (optimizer w) false (trace w))
              eq_refl) as Hloop.
cbn [model] in Hloop. rewrite <- Hloop. clear Hloop.
split.
- rewrite valid_step_value.
  destruct (snd (for_each (batches dl) 0 valid_batch _)) as [total|e];
    [|reflexivity].
  destruct (dataset_len dl); reflexivity.
- intros Hall Hlen.
  destruct (valid_step_spec dl w) as (_ & _ & _ & (k & Htr & Hk & _) & _).
  rewrite valid_step_run in Htr |- *.
  destruct (for_each (batches dl) 0 valid_batch _) as [w1 [total|e]] eqn:Hrun;
    [|discriminate Hall].
  cbn [fst snd trace] in Htr |- *. rewrite Hlen. split; [reflexivity|].
  apply valid_loop in Hrun; [|reflexivity].
  destruct Hrun as (_ & _ & _ & k' & Htr' & _ & Hok).
  destruct (Hok total eq_refl) as (-> & _).
  rewrite Htr'. cbn [trace]. rewrite length_app, repeat_length. reflexivity.
Qed.
End StepFacts.

(** ** [fit] as a whole: the split, the effects of a run, its failures *)

(** X12.  Whatever the length [n] of the dataset, the training
    partition is not longer than the dataset and the two lengths handed
    to [random_split] add up to [n].  Up to [2 ^ 50] items the training
    partition has four fifths of the items, rounded down, and the
    validation partition the rest, one fifth rounded up; beyond that the
    rounding of the float product shows, as at 7000000000000002 items,
    where the product gives one more than four fifths rounded down. *)
Theorem split_covers_dataset (n : nat) :
  (train_size n + valid_size n = n)%nat
  /\ ((Z.of_nat n <= 2 ^ 50)%Z ->
      train_size n = (4 * n / 5)%nat /\ valid_size n = ((n + 4) / 5)%nat)
  /\ int_0_8_Z 7000000000000002 = 5600000000000002%Z
  /\ (4 * 7000000000000002 / 5 = 5600000000000001)%Z.
Proof.
  pose proof (train_size_le n) as Hle.
  split; [unfold valid_size; lia|]. split; [|split; reflexivity].
  intros Hn. pose proof (train_size_exact n Hn) as E.
  split; [exact E|].
  pose proof (Nat.div_mod (4 * n) 5 ltac:(lia)) as Hdm.
  pose proof (Nat.mod_upper_bound (4 * n) 5 ltac:(lia)) as Hr.
  unfold valid_size. rewrite E.
  apply Nat.div_unique with (r := (n + 4 - 5 * (n - 4 * n / 5))%nat); lia.
Qed.

Section RunFacts.
Context {K : Kornia} {T : Torch}.

Lemma backwards_app (t1 t2 : list event) :
backwards (t1 ++ t2) = backwards t1 ++ backwards t2.
Proof. apply flat_map_app. Qed.

Lemma scalars_app (t1 t2 : list event) :
scalars (t1 ++ t2) = scalars t1 ++ scalars t2.
Proof. apply flat_map_app. Qed.

Lemma printed_app (t1 t2 : list event) :
printed (t1 ++ t2) = printed t1 ++ printed t2.
Proof. apply flat_map_app. Qed.

Lemma valid_trace_silent (k : nat) :
backwards (repeat (EvForward false false) k) = []
/\ scalars (repeat (EvForward false false) k) = []
/\ printed (repeat (EvForward false false) k) = [].
Proof. induction k as [|k IH]; [repeat split|exact IH]. Qed.

(** A trace whose marks are training batches only has no printed line. *)
Lemma printed_train (tr : list event) (k : nat) :
marks tr = repeat TrainBatch k -> printed tr = [].
Proof.
revert k. induction tr as [|e tr IH]; intros k H; [reflexivity|].
destruct e as [[|] tracking| | | | | |]; cbn in H |- *.
- destruct k; [discriminate|]. injection H as H. exact (IH k H).
- destruct k; discriminate.
- exact (IH k H).
- exact (IH k H).
- exact (IH k H).
- exact (IH k H).
- destruct k; discriminate.
- destruct k; discriminate.
Qed.

Lemma accumulates_app (bw1 bw2 : list (Grad * Grad)) :
forall g g1 g2,
  accumulates g bw1 g1 -> accumulates g1 bw2 g2 ->
  accumulates g (bw1 ++ bw2) g2.
Proof.
induction bw1 as [|[before dloss] bw1 IH]; intros g g1 g2 H1 H2.
- cbn in H1. subst g1. exact H2.
- cbn in H1 |- *. destruct H1 as [-> H1]. split; [reflexivity|].
  exact (IH _ _ _ H1 H2).
Qed.

Section Run.
Variables (n : nat) (train_pass valid_pass : nat -> list batch).
Variables (p0 : Params) (b0 : Buffers).

Let train_loader (e : nat) := mkLoader (train_size n) (train_pass e).
Let valid_loader (e : nat) := mkLoader (valid_size n) (valid_pass e).
Let run (epochs : nat) := fit n train_pass valid_pass p0 b0 epochs.

(** What one epoch adds to the trace and leaves in the gradient
buffers, whether it returns or raises. *)
Lemma epoch_effects (e : nat) (w : world) :
let w1 := fst (train_step (train_loader e) w) in
let r := epoch n train_pass valid_pass tt e w in
exists tr,
trace (fst r) = trace w ++ tr
/\ accumulates (grad (model w)) (backwards tr) (grad (model (fst r)))
/\ Forall (fun s => fst (fst s) = "train_loss"%string /\ snd s = None)
          (scalars tr)
/\ (if returns (snd r)
    then saves tr = [(checkpoint_path e,
                      (params (model w1), buffers (model w1)))]
         /\ length (printed tr) = 1%nat
         /\ length (scalars tr) = length (train_pass e)
    else saves tr = [] /\ printed tr = []).
Proof.
cbv zeta. pose proof (epoch_run n train_pass valid_pass e w) as Hrun.
cbv zeta in Hrun. rewrite Hrun. clear Hrun.
fold (train_loader e). fold (valid_loader e).
destruct (train_step_spec (train_loader e) w)
as (_ & _ & tr & Htr & Hacc & Hsc & Hsv & (k & Hk & _ & _) & Hok).
assert (Hsc' : Forall (fun s => fst (fst s) = "train_loss"%string /\ snd s = None)
                    (scalars tr)).
{ eapply Forall_impl; [|exact Hsc]. intros [[tag v] s] [H1 H2]. cbn in *.
split; [congruence|assumption]. }
pose proof (printed_train tr k Hk) as Hpr.
destruct (snd (train_step (train_loader e) w)) as [tl|x] eqn:Et.
- set (w1 := fst (train_step (train_loader e) w)) in *.
destruct (Hok eq_refl) as (_ & _ & Hlen & _).
destruct (valid_step_spec (valid_loader e) w1)
  as (Hm & _ & _ & (kv & Hv & _ & _) & _).
destruct (valid_trace_silent kv) as (Vb & Vs & Vp).
destruct (snd (valid_step (valid_loader e) w1)) as [vl|x] eqn:Ev.
+ cbn [fst snd returns log trace model].
  exists (tr ++ repeat (EvForward false false) kv
             ++ [EvPrint (epoch_line e tl vl);
                 EvSave (checkpoint_path e)
                   (params (model (fst (valid_step (valid_loader e) w1))),
                    buffers (model (fst (valid_step (valid_loader e) w1))))]).
  rewrite Hv, Htr, Hm.
  rewrite !backwards_app, !scalars_app, !saves_app, !printed_app.
  rewrite Vb, Vs, Vp, Hsv, Hpr, saves_valid. cbn [app].
  cbn [in_mode grad params buffers].
  split; [rewrite <- !app_assoc; reflexivity|].
  split; [rewrite app_nil_r; exact Hacc|].
  split; [rewrite app_nil_r; exact Hsc'|].
  split; [reflexivity|]. split; [reflexivity|].
  rewrite app_nil_r. exact Hlen.
+ cbn [fst snd returns].
  exists (tr ++ repeat (EvForward false false) kv).
  rewrite Hv, Htr, Hm.
  rewrite !backwards_app, !scalars_app, !saves_app, !printed_app.
  rewrite Vb, Vs, Vp, Hsv, Hpr, saves_valid, !app_nil_r.
  cbn [in_mode grad].
  split; [rewrite <- !app_assoc; reflexivity|].
  repeat split; assumption.
- cbn [fst snd returns]. exists tr. repeat split; assumption.
Qed.

Lemma run_S (e : nat) :
run (S e) =
match run e with
| (w, Ok _) => epoch n train_pass valid_pass tt e w
| (w, Raise x) => (w, Raise x)
end.
Proof. exact (fit_S n train_pass valid_pass p0 b0 e). Qed.

(** A run that has raised goes no further. *)
Lemma run_stuck (e epochs : nat) :
(e <= epochs)%nat -> returns (snd (run e)) = false -> run epochs = run e.
Proof.
intros He Hr. induction epochs as [|k IH].
- assert (e = O) by lia. subst e. reflexivity.
- destruct (Nat.eq_dec e (S k)) as [->|Hne]; [reflexivity|].
rewrite run_S, IH by lia.
destruct (run e) as [w [[]|x]]; [discriminate|reflexivity].
Qed.

Lemma run_start (epochs : nat) :
run epochs =
if (train_size n =? 0)%nat
then (mkWorld (mkModule p0 b0 true grad_zero) (adam_init LR) true [],
    Raise ValueError)
else fit_loop n train_pass valid_pass (seq 0 epochs)
     (mkWorld (mkModule p0 b0 true grad_zero) (adam_init LR) true []).
Proof. exact (run_unfold n train_pass valid_pass p0 b0 epochs). Qed.

(** The effects of a run of [fit], whether it returns or raises: [k]
epochs were completed. *)
Lemma run_effects (epochs : nat) :
let w := fst (run epochs) in
exists k,
(k <= epochs)%nat
/\ (returns (snd (run epochs)) = true <-> k = epochs /\ train_size n <> O)
/\ map fst (saves (trace w)) = map checkpoint_path (seq 0 k)
/\ length (printed (trace w)) = k
/\ accumulates grad_zero (backwards (trace w)) (grad (model w))
/\ Forall (fun s => fst (fst s) = "train_loss"%string /\ snd s = None)
          (scalars (trace w))
/\ (returns (snd (run epochs)) = true ->
    length (scalars (trace w))
    = list_sum (map (fun e => length (train_pass e)) (seq 0 epochs))).
Proof.
cbv zeta. induction epochs as [|e IH].
- exists O. rewrite run_start.
destruct (Nat.eqb_spec (train_size n) 0) as [Hz|Hz]; cbn.
+ repeat split; auto; try discriminate. intros [_ H]. congruence.
+ repeat split; auto.
- destruct IH as (k & Hk & Hret & Hsv & Hpr & Hacc & Hsc & Hlen).
rewrite run_S.
destruct (run e) as [w [[]|x]] eqn:Er.
+ cbn [fst snd] in *.
  destruct (proj1 Hret eq_refl) as [Hke Hts].
  rewrite Hke in Hsv, Hpr. clear Hke Hk Hret k.
  destruct (epoch_effects e w) as (tr & Htr & Eacc & Esc & Eif).
  cbv zeta in Htr, Eacc, Eif.
  destruct (returns (snd (epoch n train_pass valid_pass tt e w))) eqn:Ee.
  * destruct Eif as (Esv & Epr & Elen).
    exists (S e). rewrite Htr, saves_app, printed_app, scalars_app,
      backwards_app, Esv, map_app, Hsv, !length_app, Epr, Hpr.
    split; [lia|]. split; [tauto|]. split.
    { rewrite seq_S, map_app. reflexivity. }
    split; [lia|]. split.
    { exact (accumulates_app _ _ _ _ _ Hacc Eacc). }
    split; [apply Forall_app; split; assumption|].
    intros _. rewrite seq_S, map_app, list_sum_app, Elen, (Hlen eq_refl).
    cbn. lia.
  * destruct Eif as (Esv & Epr).
    exists e. rewrite Htr, saves_app, printed_app, scalars_app,
      backwards_app, Esv, Epr, !app_nil_r.
    split; [lia|]. split; [split; [discriminate|lia]|].
    split; [exact Hsv|]. split; [exact Hpr|]. split.
    { exact (accumulates_app _ _ _ _ _ Hacc Eacc). }
    split; [apply Forall_app; split; assumption|discriminate].
+ cbn [fst snd] in *. exists k.
  split; [lia|]. split; [split; [discriminate|lia]|].
  repeat split; try assumption. discriminate.
Qed.

(** X13.  When a run of [fit] stops, by returning or by an exception, some
number [k] of epochs has been completed: the checkpoints
[model_0.pt] ... [model_(k-1).pt] of these epochs have been written
and one line for each of them printed, and nothing of an epoch that
failed or of a later one.  The run returns exactly when all the
epochs were completed and the dataset has two items or more, which
leaves the training partition something to shuffle. *)
Theorem fit_keeps_completed_epochs (epochs : nat) :
exists k,
(k <= epochs)%nat
/\ (returns (snd (run epochs)) = true <-> k = epochs /\ (2 <= n)%nat)
/\ map fst (saves (trace (fst (run epochs))))
   = map checkpoint_path (seq 0 k)
/\ length (printed (trace (fst (run epochs)))) = k.
Proof.
destruct (run_effects epochs) as (k & H1 & H2 & H3 & H4 & _).
pose proof (train_size_zero n) as Hz.
exists k. repeat split; try assumption.
- apply H2. assumption.
- destruct (proj1 H2 H) as [_ Hn]. lia.
- intros [Hk Hn]. apply H2. split; [exact Hk|]. lia.
Qed.

(** X14.  [fit] never clears the gradient buffers either: from the zero
gradient the model starts with, every backward pass of every epoch
adds to what all the passes before it left, across epochs and across
the validation passes between them. *)
Theorem fit_accumulates_gradients_across_epochs (epochs : nat) :
accumulates grad_zero (backwards (trace (fst (run epochs))))
          (grad (model (fst (run epochs)))).
Proof.
destruct (run_effects epochs) as (k & _ & _ & _ & _ & H & _). exact H.
Qed.

(** X15.  The summary writer of [fit] receives training losses only: every
scalar of a run has the tag [train_loss] and no step key, the
validation loss is printed but never logged, and a run that returns
has logged one scalar per training batch of every epoch. *)
Theorem fit_logs_training_loss_only (epochs : nat) :
Forall (fun s => fst (fst s) = "train_loss"%string /\ snd s = None)
     (scalars (trace (fst (run epochs))))
/\ (returns (snd (run epochs)) = true ->
  length (scalars (trace (fst (run epochs))))
  = list_sum (map (fun e => length (train_pass e)) (seq 0 epochs))).
Proof.
destruct (run_effects epochs) as (k & _ & _ & _ & _ & _ & H1 & H2).
split; assumption.
Qed.


(** X17.  The checkpoint of an epoch holds the parameters and the batch-norm
statistics as the training pass of that epoch left them: the
validation pass between training and saving changes neither. *)
Theorem checkpoint_holds_model_after_training (e : nat) :
returns (snd (run (S e))) = true ->
let w1 := fst (train_step (train_loader e) (fst (run e))) in
saves (trace (fst (run (S e))))
= saves (trace (fst (run e)))
++ [(checkpoint_path e, (params (model w1), buffers (model w1)))].
Proof.
intros Hr. cbv zeta. rewrite run_S in Hr |- *.
destruct (run e) as [w [[]|x]]; [|discriminate]. cbn [fst].
destruct (epoch_effects e w) as (tr & Htr & _ & _ & Eif).
cbv zeta in Htr, Eif. rewrite Hr in Eif. destruct Eif as (Esv & _).
rewrite Htr, saves_app, Esv. reflexivity.
Qed.
End Run.
End RunFacts.

(** ** What a printed loss shows *)

Lemma this_Qc_of_N (m : N) : (this (Qc_of_N m) == inject_Z (Z.of_N m))%Q.
Proof. unfold Qc_of_N. apply this_Q2Qc. Qed.

Lemma Qcabs_half_bounds (y : Qc) :
  Qcabs y <= Q2Qc (1 # 2) -> (- (1 # 2) <= this y /\ this y <= 1 # 2)%Q.
Proof.
  intros H. apply Qcabs_Qcle_condition in H. destruct H as [H1 H2].
  unfold Qcle, Qcopp in H1, H2. rewrite !this_Q2Qc in H1.
  rewrite this_Q2Qc in H2. split; lra.
Qed.

Lemma Qcabs_half_tie (y : Qc) :
  (this y == 1 # 2 \/ this y == - (1 # 2))%Q -> Qcabs y = Q2Qc (1 # 2).
Proof.
  intros [H|H].
  - assert (E : y = Q2Qc (1 # 2)).
    { apply Qc_is_canon. rewrite this_Q2Qc. exact H. }
    rewrite E. apply Qcabs_pos. discriminate.
  - assert (E : y = - Q2Qc (1 # 2)).
    { apply Qc_is_canon. unfold Qcopp. rewrite !this_Q2Qc. exact H. }
    rewrite E, Qcabs_opp. apply Qcabs_pos. discriminate.
Qed.

Lemma N_even_to_Z (m : N) : N.even m = Z.even (Z.of_N m).
Proof. destruct m as [|[p|p|]]; reflexivity. Qed.

(** Of the whole numbers at most one half away from [x], only one passes
    the tie rule. *)
Lemma nearest_even_unique (x : Qc) (m m' : N) :
  Qcabs (Qc_of_N m - x) <= Q2Qc (1 # 2) ->
  (Qcabs (Qc_of_N m - x) = Q2Qc (1 # 2) -> N.even m = true) ->
  Qcabs (Qc_of_N m' - x) <= Q2Qc (1 # 2) ->
  (Qcabs (Qc_of_N m' - x) = Q2Qc (1 # 2) -> N.even m' = true) ->
  m' = m.
Proof.
  intros H1 T1 H2 T2.
  pose proof (Qcabs_half_bounds _ H1) as [L1 U1].
  pose proof (Qcabs_half_bounds _ H2) as [L2 U2].
  assert (D1 := this_minus (Qc_of_N m) x).
  assert (D2 := this_minus (Qc_of_N m') x).
  rewrite this_Qc_of_N in D1, D2.
  rewrite D1 in L1, U1. rewrite D2 in L2, U2.
  assert (Hd : (- 1 <= inject_Z (Z.of_N m) - inject_Z (Z.of_N m') <= 1)%Q)
    by (split; lra).
  assert (Hz : (- 1 <= Z.of_N m - Z.of_N m' <= 1)%Z).
  { destruct Hd as [Ha Hb].
    unfold Qminus in Ha, Hb. rewrite <- inject_Z_opp, <- inject_Z_plus in Ha, Hb.
    change (- 1)%Q with (inject_Z (- 1)) in Ha.
    change 1%Q with (inject_Z 1) in Hb.
    rewrite <- Zle_Qle in Ha, Hb. lia. }
  assert (Hc : (Z.of_N m = Z.of_N m' \/ Z.of_N m = Z.of_N m' + 1
                \/ Z.of_N m' = Z.of_N m + 1)%Z) by lia.
  destruct Hc as [Hc|[Hc|Hc]].
  - lia.
  - exfalso. rewrite Hc, inject_Z_plus in D1, L1, U1.
    change (inject_Z 1) with 1%Q in D1, L1, U1.
    assert (E1 : N.even m = true).
    { apply T1. apply Qcabs_half_tie. left. rewrite D1. lra. }
    assert (E2 : N.even m' = true).
    { apply T2. apply Qcabs_half_tie. right. rewrite D2. lra. }
    rewrite N_even_to_Z in E1, E2.
    rewrite Hc, Z.even_add in E1. rewrite E2 in E1. discriminate.
  - exfalso. rewrite Hc, inject_Z_plus in D2, L2, U2.
    change (inject_Z 1) with 1%Q in D2, L2, U2.
    assert (E1 : N.even m = true).
    { apply T1. apply Qcabs_half_tie. right. rewrite D1. lra. }
    assert (E2 : N.even m' = true).
    { apply T2. apply Qcabs_half_tie. left. rewrite D2. lra. }
    rewrite N_even_to_Z in E1, E2.
    rewrite Hc, Z.even_add in E2. rewrite E1 in E2. discriminate.
Qed.

(** X18.  A printed loss reads as a whole number of ten-thousandths after a
    minus sign exactly when the loss is negative: the whole part, a
    point, and the rest on four digits padded with zeros.  That number is
    the whole number nearest to ten thousand times the absolute value of
    the loss, the even one when two are equally near, and no other whole
    number meets both conditions. *)
Theorem format_4f_rounds_to_nearest (q : Qc) :
  exists (sign : string) (m : N),
    format_4f q
    = (sign ++ str_of_N (m / 10000) ++ "."
       ++ zfill 4 (str_of_N (m mod 10000)))%string
    /\ sign = (if Qclt_le_dec q 0 then "-" else "")%string
    /\ Qcabs (Qc_of_N m - Qcabs q * Qz 10000) <= Q2Qc (1 # 2)
    /\ (Qcabs (Qc_of_N m - Qcabs q * Qz 10000) = Q2Qc (1 # 2) ->
        N.even m = true)
    /\ (forall m' : N,
          Qcabs (Qc_of_N m' - Qcabs q * Qz 10000) <= Q2Qc (1 # 2) ->
          (Qcabs (Qc_of_N m' - Qcabs q * Qz 10000) = Q2Qc (1 # 2) ->
           N.even m' = true) ->
          m' = m).
Proof.
  unfold format_4f.
  set (x := Qcabs q * Q2Qc (inject_Z 10000)).
  assert (Hx : 0 <= x).
  { unfold x. apply Qcmult_nonneg; [apply Qcabs_nonneg|]. discriminate. }
  pose proof (round_half_even_nonneg x Hx) as Hr.
  destruct (round_half_even_near x) as [H1 H2].
  pose proof (round_half_even_tie x) as Htie.
  set (m := Z.to_N (round_half_even x)).
  change (Qz 10000) with (Q2Qc (inject_Z 10000)). fold x.
  assert (Em : (this (Qc_of_N m - x) == inject_Z (round_half_even x) - this x)%Q).
  { rewrite this_minus. unfold Qc_of_N, m. rewrite this_Q2Qc, Z2N.id by exact Hr.
    reflexivity. }
  assert (Hnear : Qcabs (Qc_of_N m - x) <= Q2Qc (1 # 2)).
  { apply Qcabs_Qcle_condition. unfold Qcle, Qcopp.
    rewrite !this_Q2Qc, Em. split; lra. }
  assert (Heven : Qcabs (Qc_of_N m - x) = Q2Qc (1 # 2) -> N.even m = true).
  { intros Habs. unfold m. rewrite N_even_of_Z by exact Hr. apply Htie.
    revert Habs.
    apply (Qcabs_case (Qc_of_N m - x)
             (fun y => y = Q2Qc (1 # 2) ->
                       (inject_Z (round_half_even x) - this x == 1 # 2
                        \/ this x - inject_Z (round_half_even x) == 1 # 2)%Q)).
    + intros _ E. apply (f_equal this) in E. left.
      rewrite <- Em, E. apply this_Q2Qc.
    + intros _ E. right.
      assert (E' : (this (- (Qc_of_N m - x)) == 1 # 2)%Q)
        by (rewrite E; apply this_Q2Qc).
      unfold Qcopp in E'. rewrite this_Q2Qc, Em in E'. lra. }
  eexists _, m. split; [reflexivity|]. split; [|split; [|split]].
  - destruct (Qclt_le_dec q 0) as [Hq|Hq].
    + rewrite (proj1 (Qclt_alt q 0) Hq). reflexivity.
    + destruct (q ?= 0) eqn:E; try reflexivity.
      exfalso. exact (Qclt_not_le _ _ (proj2 (Qclt_alt q 0) E) Hq).
  - exact Hnear.
  - exact Heven.
  - intros m' Hn' He'. exact (nearest_even_unique x m m' Hnear Heven Hn' He').
Qed.

(** *** The further properties on the example engine *)

Lemma train_step_order_of_effects_witness :
  grad_enabled example_world = true
  /\ exists groups tail,
       trace (fst example_train_step)
       = trace example_world ++ concat groups ++ tail
       /\ Forall iteration groups
       /\ length groups = length (batches example_loader)
       /\ tail = [].
Proof.
  split; [reflexivity|].
  destruct (@train_step_order_of_effects example_kornia example_torch
              example_loader example_world eq_refl)
    as (groups & tail & H1 & H2 & _ & _ & H5).
  exists groups, tail. split; [exact H1|]. split; [exact H2|].
  exact (H5 example_train_step_returns).
Defined.


Lemma steps_return_nonnegative_loss_witness :
  exists v, snd example_train_step = Ok v /\ 0 <= v.
Proof.
  destruct (returns_Ok _ example_train_step_returns) as [v Hv].
  exists v. split; [exact Hv|].
  exact (@steps_return_nonnegative_loss example_kornia example_torch
           example_loader example_world v (or_introl Hv)).
Defined.


Lemma checkpoint_holds_model_after_training_witness :
  returns (snd (example_fit 2%nat)) = true
  /\ saves (trace (fst (example_fit 2%nat)))
     = saves (trace (fst (example_fit 1%nat)))
       ++ [(checkpoint_path 1,
            (params (model (fst (@train_step example_kornia example_torch
                                   (mkLoader (train_size 3) [example_batch 2 1 0])
                                   (fst (example_fit 1%nat))))),
             buffers (model (fst (@train_step example_kornia example_torch
                                    (mkLoader (train_size 3) [example_batch 2 1 0])
                                    (fst (example_fit 1%nat)))))))].
Proof.
  split; [exact example_fit_returns|].
  pose proof (@checkpoint_holds_model_after_training example_kornia
                example_torch 3 (fun _ => [example_batch 2 1 0])
                (fun _ => [example_batch 1 (Qz 3) (Qz 1)]) (Qz 0) O 1%nat
                example_fit_returns) as H.
  cbv beta zeta in H. exact H.
Defined.
